(** * sapphire: the monitor dispatch loop and the builtin command monitor

    A shallow embedding of [monitor.go]: the listener that walks the bot's
    monitors for every incoming message, and [CommandHandlerMonitor], which
    strips flags from the message text with two regular expressions, splits
    the rest into a command name and arguments, and runs the command behind
    its validation gates.

    Go strings are byte sequences; they are modelled as [list ascii].  The
    parts of the Go standard library the file calls ([unicode/utf8],
    [regexp], [strings]) are modelled next to it, in modules named after
    the packages. *)

From Stdlib Require Import NArith Ascii String Lia.
From stdpp Require Import gmap strings list.

Open Scope N_scope.
Open Scope list_scope.

(** ** Go strings *)

Abbreviation gostring := (list ascii).
Abbreviation rune := N.

Definition str (s : string) : gostring := list_ascii_of_string s.

Definition byteval (b : ascii) : N := N_of_ascii b.

(** [s[lo:]] on a string: a run-time panic when [lo] is beyond the end. *)
Definition slice_from (s : gostring) (lo : nat) : option gostring :=
  if (lo <=? length s)%nat then Some (drop lo s) else None.

(** ** unicode/utf8 *)

Module Utf8.

Definition RuneError : rune := 0xFFFD.
Definition RuneSelf : N := 0x80.

(** The [first] table of the package: for a leading byte, the size of
    the sequence in the low bits and the index of the range the second
    byte must lie in in the high bits; [xx] marks an invalid leading
    byte and [as_] an ASCII one. *)
Definition xx : N := 0xF1.
Definition as_ : N := 0xF0.
Definition s1 : N := 0x02.
Definition s2 : N := 0x13.
Definition s3 : N := 0x03.
Definition s4 : N := 0x23.
Definition s5 : N := 0x34.
Definition s6 : N := 0x04.
Definition s7 : N := 0x44.

Definition first (b : N) : N :=
  if b <? 0x80 then as_
  else if b <? 0xC2 then xx
  else if b <? 0xE0 then s1
  else if b =? 0xE0 then s2
  else if b <? 0xED then s3
  else if b =? 0xED then s4
  else if b <? 0xF0 then s3
  else if b =? 0xF0 then s5
  else if b <? 0xF4 then s6
  else if b =? 0xF4 then s7
  else xx.

Definition locb : N := 0x80.
Definition hicb : N := 0xBF.

Definition acceptRanges (i : N) : N * N :=
  match i with
  | 0 => (locb, hicb)
  | 1 => (0xA0, hicb)
  | 2 => (locb, 0x9F)
  | 3 => (0x90, hicb)
  | 4 => (locb, 0x8F)
  | _ => (0, 0)
  end.

Definition mask2 : N := 0x1F.
Definition mask3 : N := 0x0F.
Definition mask4 : N := 0x07.
Definition maskx : N := 0x3F.

Definition outside (b lo hi : N) : bool := (b <? lo) || (hi <? b).

(** [utf8.DecodeRuneInString]: the first rune of [s] and its width in
    bytes; an invalid encoding decodes to [RuneError] with width 1 and
    the empty string to [RuneError] with width 0. *)
Definition DecodeRuneInString (s : gostring) : rune * nat :=
  match s with
  | [] => (RuneError, 0%nat)
  | c0 :: t =>
    let b0 := byteval c0 in
    let x := first b0 in
    if as_ <=? x then
      (if x =? xx then RuneError else b0, 1%nat)
    else
      let sz := N.to_nat (N.land x 7) in
      let accept := acceptRanges (N.shiftr x 4) in
      if (length s <? sz)%nat then (RuneError, 1%nat)
      else
        match t with
        | [] => (RuneError, 1%nat)
        | c1 :: t1 =>
          let b1 := byteval c1 in
          if outside b1 (fst accept) (snd accept) then (RuneError, 1%nat)
          else if (sz <=? 2)%nat then
            (N.lor (N.shiftl (N.land b0 mask2) 6) (N.land b1 maskx), 2%nat)
          else
            match t1 with
            | [] => (RuneError, 1%nat)
            | c2 :: t2 =>
              let b2 := byteval c2 in
              if outside b2 locb hicb then (RuneError, 1%nat)
              else if (sz <=? 3)%nat then
                (N.lor (N.shiftl (N.land b0 mask3) 12)
                   (N.lor (N.shiftl (N.land b1 maskx) 6) (N.land b2 maskx)),
                 3%nat)
              else
                match t2 with
                | [] => (RuneError, 1%nat)
                | c3 :: _ =>
                  let b3 := byteval c3 in
                  if outside b3 locb hicb then (RuneError, 1%nat)
                  else
                    (N.lor (N.shiftl (N.land b0 mask4) 18)
                       (N.lor (N.shiftl (N.land b1 maskx) 12)
                          (N.lor (N.shiftl (N.land b2 maskx) 6)
                             (N.land b3 maskx))),
                     4%nat)
                end
            end
        end
  end.

End Utf8.

(** ** regexp *)

Module Regexp.

(** The syntax tree of a regular expression, with the operators of
    [regexp/syntax] that the two expressions of the file use. *)
Inductive Regex : Type :=
| EmptyMatch
| Literal (c : rune)
| CharClass (negated : bool) (ranges : list (rune * rune))
| AnyCharNotNL
| Concat (a b : Regex)
| Alternate (a b : Regex)
| Star (a : Regex)
| Plus (a : Regex)
| Quest (a : Regex)
| Capture (i : nat) (a : Regex).

Definition inRanges (r : rune) (ranges : list (rune * rune)) : bool :=
  existsb (fun lh => (fst lh <=? r) && (r <=? snd lh)) ranges.

(** Capture positions, most recent first: group, start and end offset. *)
Definition Caps := list (nat * (nat * nat)).

Section Matcher.
Context {R : Type}.

Definition Cont := gostring -> nat -> Caps -> option R.
Definition Thread := gostring -> nat -> Caps -> Cont -> option R.

(** One rune: [inputString.step] followed by the test of the
    instruction. *)
Definition stepRune (p : rune -> bool) : Thread :=
  fun s pos cap k =>
    match s with
    | [] => None
    | _ :: _ =>
      let '(r, w) := Utf8.DecodeRuneInString s in
      if p r then k (drop w s) (pos + w)%nat cap else None
    end.

(** A greedy loop: another round of the body is preferred to leaving
    the loop; a round that consumes nothing is not taken again. *)
Fixpoint loop (body : Thread) (fuel : nat) : Thread :=
  fun s pos cap k =>
    match fuel with
    | O => k s pos cap
    | S fuel' =>
      match body s pos cap
              (fun s' pos' cap' =>
                 if (pos <? pos')%nat then loop body fuel' s' pos' cap' k
                 else None) with
      | Some x => Some x
      | None => k s pos cap
      end
    end.

(** Leftmost-first matching at the start of [s]: the alternatives are
    tried in the order a backtracking search tries them and the first
    success is the answer. *)
Fixpoint run (re : Regex) : Thread :=
  fun s pos cap k =>
    match re with
    | EmptyMatch => k s pos cap
    | Literal c => stepRune (N.eqb c) s pos cap k
    | CharClass neg ranges =>
      stepRune (fun r => xorb neg (inRanges r ranges)) s pos cap k
    | AnyCharNotNL => stepRune (fun r => negb (r =? 10)) s pos cap k
    | Concat a b => run a s pos cap (fun s' pos' cap' => run b s' pos' cap' k)
    | Alternate a b =>
      match run a s pos cap k with
      | Some x => Some x
      | None => run b s pos cap k
      end
    | Star a => loop (run a) (S (length s)) s pos cap k
    | Plus a =>
      run a s pos cap
        (fun s' pos' cap' => loop (run a) (S (length s')) s' pos' cap' k)
    | Quest a =>
      match run a s pos cap k with
      | Some x => Some x
      | None => k s pos cap
      end
    | Capture i a =>
      run a s pos cap (fun s' pos' cap' => k s' pos' ((i, (pos, pos')) :: cap'))
    end.
End Matcher.

(** Expressions every match of which takes at least one rune. *)
Fixpoint consuming (re : Regex) : bool :=
  match re with
  | EmptyMatch | Star _ | Quest _ => false
  | Literal _ | CharClass _ _ | AnyCharNotNL => true
  | Concat a b => consuming a || consuming b
  | Alternate a b => consuming a && consuming b
  | Plus a | Capture _ a => consuming a
  end.

Definition firstRune (s : gostring) : rune := fst (Utf8.DecodeRuneInString s).
Definition width (s : gostring) : nat := snd (Utf8.DecodeRuneInString s).

(** [n] bytes into [s] a rune starts (or the text ends), counting in
    whole runes from the first byte. *)
Inductive Aligned : gostring -> nat -> Prop :=
| Aligned_here s : Aligned s 0
| Aligned_step s n :
    s <> [] -> Aligned (drop (width s) s) n -> Aligned s (width s + n).

(** The numbers of the groups of an expression. *)
Fixpoint groups (re : Regex) : list nat :=
  match re with
  | EmptyMatch | Literal _ | CharClass _ _ | AnyCharNotNL => []
  | Concat a b | Alternate a b => groups a ++ groups b
  | Star a | Plus a | Quest a => groups a
  | Capture i a => i :: groups a
  end.

(** [k] answers [x] on the suffix of [s] some [n] bytes on, with [n]
    at least [least] and on a rune boundary, and with captures of the
    groups [gs] put before [cap]. *)
Definition reaches {R : Type} (k : @Cont R) (s : gostring) (pos least : nat)
           (cap : Caps) (gs : list nat) (x : R) : Prop :=
  exists n ext,
    (least <= n <= length s)%nat /\ Aligned s n /\
    Forall (fun e => e.1 ∈ gs) ext /\
    k (drop n s) (pos + n)%nat (ext ++ cap) = Some x.

(** The answer [r'] is [x] where [r] is, and none where [r] is none. *)
Definition agrees {R : Type} (x : R) (r r' : option R) : Prop :=
  (r = Some x -> r' = Some x) /\ (r = None -> r' = None).

(** [k'] does on the first [m] bytes of [u] what [k] does on [u], as
    long as [k] is called no further than [m] bytes on; and [k] does
    not answer [x] further on. *)
Definition truncates {R : Type} (u : gostring) (m pos : nat) (x : R)
           (k k' : @Cont R) : Prop :=
  forall j cap,
    (j <= length u)%nat ->
    (k (drop j u) (pos + j)%nat cap = Some x -> (j <= m)%nat) /\
    ((j <= m)%nat -> Aligned (drop j u) (m - j) ->
     agrees x (k (drop j u) (pos + j)%nat cap)
              (k' (take (m - j) (drop j u)) (pos + j)%nat cap)).

(** The match that starts at the first byte of [s], if there is one:
    its length in bytes and its capture positions. *)
Definition matchHere (re : Regex) (s : gostring) : option (nat * Caps) :=
  run re s 0%nat [] (fun _ pos cap => Some (pos, cap)).

Fixpoint capLookup (i : nat) (cap : Caps) : option (nat * nat) :=
  match cap with
  | [] => None
  | (j, se) :: cap' => if (i =? j)%nat then Some se else capLookup i cap'
  end.

Definition substr (s : gostring) (lo hi : nat) : gostring :=
  take (hi - lo) (drop lo s).

(** The text of group [i] of a match on [s]; the empty string for a
    group that took no part in the match. *)
Definition group (s : gostring) (cap : Caps) (i : nat) : gostring :=
  match capLookup i cap with
  | Some (lo, hi) => substr s lo hi
  | None => []
  end.

(** The slice [FindStringSubmatch] returns for a match of length [n] at
    the start of [s]: the match itself, then groups 1 to [numSubexp]. *)
Definition submatches (numSubexp : nat) (s : gostring) (n : nat) (cap : Caps)
  : list gostring :=
  take n s :: map (group s cap) (seq 1 numSubexp).

(** The leftmost match in [s]: the search moves on rune by rune. *)
Fixpoint search (fuel : nat) (re : Regex) (s : gostring)
  : option (gostring * nat * Caps) :=
  match matchHere re s with
  | Some (n, cap) => Some (s, n, cap)
  | None =>
    match s, fuel with
    | _ :: _, S fuel' => search fuel' re (drop (width s) s)
    | _, _ => None
    end
  end.

(** [re.FindStringSubmatch(s)]: [None] stands for the nil slice. *)
Definition FindStringSubmatch (re : Regex) (numSubexp : nat) (s : gostring)
  : option (list gostring) :=
  match search (length s) re s with
  | Some (s', n, cap) => Some (submatches numSubexp s' n cap)
  | None => None
  end.

Section Replace.
Context {St : Type}.
Variable re : Regex.
Variable numSubexp : nat.
(** The replacement for one match, given its submatches; it may
    update the state [St] its closure captures. *)
Variable repl : list gostring -> St -> gostring * St.

(** The loop of [replaceAll].  [afterMatch] says that the previous
    match ended exactly here, in which case an empty match is not
    replaced again; [atStart] that this is offset 0. *)
Fixpoint replaceLoop (fuel : nat) (s : gostring) (atStart afterMatch : bool)
         (st : St) : gostring * St :=
  match fuel with
  | O => (s, st)
  | S fuel' =>
    match matchHere re s with
    | Some (O, cap) =>
      let '(out, st1) :=
        if negb afterMatch || atStart
        then repl (submatches numSubexp s 0 cap) st
        else ([], st) in
      match s with
      | [] => (out, st1)
      | _ :: _ =>
        let w := width s in
        let '(rest, st2) := replaceLoop fuel' (drop w s) false false st1 in
        (out ++ take w s ++ rest, st2)
      end
    | Some (S n', cap) =>
      let n := S n' in
      let '(out, st1) := repl (submatches numSubexp s n cap) st in
      let '(rest, st2) := replaceLoop fuel' (drop n s) false true st1 in
      (out ++ rest, st2)
    | None =>
      match s with
      | [] => ([], st)
      | _ :: _ =>
        let w := width s in
        let '(rest, st1) := replaceLoop fuel' (drop w s) false false st in
        (take w s ++ rest, st1)
      end
    end
  end.

Definition replaceAll (s : gostring) (st : St) : gostring * St :=
  replaceLoop (S (length s)) s true false st.
End Replace.

(** What [replaceAll] sees of a text when the expression has no empty
    match: a sequence of matches, each with its submatches, and of
    runes that start no match. *)
Inductive Piece : Type :=
| Unmatched (text : gostring)
| Matched (subs : list gostring).

Fixpoint scan (fuel : nat) (re : Regex) (numSubexp : nat) (s : gostring)
  : list Piece :=
  match fuel with
  | O => [Unmatched s]
  | S fuel' =>
    match matchHere re s with
    | Some (S n', cap) =>
      Matched (submatches numSubexp s (S n') cap)
              :: scan fuel' re numSubexp (drop (S n') s)
    | _ =>
      match s with
      | [] => []
      | _ :: _ => Unmatched (take (width s) s)
                            :: scan fuel' re numSubexp (drop (width s) s)
      end
    end
  end.

Definition pieces (re : Regex) (numSubexp : nat) (s : gostring) : list Piece :=
  scan (S (length s)) re numSubexp s.

Definition pieceText (p : Piece) : gostring :=
  match p with
  | Unmatched text => text
  | Matched subs => hd [] subs
  end.

(** The matches among the pieces, left to right. *)
Definition matchedTexts (ps : list Piece) : list gostring :=
  omap (fun p => match p with Matched subs => Some (hd [] subs) | _ => None end) ps.

(** The text between the matches. *)
Definition unmatchedText (ps : list Piece) : gostring :=
  concat (map (fun p => match p with Unmatched text => text | _ => [] end) ps).

(** The pieces put together again, with each match replaced. *)
Fixpoint replacePieces {St : Type}
         (repl : list gostring -> St -> gostring * St)
         (ps : list Piece) (st : St) : gostring * St :=
  match ps with
  | [] => ([], st)
  | Unmatched text :: ps' =>
    let '(rest, st') := replacePieces repl ps' st in (text ++ rest, st')
  | Matched subs :: ps' =>
    let '(out, st1) := repl subs st in
    let '(rest, st2) := replacePieces repl ps' st1 in
    (out ++ rest, st2)
  end.

(** [re.ReplaceAllStringFunc(src, f)], with the state of the closure
    [f] passed along. *)
Definition ReplaceAllStringFunc {St : Type} (re : Regex) (numSubexp : nat)
           (src : gostring) (f : gostring -> St -> gostring * St) (st : St)
  : gostring * St :=
  replaceAll re numSubexp
    (fun subs st' => f (hd [] subs) st') src st.

(** A replacement template: literal text and references [$i]. *)
Inductive TemplateItem : Type :=
| TText (t : gostring)
| TRef (i : nat).

Definition expand (template : list TemplateItem) (subs : list gostring)
  : gostring :=
  concat (map (fun it => match it with
                         | TText t => t
                         | TRef i => nth i subs []
                         end) template).

(** [re.ReplaceAllString(src, template)]. *)
Definition ReplaceAllString (re : Regex) (numSubexp : nat) (src : gostring)
           (template : list TemplateItem) : gostring :=
  fst (replaceAll re numSubexp
         (fun subs (_ : unit) => (expand template subs, tt)) src tt).

End Regexp.

(** ** strings *)

Module Strings.

(** [strings.HasPrefix]. *)
Fixpoint HasPrefix (s prefix : gostring) : bool :=
  match prefix, s with
  | [], _ => true
  | p :: prefix', c :: s' => if decide (p = c) then HasPrefix s' prefix' else false
  | _ :: _, [] => false
  end.

Definition inCutset (cutset : gostring) (c : ascii) : bool :=
  bool_decide (c ∈ cutset).

Fixpoint trimLeft (s cutset : gostring) : gostring :=
  match s with
  | c :: s' => if inCutset cutset c then trimLeft s' cutset else s
  | [] => []
  end.

Definition trimRight (s cutset : gostring) : gostring :=
  reverse (trimLeft (reverse s) cutset).

(** [strings.Trim] for a cutset of ASCII bytes (the file passes the
    single space): the leading and trailing bytes of the cutset go. *)
Definition Trim (s cutset : gostring) : gostring :=
  trimRight (trimLeft s cutset) cutset.

(** [strings.Split] for a separator of at least one byte.  [skip]
    counts the bytes of a separator still to pass over and [cur] is the
    piece being collected.  The result always has at least one piece. *)
Fixpoint splitLoop (sep s : gostring) (skip : nat) (cur : gostring)
  : list gostring :=
  match s with
  | [] => [cur]
  | c :: t =>
    match skip with
    | S skip' => splitLoop sep t skip' cur
    | O =>
      if HasPrefix s sep
      then cur :: splitLoop sep t (length sep - 1) []
      else splitLoop sep t 0 (cur ++ [c])
    end
  end.

(** With the empty separator [Split] cuts after every UTF-8 sequence
    (and yields nothing for the empty string). *)
Fixpoint explode (s : gostring) (skip : nat) (cur : gostring)
  : list gostring :=
  match s with
  | [] => match cur with [] => [] | _ => [cur] end
  | c :: t =>
    match skip with
    | S skip' => explode t skip' (cur ++ [c])
    | O =>
      let w := snd (Utf8.DecodeRuneInString s) in
      match cur with
      | [] => explode t (w - 1) [c]
      | _ => cur :: explode t (w - 1) [c]
      end
    end
  end.

Definition Split (s sep : gostring) : list gostring :=
  match sep with
  | [] => explode s 0 []
  | _ :: _ => splitLoop sep s 0 []
  end.

Definition isASCII (s : gostring) : bool :=
  forallb (fun c => byteval c <? Utf8.RuneSelf) s.

Definition lowerByte (c : ascii) : ascii :=
  let b := byteval c in
  if (0x41 <=? b) && (b <=? 0x5A) then ascii_of_N (b + 0x20) else c.

(** [strings.ToLower].  On a string of ASCII bytes the upper-case
    letters are shifted; a string with other bytes goes through the
    Unicode case tables, which are a parameter here. *)
Definition ToLower (unicodeLower : gostring -> gostring) (s : gostring)
  : gostring :=
  if isASCII s then map lowerByte s else unicodeLower s.

End Strings.

(** ** monitor.go: the two regular expressions *)

Import Regexp.

Definition lit (s : string) : rune := fst (Utf8.DecodeRuneInString (str s)).
Definition one (s : string) : rune * rune := (lit s, lit s).

(** [\w] and [[\w-]]. *)
Definition wordRanges : list (rune * rune) :=
  [(lit "0", lit "9"); (lit "A", lit "Z"); one "_"; (lit "a", lit "z")].
Definition word : Regex := CharClass false wordRanges.
Definition wordOrHyphen : Regex := CharClass false (one "-" :: wordRanges).

(** [\s]: tab, line feed, form feed, carriage return, space. *)
Definition spaceRanges : list (rune * rune) :=
  [(9, 10); (12, 13); (32, 32)].
Definition space : Regex := CharClass false spaceRanges.

Definition backslash : rune := 92.
Definition dquote : rune := 34.
Definition squote : rune := 39.

(** A quoted value: an opening quote of [q], group [i] holding any run of
    runes that are neither a quote of [q] nor a backslash, or a backslash
    and one more rune (not a line feed), and a closing quote of [q]. *)
Definition quoted (i : nat) (q : list (rune * rune)) : Regex :=
  Concat (CharClass false q)
    (Concat
       (Capture i
          (Star (Alternate (CharClass true (q ++ [(backslash, backslash)]))
                           (Concat (Literal backslash) AnyCharNotNL))))
       (CharClass false q)).

(** The flag expression: an introducer [--] or an em dash, the name
    [(\w[\w-]+)] as group 1 and, optionally, [=] and a value: quoted in
    straight double quotes (group 2), straight single quotes (group 3),
    curly double quotes (group 4), curly single quotes (group 5), or the
    bare run [([\w-]+)] (group 6). *)
Definition flagIntroducer : Regex :=
  Alternate (Concat (Literal (lit "-")) (Literal (lit "-")))
            (Literal (lit "—")).
Definition flagBody : Regex :=
  Concat
    (Capture 1 (Concat word (Plus wordOrHyphen)))
    (Quest
       (Concat (Literal (lit "="))
          (Alternate (quoted 2 [(dquote, dquote)])
          (Alternate (quoted 3 [(squote, squote)])
          (Alternate (quoted 4 [one "“"; one "”"])
          (Alternate (quoted 5 [one "‘"; one "’"])
                     (Capture 6 (Plus wordOrHyphen)))))))).
Definition flagsRegex : Regex := Concat flagIntroducer flagBody.
Definition flagsRegexGroups : nat := 6.

(** [(\s)(?:\s)+] *)
Definition delim : Regex :=
  Concat (Capture 1 space) (Plus space).
Definition delimGroups : nat := 1.

(** ** discordgo: the fields the file reads *)

Record User : Type := mkUser {
  User_ID : gostring;
  User_Bot : bool
}.

Record Message : Type := mkMessage {
  Content : gostring;
  GuildID : gostring;
  ChannelID : gostring;
  WebhookID : gostring;
  Message_Author : User
}.

Inductive ChannelType : Type :=
| ChannelTypeGuildText
| ChannelTypeDM
| ChannelTypeGuildVoice
| ChannelTypeGroupDM.

Definition ChannelType_eqb (a b : ChannelType) : bool :=
  match a, b with
  | ChannelTypeGuildText, ChannelTypeGuildText
  | ChannelTypeDM, ChannelTypeDM
  | ChannelTypeGuildVoice, ChannelTypeGuildVoice
  | ChannelTypeGroupDM, ChannelTypeGroupDM => true
  | _, _ => false
  end.

Record Channel : Type := mkChannel {
  Channel_ID : gostring;
  Channel_Type : ChannelType
}.

Record Guild : Type := mkGuild {
  Guild_ID : gostring
}.

(** [s.State]: the two lookups return [None] where the Go calls return
    an error. *)
Record Session : Type := mkSession {
  State_User : User;
  State_Guild : gostring -> option Guild;
  State_Channel : gostring -> option Channel
}.

(** ** The context of a command *)

Record CommandContext : Type := mkCommandContext {
  cc_Command : gostring;
  cc_Message : Message;
  cc_Channel : Channel;
  cc_Author : User;
  cc_RawArgs : list gostring;
  cc_Prefix : gostring;
  cc_Guild : option Guild;
  cc_Flags : gmap gostring gostring;
  cc_Locale : option gostring
}.

(** ** Panics, effects and the state the handlers share *)

Inductive PanicValue : Type :=
| RuntimeError (msg : string)
| Raised (v : string).

Inductive Result (A : Type) : Type :=
| Ok (a : A)
| Panicked (v : PanicValue).
Arguments Ok {A} a.
Arguments Panicked {A} v.

(** What the collaborators outside the file do, as far as the file can
    tell: each call is recorded in the order it is made.  [Invoked] and
    [Did] are for the handlers of the sample commands and monitors. *)
Inductive Event : Type :=
| ReplyLocale (key : string) (args : list N)
| ChannelTyping (channelID : gostring)
| Printf (warning : string) (arg : gostring)
| ErrorHandler (err : PanicValue)
| Invoked (cctx : CommandContext)
| Did (what : string).

Record World : Type := mkWorld {
  trace : list Event;
  CommandsRan : nat
}.

Definition M (A : Type) : Type := World -> Result A * World.

Definition ret {A} (a : A) : M A := fun w => (Ok a, w).
Definition bind {A B} (m : M A) (f : A -> M B) : M B :=
  fun w => match m w with
           | (Ok a, w') => f a w'
           | (Panicked v, w') => (Panicked v, w')
           end.
Definition panic {A} (v : PanicValue) : M A := fun w => (Panicked v, w).
Definition emit (e : Event) : M unit :=
  fun w => (Ok tt, mkWorld (trace w ++ [e]) (CommandsRan w)).
Definition incCommandsRan : M unit :=
  fun w => (Ok tt, mkWorld (trace w) (S (CommandsRan w))).

Declare Scope go_scope.
Delimit Scope go_scope with go.
Notation "x <- m ;; k" := (bind m (fun x => k))
  (at level 100, m at next level, right associativity) : go_scope.
Notation "m ;;; k" := (bind m (fun _ => k))
  (at level 100, right associativity) : go_scope.
Open Scope go_scope.

(** ** Commands and the bot *)

Record Command : Type := mkCommand {
  Command_Name : gostring;
  Command_Enabled : bool;
  Command_OwnerOnly : bool;
  Command_GuildOnly : bool;
  Command_Cooldown : N;
  Command_Run : CommandContext -> M unit
}.

(** The bot, as far as the two functions of the file use it.  The list
    of monitors is passed next to it, since a monitor's handler takes the
    bot.  [GetCommand], [ParseArgs] and [CheckCooldown] are methods
    defined in other files of the package; they are fields here, as is
    the lower-casing of text that is not ASCII. *)
Record Bot : Type := mkBot {
  Prefix : Message -> bool -> gostring;
  Language : Message -> bool -> gostring;
  Languages : gostring -> option gostring;
  OwnerID : gostring;
  CommandTyping : bool;
  GetCommand : gostring -> option Command;
  ParseArgs : CommandContext -> M bool;
  CheckCooldown : gostring -> gostring -> N -> M (bool * N);
  unicodeLower : gostring -> gostring
}.

(** ** monitor.go: monitors *)

(** The context a handler receives.  The [Monitor] field holds the
    monitor's name and the [Bot] field is the handler's first argument. *)
Record MonitorContext : Type := mkMonitorContext {
  ctx_Message : Message;
  ctx_Channel : Channel;
  ctx_Session : Session;
  ctx_Author : User;
  ctx_Monitor : gostring;
  ctx_Guild : option Guild
}.

Definition MonitorHandler : Type := Bot -> MonitorContext -> M unit.

Record Monitor : Type := mkMonitor {
  Name : gostring;
  Enabled : bool;
  Run : MonitorHandler;
  GuildOnly : bool;
  IgnoreWebhooks : bool;
  IgnoreBots : bool;
  IgnoreSelf : bool
}.

Definition AllowBots (m : Monitor) : Monitor :=
  mkMonitor (Name m) (Enabled m) (Run m) (GuildOnly m) (IgnoreWebhooks m)
            false (IgnoreSelf m).

Definition AllowWebhooks (m : Monitor) : Monitor :=
  mkMonitor (Name m) (Enabled m) (Run m) (GuildOnly m) false
            (IgnoreBots m) (IgnoreSelf m).

Definition AllowSelf (m : Monitor) : Monitor :=
  mkMonitor (Name m) (Enabled m) (Run m) (GuildOnly m) (IgnoreWebhooks m)
            (IgnoreBots m) false.

Definition SetGuildOnly (m : Monitor) (toggle : bool) : Monitor :=
  mkMonitor (Name m) (Enabled m) (Run m) toggle (IgnoreWebhooks m)
            (IgnoreBots m) (IgnoreSelf m).

Definition NewMonitor (name : gostring) (monitor : MonitorHandler) : Monitor :=
  mkMonitor name true monitor false true true true.

(** ** monitor.go: [monitorListener] *)

Definition isEmpty (s : gostring) : bool :=
  match s with [] => true | _ :: _ => false end.

Definition gostring_eqb (a b : gostring) : bool := bool_decide (a = b).

Definition isNil {A} (o : option A) : bool :=
  match o with None => true | Some _ => false end.

(** A call of a monitor's handler made by the listener. *)
Definition Invocation : Type := gostring * MonitorContext.

(** The [for ... range bot.Monitors] loop.  Every [continue] of the Go
    loop is a call on the rest of the list; a panic of a handler leaves
    the loop.  The answer lists the handlers that were called. *)
Fixpoint rangeMonitors (bot : Bot) (s : Session) (m : Message)
         (monitors : list Monitor) (w : World)
  : Result unit * list Invocation * World :=
  match monitors with
  | [] => (Ok tt, [], w)
  | monitor :: rest =>
    let continue := rangeMonitors bot s m rest w in
    if negb (Enabled monitor) then continue
    else
      let lookup :=
        if negb (isEmpty (GuildID m)) then
          match State_Guild s (GuildID m) with
          | None => None
          | Some g => Some (Some g)
          end
        else Some None in
      match lookup with
      | None => continue
      | Some guild =>
        if GuildOnly monitor && isNil guild then continue
        else if gostring_eqb (User_ID (Message_Author m)) (User_ID (State_User s))
                && IgnoreSelf monitor then continue
        else if User_Bot (Message_Author m) && IgnoreBots monitor then continue
        else if negb (isEmpty (WebhookID m)) && IgnoreWebhooks monitor then continue
        else
          match State_Channel s (ChannelID m) with
          | None => continue
          | Some channel =>
            let ctx := mkMonitorContext m channel s (Message_Author m)
                                        (Name monitor) guild in
            match Run monitor bot ctx w with
            | (Ok _, w') =>
              let '(r, calls, w'') := rangeMonitors bot s m rest w' in
              (r, (Name monitor, ctx) :: calls, w'')
            | (Panicked v, w') => (Panicked v, [(Name monitor, ctx)], w')
            end
          end
      end
  end.

(** A deferred call: run when the function returns or unwinds, with the
    value of the panic in flight, if any; it answers with the panic that
    is still in flight when it is done. *)
Definition Deferred : Type :=
  option PanicValue -> World -> option PanicValue * World.

(** The closure of lines 109 to 113: [recover()] stops a panic in
    flight and the value goes to [bot.ErrorHandler]. *)
Definition recoverToErrorHandler : Deferred :=
  fun inflight w =>
    match inflight with
    | Some err => (None, snd (emit (ErrorHandler err) w))
    | None => (None, w)
    end.

Fixpoint runDeferred (ds : list Deferred) (inflight : option PanicValue)
         (w : World) : Result unit * World :=
  match ds with
  | [] => (match inflight with Some v => Panicked v | None => Ok tt end, w)
  | d :: ds' => let '(inflight', w') := d inflight w in runDeferred ds' inflight' w'
  end.

(** The function [monitorListener] returns.  The [defer] statement
    stands after the loop, so it is executed, and its closure pushed,
    only when the loop has run to its end; a panic that leaves the loop
    unwinds a function with no deferred call. *)
Definition monitorListener (bot : Bot) (monitors : list Monitor)
           (s : Session) (m : Message) (w : World)
  : Result unit * list Invocation * World :=
  let '(r, calls, w1) := rangeMonitors bot s m monitors w in
  match r with
  | Panicked v =>
    let '(r', w2) := runDeferred [] (Some v) w1 in (r', calls, w2)
  | Ok _ =>
    let '(r', w2) := runDeferred [recoverToErrorHandler] None w1 in (r', calls, w2)
  end.

(** ** monitor.go: [CommandHandlerMonitor] *)

(** The loop over [sub[2:]] in the closure passed to
    [ReplaceAllStringFunc]: the first group that is not empty becomes the
    value of the flag; before that, and if there is none, the flag's name
    is. *)
Fixpoint flagValueLoop (name : gostring) (elems : list gostring)
         (flags : gmap gostring gostring) : gmap gostring gostring :=
  match elems with
  | [] => flags
  | elem :: rest =>
    if negb (isEmpty elem) then <[name := elem]> flags
    else flagValueLoop name rest (<[name := name]> flags)
  end.

(** The closure: it matches the flag expression again on the matched
    text, records the flag and returns the empty replacement.  Slicing
    or indexing a [sub] that is too short is a run-time panic. *)
Definition flagClosure (m : gostring) (st : Result (gmap gostring gostring))
  : gostring * Result (gmap gostring gostring) :=
  match st with
  | Panicked v => ([], Panicked v)
  | Ok flags =>
    match FindStringSubmatch flagsRegex flagsRegexGroups m with
    | Some (sub0 :: sub1 :: elems) => ([], Ok (flagValueLoop sub1 elems flags))
    | _ => ([], Panicked (RuntimeError "slice bounds out of range"))
    end
  end.

(** The text with the flags cut out, and the flags. *)
Definition stripFlags (content : gostring)
  : gostring * Result (gmap gostring gostring) :=
  ReplaceAllStringFunc flagsRegex flagsRegexGroups content flagClosure (Ok ∅).

(** Line 132: the content after flag removal, the collapse of
    whitespace runs to their first byte, and the trim of spaces. *)
Definition cleanContent (content : gostring)
  : gostring * Result (gmap gostring gostring) :=
  let '(stripped, flags) := stripFlags content in
  (Strings.Trim (ReplaceAllString delim delimGroups stripped [TRef 1]) (str " "),
   flags).

Definition isDM (ch : Channel) : bool :=
  ChannelType_eqb (Channel_Type ch) ChannelTypeDM.

Definition CommandHandlerMonitor (bot : Bot) (ctx : MonitorContext) : M unit :=
  let prefix := Prefix bot (ctx_Message ctx) (isDM (ctx_Channel ctx)) in
  if negb (Strings.HasPrefix (Content (ctx_Message ctx)) prefix) then ret tt
  else
    let '(content, flagsResult) := cleanContent (Content (ctx_Message ctx)) in
    match flagsResult with
    | Panicked v => panic v
    | Ok flags =>
      match slice_from content (length prefix) with
      | None => panic (RuntimeError "slice bounds out of range")
      | Some rest =>
        let split := Strings.Split rest (str " ") in
        if (length split <? 1)%nat then ret tt
        else
          let input := Strings.ToLower (unicodeLower bot) (hd [] split) in
          let args := if (1 <? length split)%nat then drop 1 split else [] in
          match GetCommand bot input with
          | None => ret tt
          | Some cmd =>
            let cctx := mkCommandContext (Command_Name cmd) (ctx_Message ctx)
                          (ctx_Channel ctx) (ctx_Author ctx) args prefix
                          (ctx_Guild ctx) flags None in
            let lang := Language bot (ctx_Message ctx) (isDM (ctx_Channel ctx)) in
            match Languages bot lang with
            | None =>
              emit (Printf "WARNING: bot.Language handler returned a non-existent language '%s' (command execution aborted)" lang)
            | Some locale =>
              let cctx := mkCommandContext (cc_Command cctx) (cc_Message cctx)
                            (cc_Channel cctx) (cc_Author cctx) (cc_RawArgs cctx)
                            (cc_Prefix cctx) (cc_Guild cctx) (cc_Flags cctx)
                            (Some locale) in
              if negb (Command_Enabled cmd) then
                emit (ReplyLocale "COMMAND_DISABLED" [])
              else if Command_OwnerOnly cmd
                      && negb (gostring_eqb (User_ID (ctx_Author ctx)) (OwnerID bot)) then
                emit (ReplyLocale "COMMAND_OWNER_ONLY" [])
              else if Command_GuildOnly cmd && isEmpty (GuildID (ctx_Message ctx)) then
                emit (ReplyLocale "COMMAND_GUILD_ONLY" [])
              else
                parsed <- ParseArgs bot cctx ;;
                if negb parsed then ret tt
                else
                  (if CommandTyping bot
                   then emit (ChannelTyping (ChannelID (ctx_Message ctx)))
                   else ret tt) ;;;
                  cd <- CheckCooldown bot (User_ID (ctx_Author ctx))
                          (Command_Name cmd) (Command_Cooldown cmd) ;;
                  if negb (fst cd) then
                    emit (ReplyLocale "COMMAND_COOLDOWN" [snd cd])
                  else
                    incCommandsRan ;;;
                    Command_Run cmd cctx
            end
          end
      end
    end.

(** ** Reading the gates of the listener off a single monitor *)

(** The context [monitorListener] calls [monitor] with for the message
    [m], or [None] when one of its gates skips the monitor. *)
Definition eligible (s : Session) (m : Message) (monitor : Monitor)
  : option MonitorContext :=
  if negb (Enabled monitor) then None
  else if negb (isEmpty (GuildID m)) && isNil (State_Guild s (GuildID m)) then None
  else
    let guild := if isEmpty (GuildID m) then None else State_Guild s (GuildID m) in
    if GuildOnly monitor && isNil guild then None
    else if gostring_eqb (User_ID (Message_Author m)) (User_ID (State_User s))
            && IgnoreSelf monitor then None
    else if User_Bot (Message_Author m) && IgnoreBots monitor then None
    else if negb (isEmpty (WebhookID m)) && IgnoreWebhooks monitor then None
    else
      match State_Channel s (ChannelID m) with
      | None => None
      | Some channel =>
        Some (mkMonitorContext m channel s (Message_Author m) (Name monitor) guild)
      end.

(** The gates other than the two that look at the guild. *)
Definition passesOtherGates (s : Session) (m : Message) (monitor : Monitor)
  : bool :=
  Enabled monitor
  && negb (gostring_eqb (User_ID (Message_Author m)) (User_ID (State_User s))
           && IgnoreSelf monitor)
  && negb (User_Bot (Message_Author m) && IgnoreBots monitor)
  && negb (negb (isEmpty (WebhookID m)) && IgnoreWebhooks monitor)
  && negb (isNil (State_Channel s (ChannelID m))).

Definition called (name : gostring) (calls : list Invocation) : bool :=
  existsb (fun c => gostring_eqb (fst c) name) calls.

Definition reported (w : World) : bool :=
  existsb (fun e => match e with ErrorHandler _ => true | _ => false end) (trace w).

(** ** Flag tokens, plain text and whitespace *)

Definition quoteByte : ascii := ascii_of_N 34.
Definition backslashByte : ascii := ascii_of_N 92.

(** A byte of [\w], and a byte of [[\w-]]. *)
Definition wordByte (c : ascii) : bool := inRanges (byteval c) wordRanges.
Definition nameByte (c : ascii) : bool :=
  inRanges (byteval c) (one "-" :: wordRanges).

(** A flag name: a word byte and at least one more byte of [[\w-]]. *)
Definition isFlagName (name : gostring) : bool :=
  match name with
  | c :: rest => wordByte c && negb (isEmpty rest) && forallb nameByte rest
  | [] => false
  end.

(** Text around a flag token that holds no flag of its own: bytes other
    than the hyphen and [0xE2], the first byte of the em dash. *)
Definition plainByte (c : ascii) : bool :=
  negb (byteval c =? 45) && negb (byteval c =? 0xE2).
Definition plain (s : gostring) : bool := forallb plainByte s.

(** The text is over or goes on with an ASCII byte. *)
Definition asciiNext (s : gostring) : bool :=
  match s with
  | [] => true
  | c :: _ => byteval c <? 0x80
  end.

(** The text after a token does not go on with a byte of [[\w-]]. *)
Definition endsToken (post : gostring) : bool :=
  match post with
  | [] => true
  | c :: _ => negb (nameByte c)
  end.

(** The text after a flag without a value: it neither goes on with the
    name nor with [=]. *)
Definition endsBareFlag (post : gostring) : bool :=
  match post with
  | [] => true
  | c :: _ => negb (nameByte c) && negb (byteval c =? 61)
  end.

(** The text after [=] holds no value: it is over or goes on with an
    ASCII byte that is neither of [[\w-]] nor a straight quote. *)
Definition endsDangling (post : gostring) : bool :=
  match post with
  | [] => true
  | c :: _ => (byteval c <? 0x80) && negb (nameByte c)
              && negb (byteval c =? 34) && negb (byteval c =? 39)
  end.

(** A byte a double-quoted value takes as it is: neither the quote nor
    the backslash. *)
Definition valueByte (c : ascii) : bool :=
  negb (byteval c =? 34) && negb (byteval c =? 92).

(** The flag token [--name="text"]. *)
Definition quotedFlag (name text : gostring) : gostring :=
  str "--" ++ name ++ str "=" ++ [quoteByte] ++ text ++ [quoteByte].

(** A piece of one byte that starts no match. *)
Definition single (c : ascii) : Piece := Unmatched [c].

(** The flag tokens of a message, left to right, and the message without
    them. *)
Definition flagTokens (content : gostring) : list gostring :=
  matchedTexts (pieces flagsRegex flagsRegexGroups content).
Definition withoutFlags (content : gostring) : gostring :=
  unmatchedText (pieces flagsRegex flagsRegexGroups content).

Definition firstNonEmpty (elems : list gostring) : option gostring :=
  List.find (fun e => negb (isEmpty e)) elems.

(** The name and the value a flag token stands for: group 1, and the
    first of the groups 2 to 6 that is not empty or else the name. *)
Definition flagOf (token : gostring) : gostring * gostring :=
  match FindStringSubmatch flagsRegex flagsRegexGroups token with
  | Some (_ :: name :: elems) => (name, default name (firstNonEmpty elems))
  | _ => ([], [])
  end.

Definition putFlag (flags : gmap gostring gostring) (token : gostring)
  : gmap gostring gostring :=
  <[(flagOf token).1 := (flagOf token).2]> flags.

(** The flag token [--msg=] followed by a double-quoted value with two
    escaped quotes in it, and the text between the outer quotes. *)
Definition escapedValue : gostring :=
  str "he said " ++ [backslashByte; quoteByte] ++ str "hi"
      ++ [backslashByte; quoteByte].
Definition escapedFlag : gostring :=
  str "--msg=" ++ [quoteByte] ++ escapedValue ++ [quoteByte].

(** A whitespace byte of [\s]. *)
Definition spaceByte (c : ascii) : bool := inRanges (byteval c) spaceRanges.

(** Collapsing whitespace, said directly: of every run of whitespace
    bytes the first is kept and the others go. *)
Fixpoint collapseRuns (inRun : bool) (s : gostring) : gostring :=
  match s with
  | [] => []
  | c :: t =>
    if spaceByte c
    then (if inRun then collapseRuns true t else c :: collapseRuns true t)
    else c :: collapseRuns false t
  end.

(** No two whitespace bytes stand next to each other. *)
Fixpoint noSpaceRun (s : gostring) : bool :=
  match s with
  | c1 :: t =>
    match t with
    | c2 :: _ => negb (spaceByte c1 && spaceByte c2) && noSpaceRun t
    | [] => true
    end
  | [] => true
  end.

Definition spaceChar : ascii := ascii_of_N 32.

(** The text does not go on with a whitespace byte. *)
Definition notSpaceNext (rest : gostring) : bool :=
  match rest with
  | [] => true
  | c :: _ => negb (spaceByte c)
  end.

(** The replacement [ReplaceAllString] makes of the template [$1]. *)
Definition firstGroup (subs : list gostring) (_ : unit) : gostring * unit :=
  (expand [TRef 1] subs, tt).

(** The world after one more localized reply and nothing else. *)
Definition replied (key : string) (w : World) : World :=
  mkWorld (trace w ++ [ReplyLocale key []]) (CommandsRan w).

(** The author of the message is not the configured owner. *)
Definition notOwner (bot : Bot) (ctx : MonitorContext) : bool :=
  negb (gostring_eqb (User_ID (ctx_Author ctx)) (OwnerID bot)).

(** ** The listener and the command monitor seen from outside *)

(** The calls the listener makes when every handler returns: those of
    the eligible monitors, in the order of registration. *)
Definition eligibleCalls (s : Session) (m : Message) (monitors : list Monitor)
  : list Invocation :=
  omap (fun monitor => (fun ctx => (Name monitor, ctx)) <$> eligible s m monitor)
       monitors.

(** The message is one of the session's own user. *)
Definition fromSelf (s : Session) (m : Message) : bool :=
  gostring_eqb (User_ID (Message_Author m)) (User_ID (State_User s)).

(** The guild of the message as the listener resolves it: [None] when
    the lookup fails, [Some None] for a message without a guild id. *)
Definition resolvedGuild (s : Session) (m : Message) : option (option Guild) :=
  if isEmpty (GuildID m) then Some None
  else match State_Guild s (GuildID m) with
       | Some g => Some (Some g)
       | None => None
       end.

(** The world after the typing indicator, where the bot sends one. *)
Definition typed (bot : Bot) (ctx : MonitorContext) (w : World) : World :=
  if CommandTyping bot
  then mkWorld (trace w ++ [ChannelTyping (ChannelID (ctx_Message ctx))])
               (CommandsRan w)
  else w.

(** The world after one more command was counted. *)
Definition counted (w : World) : World :=
  mkWorld (trace w) (S (CommandsRan w)).

(** The world after the reply that names the time left to wait. *)
Definition toldToWait (after : N) (w : World) : World :=
  mkWorld (trace w ++ [ReplyLocale "COMMAND_COOLDOWN" [after]]) (CommandsRan w).

(** The world after the warning about a language without a locale. *)
Definition warned (lang : gostring) (w : World) : World :=
  mkWorld (trace w ++ [Printf "WARNING: bot.Language handler returned a non-existent language '%s' (command execution aborted)" lang])
          (CommandsRan w).

(** The context a command is run with. *)
Definition commandContext (ctx : MonitorContext) (cmd : Command)
           (prefix : gostring) (args : list gostring)
           (flags : gmap gostring gostring) (locale : gostring)
  : CommandContext :=
  mkCommandContext (Command_Name cmd) (ctx_Message ctx) (ctx_Channel ctx)
                   (ctx_Author ctx) args prefix (ctx_Guild ctx) flags
                   (Some locale).

(** The values [CommandHandlerMonitor] computes on its way: the prefix
    and the language the bot's handlers answer for the message, the name
    it looks up for the text after the prefix, and the flags. *)
Definition prefixOf (bot : Bot) (ctx : MonitorContext) : gostring :=
  Prefix bot (ctx_Message ctx) (isDM (ctx_Channel ctx)).
Definition languageOf (bot : Bot) (ctx : MonitorContext) : gostring :=
  Language bot (ctx_Message ctx) (isDM (ctx_Channel ctx)).
Definition inputOf (bot : Bot) (rest : gostring) : gostring :=
  Strings.ToLower (unicodeLower bot) (hd [] (Strings.Split rest (str " "))).
Definition flagsOf (content : gostring) : gmap gostring gostring :=
  foldl putFlag ∅ (flagTokens content).

(** The text after the prefix in the cleaned content; [None] where the
    slice expression panics. *)
Definition restOf (bot : Bot) (ctx : MonitorContext) : option gostring :=
  slice_from (fst (cleanContent (Content (ctx_Message ctx))))
             (length (prefixOf bot ctx)).

(** The three validation gates let the command through. *)
Definition gatesPass (bot : Bot) (ctx : MonitorContext) (cmd : Command) : bool :=
  Command_Enabled cmd
  && negb (Command_OwnerOnly cmd && notOwner bot ctx)
  && negb (Command_GuildOnly cmd && isEmpty (GuildID (ctx_Message ctx))).

(** The context the command found for the text [rest] is run with: its
    raw arguments are the pieces of [rest] after the first. *)
Definition contextFor (bot : Bot) (ctx : MonitorContext) (rest : gostring)
           (cmd : Command) (locale : gostring) : CommandContext :=
  commandContext ctx cmd (prefixOf bot ctx)
                 (drop 1 (Strings.Split rest (str " ")))
                 (flagsOf (Content (ctx_Message ctx))) locale.

(** An upper-case ASCII letter. *)
Definition upperByte (c : ascii) : bool :=
  (0x41 <=? byteval c) && (byteval c <=? 0x5A).

(** The two steps of line 132 that follow flag removal. *)
Definition normalize (s : gostring) : gostring :=
  Strings.Trim (ReplaceAllString delim delimGroups s [TRef 1]) (str " ").

(** The text neither starts nor ends with a space. *)
Definition trimmed (s : gostring) : bool :=
  negb (bool_decide (head s = Some spaceChar))
  && negb (bool_decide (last s = Some spaceChar)).

(** ** Sample bots, sessions and messages *)

Module Sample.

Definition alice : User := mkUser (str "alice") false.
Definition self : User := mkUser (str "sapphire") true.
Definition dm : Channel := mkChannel (str "dm") ChannelTypeDM.
Definition general : Channel := mkChannel (str "general") ChannelTypeGuildText.

(** A session whose state knows the two channels and no guild. *)
Definition session : Session :=
  mkSession self (fun _ => None)
    (fun id => if gostring_eqb id (str "dm") then Some dm
               else if gostring_eqb id (str "general") then Some general
               else None).

Definition direct (content : string) : Message :=
  mkMessage (str content) [] (str "dm") [] alice.

(** A message from a guild the session's state does not hold. *)
Definition fromLostGuild (content : string) : Message :=
  mkMessage (str content) (str "g404") (str "general") [] alice.

Definition say (what : string) : MonitorHandler := fun _ _ => emit (Did what).
Definition crash : MonitorHandler := fun _ _ => panic (Raised "boom").

Definition A : Monitor := NewMonitor (str "A") crash.
Definition B : Monitor := NewMonitor (str "B") (say "B ran").

(** A command whose handler records the context it is run with. *)
Definition command (name : string) (enabled ownerOnly guildOnly : bool)
  : Command :=
  mkCommand (str name) enabled ownerOnly guildOnly 0
            (fun cctx => emit (Invoked cctx)).

Definition ping : Command := command "ping" true false false.

Definition registry (name : string) (cmd : Command) (input : gostring)
  : option Command :=
  if gostring_eqb input (str name) then Some cmd else None.

Definition bot (prefix : string) (commands : gostring -> option Command) : Bot :=
  mkBot (fun _ _ => str prefix) (fun _ _ => str "en-US")
        (fun lang => if gostring_eqb lang (str "en-US") then Some lang else None)
        (str "owner") false commands
        (fun _ => ret true) (fun _ _ _ => ret (true, 0)) id.

(** A bot with the prefix [!] that answers the given language, sends
    the typing indicator or not, and whose [ParseArgs] and
    [CheckCooldown] answer as told, the latter with 30 for the time
    left. *)
Definition configured (language : string) (typing parses ready : bool)
           (commands : gostring -> option Command) : Bot :=
  mkBot (fun _ _ => str "!") (fun _ _ => str language)
        (fun lang => if gostring_eqb lang (str "en-US") then Some lang else None)
        (str "owner") typing commands
        (fun _ => ret parses) (fun _ _ _ => ret (ready, 30)) id.

Definition context (content : string) : MonitorContext :=
  mkMonitorContext (direct content) dm session alice (str "commands") None.

Definition fresh : World := mkWorld [] 0.

(** The context handed to a sample command for a direct message. *)
Definition handed (name content prefix : string) (args : list gostring)
           (flags : gmap gostring gostring) : CommandContext :=
  mkCommandContext (str name) (direct content) dm alice args (str prefix)
                   None flags (Some (str "en-US")).

Definition tab : ascii := ascii_of_N 9.
Definition lineFeed : ascii := ascii_of_N 10.

End Sample.

(** ** Tactics for the cases of the decoder *)

Ltac first_consts x sz acc :=
  replace (Utf8.as_ <=? x) with false by reflexivity;
  replace (N.to_nat (N.land x 7)) with sz by reflexivity;
  replace (Utf8.acceptRanges (N.shiftr x 4)) with acc by reflexivity.

Ltac split_ifs :=
  repeat match goal with
         | |- context [if Utf8.outside ?b ?lo ?hi then _ else _] =>
           let E := fresh "Hout" in
           destruct (Utf8.outside b lo hi) eqn:E;
           [| unfold Utf8.outside in E; apply orb_false_iff in E as [?%N.ltb_ge ?%N.ltb_ge] ]
         | |- context [if (?a <? ?b)%nat then _ else _] => destruct (a <? b)%nat
         end.

Ltac mod_facts b q :=
  pose proof (N.Div0.div_mod b q); pose proof (N.mod_lt b q ltac:(lia));
  generalize dependent (b / q); generalize dependent (b mod q); intros.

(** * Properties *)

(** ** Decoding runes *)

Lemma byteval_lt_256 c : byteval c < 256.
Proof. apply N_ascii_bounded. Qed.

Lemma decode_ascii c s :
  byteval c < 0x80 -> Utf8.DecodeRuneInString (c :: s) = (byteval c, 1%nat).
Proof.
  intros H. unfold Utf8.DecodeRuneInString, Utf8.first.
  apply N.ltb_lt in H. rewrite H. reflexivity.
Qed.

Lemma width_ascii c s : byteval c < 0x80 -> width (c :: s) = 1%nat.
Proof. intros H. unfold width. by rewrite decode_ascii. Qed.

(** The width of the first rune of a string that is not empty is at
    least one byte and at most the whole string. *)
Lemma width_bounds c s : (1 <= width (c :: s) <= length (c :: s))%nat.
Proof.
  unfold width, Utf8.DecodeRuneInString.
  repeat match goal with
         | |- context [if ?b then _ else _] => destruct b
         | |- context [match ?l with [] => _ | _ :: _ => _ end] => destruct l
         end; cbn [snd length]; lia.
Qed.

Lemma width_pos c s : (0 < width (c :: s))%nat.
Proof. pose proof (width_bounds c s). lia. Qed.

(** Cutting a text after its first rune, or later, does not change what
    the first rune decodes to. *)
Lemma first_size b :
  (Utf8.as_ <=? Utf8.first b) = false ->
  let sz := N.to_nat (N.land (Utf8.first b) 7) in
  sz = 2%nat \/ sz = 3%nat \/ sz = 4%nat.
Proof.
  unfold Utf8.first.
  repeat match goal with
         | |- context [if ?c then _ else _] => destruct c
         end; vm_compute; intros; try discriminate; tauto.
Qed.

Lemma decode_take c u m :
  (width (c :: u) <= m)%nat ->
  Utf8.DecodeRuneInString (take m (c :: u)) = Utf8.DecodeRuneInString (c :: u).
Proof.
  unfold width.
  destruct m as [|m].
  { pose proof (width_pos c u). unfold width in *. lia. }
  cbn [take]. unfold Utf8.DecodeRuneInString.
  destruct (Utf8.as_ <=? Utf8.first (byteval c)) eqn:Has; [done|].
  apply first_size in Has. cbv zeta in Has.
  generalize dependent (N.to_nat (N.land (Utf8.first (byteval c)) 7)).
  generalize (Utf8.acceptRanges (N.shiftr (Utf8.first (byteval c)) 4)).
  intros accept sz Hsz.
  destruct u as [|c1 [|c2 [|c3 u]]]; destruct m as [|[|[|m]]]; cbn [take length];
    destruct Hsz as [->|[->| ->]]; cbn [Nat.ltb Nat.leb];
    repeat match goal with
           | |- context [if ?b then _ else _] => destruct b
           end; cbn [snd]; intros; try done; try lia.
Qed.

(** ** The matcher calls its continuation on a suffix of its input *)

Lemma Aligned_app s n1 n2 :
  Aligned s n1 -> Aligned (drop n1 s) n2 -> Aligned s (n1 + n2).
Proof.
  induction 1 as [s|s n Hs Hal IH]; intros H2.
  - by rewrite drop_0 in H2.
  - rewrite <- Nat.add_assoc. apply Aligned_step; [done|].
    apply IH. by rewrite drop_drop.
Qed.

Lemma Aligned_one c s : Aligned (c :: s) (width (c :: s)).
Proof.
  rewrite <- (Nat.add_0_r (width (c :: s))). apply Aligned_step; [done | constructor].
Qed.

Section RunSound.
Context {R : Type}.
Implicit Types (k : @Cont R) (s : gostring) (x : R) (gs : list nat).

Lemma reaches_here k s pos cap gs x :
  k s pos cap = Some x -> reaches k s pos 0 cap gs x.
Proof.
  intros Hk. exists 0%nat, []. rewrite drop_0, Nat.add_0_r.
  split; [lia|]. split; [constructor|]. split; [constructor | done].
Qed.

Lemma reaches_weaken k s pos least least' cap gs gs' x :
  (least' <= least)%nat -> gs ⊆ gs' ->
  reaches k s pos least cap gs x -> reaches k s pos least' cap gs' x.
Proof.
  intros Hle Hsub (n & ext & Hn & Hal & Hext & Hk). exists n, ext.
  split; [lia|]. split; [done|]. split; [|done].
  eapply Forall_impl; [exact Hext|]. intros e He. by apply Hsub.
Qed.

Lemma stepRune_sound p s pos cap k gs x :
  stepRune p s pos cap k = Some x -> reaches k s pos 1 cap gs x.
Proof.
  unfold stepRune. destruct s as [|c s]; [done|].
  pose proof (width_bounds c s) as Hw. pose proof (Aligned_one c s) as Hal.
  unfold width in Hw, Hal.
  destruct (Utf8.DecodeRuneInString (c :: s)) as [r w]. cbn [snd] in Hw, Hal.
  destruct (p r); [|done]. intros Hk. exists w, []. done.
Qed.

Lemma reaches_compose k s pos x n1 ext1 least1 least2 cap gs1 gs2 :
  (least1 <= n1 <= length s)%nat -> Aligned s n1 ->
  Forall (fun e => e.1 ∈ gs1) ext1 ->
  reaches k (drop n1 s) (pos + n1) least2 (ext1 ++ cap) gs2 x ->
  reaches k s pos (least1 + least2) cap (gs1 ++ gs2) x.
Proof.
  intros Hn1 Hal1 Hext1 (n2 & ext2 & Hn2 & Hal2 & Hext2 & Hk).
  rewrite length_drop in Hn2.
  exists (n1 + n2)%nat, (ext2 ++ ext1). split; [lia|].
  split; [by apply Aligned_app|]. split.
  - apply Forall_app. split.
    + eapply Forall_impl; [exact Hext2|]. intros e He. apply elem_of_app. by right.
    + eapply Forall_impl; [exact Hext1|]. intros e He. apply elem_of_app. by left.
  - rewrite drop_drop in Hk. by rewrite Nat.add_assoc, <- app_assoc.
Qed.

Lemma loop_sound (body : @Thread R) fuel gs :
  (forall s pos cap k x, body s pos cap k = Some x -> reaches k s pos 0 cap gs x) ->
  forall s pos cap k x,
    loop body fuel s pos cap k = Some x -> reaches k s pos 0 cap gs x.
Proof.
  intros Hbody. induction fuel as [|fuel IH]; intros s pos cap k x; cbn [loop].
  - apply reaches_here.
  - destruct (body s pos cap _) as [y|] eqn:Hb.
    + intros [= ->]. apply Hbody in Hb as (n1 & ext1 & Hn1 & Hal1 & Hext1 & Hk).
      destruct (pos <? pos + n1)%nat; [|done].
      apply IH in Hk.
      apply (reaches_weaken k s pos (0 + 0) 0 cap (gs ++ gs) gs);
        [lia | by intros e [He|He]%elem_of_app |].
      by apply (reaches_compose k s pos x n1 ext1 0 0 cap gs gs); [lia | ..].
    + apply reaches_here.
Qed.

Lemma run_sound re :
  forall s pos cap k x,
    run re s pos cap k = Some x ->
    reaches k s pos (if consuming re then 1 else 0) cap (groups re) x.
Proof.
  induction re as [|c|neg ranges| |a IHa b IHb|a IHa b IHb|a IHa|a IHa|a IHa|i a IHa];
    intros s pos cap k x; cbn [run consuming groups].
  - apply reaches_here.
  - apply stepRune_sound.
  - apply stepRune_sound.
  - apply stepRune_sound.
  - intros H. apply IHa in H as (n1 & ext1 & Hn1 & Hal1 & Hext1 & H). apply IHb in H.
    eapply reaches_weaken;
      [| |eapply reaches_compose; [exact Hn1 | exact Hal1 | exact Hext1 | exact H]];
      [|done].
    destruct (consuming a), (consuming b); cbn; lia.
  - destruct (run a s pos cap k) as [y|] eqn:Ha.
    + intros [= ->]. apply IHa in Ha.
      eapply reaches_weaken; [| |exact Ha]; [|intros e He; apply elem_of_app; by left].
      destruct (consuming a), (consuming b); cbn; lia.
    + intros Hb. apply IHb in Hb.
      eapply reaches_weaken; [| |exact Hb]; [|intros e He; apply elem_of_app; by right].
      destruct (consuming a), (consuming b); cbn; lia.
  - apply loop_sound. intros s' pos' cap' k' x' H. apply IHa in H.
    eapply reaches_weaken; [| |exact H]; [lia | done].
  - intros H. apply IHa in H as (n1 & ext1 & Hn1 & Hal1 & Hext1 & H).
    apply (loop_sound _ _ (groups a)) in H.
    + eapply reaches_weaken;
        [| |eapply reaches_compose; [exact Hn1 | exact Hal1 | exact Hext1 | exact H]];
        [lia | by intros e [He|He]%elem_of_app].
    + intros s' pos' cap' k' x' H'. apply IHa in H'.
      eapply reaches_weaken; [| |exact H']; [lia | done].
  - destruct (run a s pos cap k) as [y|] eqn:Ha.
    + intros [= ->]. apply IHa in Ha. eapply reaches_weaken; [| |exact Ha]; [lia | done].
    + apply reaches_here.
  - intros H. apply IHa in H as (n1 & ext1 & Hn1 & Hal1 & Hext1 & H).
    exists n1, ((i, (pos, (pos + n1)%nat)) :: ext1).
    split; [exact Hn1 |]. split; [exact Hal1 |]. split; [|exact H].
    constructor; [by left|].
    eapply Forall_impl; [exact Hext1|]. intros e He. by right.
Qed.
End RunSound.

(** A match is no longer than the text and ends on a rune boundary, and
    a match of an expression that must take a rune is not empty. *)
Lemma matchHere_bounds re s n cap :
  matchHere re s = Some (n, cap) ->
  ((if consuming re then 1 else 0) <= n <= length s)%nat /\ Aligned s n.
Proof.
  unfold matchHere. intros H.
  apply run_sound in H as (n' & ext & Hn & Hal & _ & [= <- <-]). done.
Qed.

Lemma flagsRegex_bounds s n cap :
  matchHere flagsRegex s = Some (n, cap) -> (1 <= n <= length s)%nat.
Proof. intros H. by apply (matchHere_bounds flagsRegex) in H as [H _]. Qed.

Lemma delim_bounds s n cap :
  matchHere delim s = Some (n, cap) -> (1 <= n <= length s)%nat.
Proof. intros H. by apply (matchHere_bounds delim) in H as [H _]. Qed.
(** ** Matching again on the matched text *)

Section Truncation.
Context {R : Type}.
Implicit Types (k : @Cont R) (u : gostring) (x : R).

Lemma stepRune_cons p c u pos cap k :
  stepRune p (c :: u) pos cap k =
  if p (firstRune (c :: u))
  then k (drop (width (c :: u)) (c :: u)) (pos + width (c :: u))%nat cap
  else None.
Proof.
  unfold stepRune, firstRune, width.
  by destruct (Utf8.DecodeRuneInString (c :: u)).
Qed.

Lemma agrees_refl x (r : option R) : agrees x r r.
Proof. by split. Qed.

Lemma truncates_shift u m pos x k k' j :
  (j <= length u)%nat -> (j <= m)%nat ->
  truncates u m pos x k k' ->
  truncates (drop j u) (m - j) (pos + j) x k k'.
Proof.
  intros Hj Hjm Hrel i cap Hi. rewrite length_drop in Hi.
  destruct (Hrel (j + i)%nat cap ltac:(lia)) as [H1 H2].
  rewrite drop_drop, <- Nat.add_assoc. split.
  - intros H. apply H1 in H. lia.
  - intros Him Hal. replace (m - j - i)%nat with (m - (j + i))%nat by lia.
    apply H2; [lia|]. by replace (m - (j + i))%nat with (m - j - i)%nat by lia.
Qed.

Lemma truncates_here u m pos x k k' cap :
  Aligned u m -> truncates u m pos x k k' ->
  agrees x (k u pos cap) (k' (take m u) pos cap).
Proof.
  intros Hal Hrel. destruct (Hrel 0%nat cap ltac:(lia)) as [_ H].
  rewrite drop_0, Nat.add_0_r, Nat.sub_0_r in H. apply H; [lia | done].
Qed.

Lemma Aligned_pos_inv u m :
  Aligned u m -> (0 < m)%nat ->
  u <> [] /\ (width u <= m)%nat /\ Aligned (drop (width u) u) (m - width u).
Proof.
  intros Hal Hm. inversion Hal as [|s n Hne Hrest]; subst; [lia|].
  split; [done|]. split; [lia|]. by replace (width u + n - width u)%nat with n by lia.
Qed.

Lemma stepRune_trunc p u m pos cap k k' x :
  (m <= length u)%nat -> Aligned u m -> truncates u m pos x k k' ->
  agrees x (stepRune p u pos cap k) (stepRune p (take m u) pos cap k').
Proof.
  intros Hm Hal Hrel. destruct u as [|c u].
  { rewrite take_nil. apply agrees_refl. }
  pose proof (width_bounds c u) as Hw.
  destruct (Hrel (width (c :: u)) cap ltac:(lia)) as [H1 H2].
  rewrite stepRune_cons.
  destruct (decide (m = 0%nat)) as [->|Hm0].
  - cbn [take stepRune]. split; [|done].
    destruct (p _); [|done]. intros H. apply H1 in H. lia.
  - apply Aligned_pos_inv in Hal as (_ & Hwm & Hal); [|lia].
    destruct m as [|m]; [done|]. rewrite firstn_cons, stepRune_cons.
    rewrite <- firstn_cons. unfold firstRune at 2, width at 3 4.
    rewrite decode_take by done. fold (firstRune (c :: u)) (width (c :: u)).
    destruct (p _); [|apply agrees_refl].
    rewrite skipn_firstn_comm. by apply H2.
Qed.

Section Loop.
Variable body : @Thread R.
Variable body_groups : list nat.
Hypothesis body_sound :
  forall s pos cap k x,
    body s pos cap k = Some x -> reaches k s pos 0 cap body_groups x.
Hypothesis body_trunc :
  forall u m pos cap k k' x,
    (m <= length u)%nat -> Aligned u m -> truncates u m pos x k k' ->
    agrees x (body u pos cap k) (body (take m u) pos cap k').

Lemma loop_trunc f :
  forall f' u m pos cap k k' x,
    (length u < f)%nat -> (m < f')%nat ->
    (m <= length u)%nat -> Aligned u m -> truncates u m pos x k k' ->
    agrees x (loop body f u pos cap k) (loop body f' (take m u) pos cap k').
Proof.
  induction f as [|f IH]; intros f' u m pos cap k k' x Hf Hf' Hm Hal Hrel; [lia|].
  destruct f' as [|f']; [lia|]. cbn [loop].
  match goal with
  | |- agrees _ (match body _ _ _ ?K with _ => _ end)
                (match body _ _ _ ?K' with _ => _ end) =>
    assert (truncates u m pos x K K') as HK
  end.
  { intros j cap0 Hj. split.
    - destruct (pos <? pos + j)%nat; [|done]. intros H.
      apply (loop_sound body f body_groups body_sound) in H
        as (n2 & ext2 & Hn2 & _ & _ & H).
      rewrite length_drop in Hn2. rewrite drop_drop, <- Nat.add_assoc in H.
      destruct (Hrel (j + n2)%nat (ext2 ++ cap0) ltac:(lia)) as [H1 _].
      apply H1 in H. lia.
    - intros Hjm Halj. destruct (pos <? pos + j)%nat eqn:Hlt; [|apply agrees_refl].
      apply Nat.ltb_lt in Hlt.
      apply IH; [rewrite length_drop; lia | lia | rewrite length_drop; lia | done |].
      by apply truncates_shift. }
  destruct (body_trunc u m pos cap _ _ x Hm Hal HK) as [Hs Hn].
  destruct (body u pos cap _) as [y|] eqn:Hb.
  - split; [|done]. intros [= ->]. by rewrite (Hs eq_refl).
  - rewrite (Hn eq_refl). by apply truncates_here.
Qed.
End Loop.

Lemma run_trunc re :
  forall u m pos cap k k' x,
    (m <= length u)%nat -> Aligned u m -> truncates u m pos x k k' ->
    agrees x (run re u pos cap k) (run re (take m u) pos cap k').
Proof.
  induction re as [|c|neg ranges| |a IHa b IHb|a IHa b IHb|a IHa|a IHa|a IHa|i a IHa];
    intros u m pos cap k k' x Hm Hal Hrel; cbn [run].
  - by apply truncates_here.
  - by apply stepRune_trunc.
  - by apply stepRune_trunc.
  - by apply stepRune_trunc.
  - apply IHa; [done | done |]. intros j cap0 Hj. split.
    + intros H. apply run_sound in H as (n2 & ext2 & Hn2 & _ & _ & H).
      rewrite length_drop in Hn2. rewrite drop_drop, <- Nat.add_assoc in H.
      destruct (Hrel (j + n2)%nat (ext2 ++ cap0) ltac:(lia)) as [H1 _].
      apply H1 in H. lia.
    + intros Hjm Halj.
      apply IHb; [rewrite length_drop; lia | done | by apply truncates_shift].
  - destruct (IHa u m pos cap k k' x Hm Hal Hrel) as [Hs Hn].
    destruct (run a u pos cap k) as [y|] eqn:Ha.
    + split; [|done]. intros [= ->]. by rewrite (Hs eq_refl).
    + rewrite (Hn eq_refl). by apply IHb.
  - apply (loop_trunc _ (groups a)); try done.
    + intros s pos' cap' k0 x0 H. apply run_sound in H.
      eapply reaches_weaken; [| |exact H]; [lia | done].
    + lia.
    + rewrite length_take. lia.
  - apply IHa; [done | done |]. intros j cap0 Hj. split.
    + intros H.
      apply (loop_sound (run a) _ (groups a)) in H as (n2 & ext2 & Hn2 & _ & _ & H).
      2:{ intros s pos' cap' k0 x0 H'. apply run_sound in H'.
          eapply reaches_weaken; [| |exact H']; [lia | done]. }
      rewrite length_drop in Hn2. rewrite drop_drop, <- Nat.add_assoc in H.
      destruct (Hrel (j + n2)%nat (ext2 ++ cap0) ltac:(lia)) as [H1 _].
      apply H1 in H. lia.
    + intros Hjm Halj. apply (loop_trunc _ (groups a)); try done.
      * intros s pos' cap' k0 x0 H. apply run_sound in H.
        eapply reaches_weaken; [| |exact H]; [lia | done].
      * lia.
      * rewrite length_take, length_drop. lia.
      * rewrite length_drop. lia.
      * by apply truncates_shift.
  - destruct (IHa u m pos cap k k' x Hm Hal Hrel) as [Hs Hn].
    destruct (run a u pos cap k) as [y|] eqn:Ha.
    + split; [|done]. intros [= ->]. by rewrite (Hs eq_refl).
    + rewrite (Hn eq_refl). by apply truncates_here.
  - apply IHa; [done | done |]. intros j cap0 Hj.
    destruct (Hrel j ((i, (pos, (pos + j)%nat)) :: cap0) Hj) as [H1 H2]. done.
Qed.
End Truncation.

(** The expression matches the text of a match of its own, from the
    first byte to the last and with the same captures. *)
Lemma matchHere_take re s n cap :
  matchHere re s = Some (n, cap) -> matchHere re (take n s) = Some (n, cap).
Proof.
  intros H. pose proof (matchHere_bounds _ _ _ _ H) as [Hn Hal].
  unfold matchHere in *.
  refine (proj1 (run_trunc re s n 0%nat [] _ _ (n, cap) _ Hal _) H); [lia|].
  intros j cap0 Hj. split.
  - intros [= -> ->]. done.
  - intros _ _. apply agrees_refl.
Qed.

(** ** Replacing all matches, piece by piece *)

Section Pieces.
Variable re : Regex.
Variable numSubexp : nat.
Hypothesis re_consuming : consuming re = true.

Lemma matchHere_not_empty s cap : matchHere re s <> Some (0%nat, cap).
Proof.
  intros H. apply matchHere_bounds in H as [H _]. rewrite re_consuming in H. lia.
Qed.

Lemma replaceLoop_pieces {St : Type} (repl : list gostring -> St -> gostring * St) fuel :
  forall s a b st,
    replaceLoop re numSubexp repl fuel s a b st
    = replacePieces repl (scan fuel re numSubexp s) st.
Proof.
  induction fuel as [|fuel IH]; intros s a b st; cbn [replaceLoop scan replacePieces].
  { by rewrite app_nil_r. }
  destruct (matchHere re s) as [[[|n] cap]|] eqn:Hm.
  - by apply matchHere_not_empty in Hm.
  - cbn [replacePieces]. destruct (repl _ st) as [out st1]. by rewrite IH.
  - destruct s as [|c s]; [done|]. cbn [replacePieces]. by rewrite IH.
Qed.

Lemma replaceAll_pieces {St : Type} (repl : list gostring -> St -> gostring * St) s st :
  replaceAll re numSubexp repl s st = replacePieces repl (pieces re numSubexp s) st.
Proof. apply replaceLoop_pieces. Qed.

(** More fuel than bytes is enough fuel. *)
Lemma scan_fuel fuel :
  forall fuel' s,
    (length s < fuel)%nat -> (length s < fuel')%nat ->
    scan fuel re numSubexp s = scan fuel' re numSubexp s.
Proof.
  induction fuel as [|fuel IH]; intros fuel' s Hf Hf'; [lia|].
  destruct fuel' as [|fuel']; [lia|]. cbn [scan].
  destruct (matchHere re s) as [[[|n] cap]|] eqn:Hm.
  - by apply matchHere_not_empty in Hm.
  - apply matchHere_bounds in Hm as [Hn _]. f_equal.
    apply IH; rewrite length_drop; lia.
  - destruct s as [|c s]; [done|]. f_equal.
    pose proof (width_bounds c s). apply IH; rewrite length_drop; lia.
Qed.

Lemma pieces_nil : pieces re numSubexp [] = [].
Proof.
  unfold pieces. cbn [scan length].
  destruct (matchHere re []) as [[[|n] cap]|] eqn:Hm; [done| |done].
  apply matchHere_bounds in Hm as [Hn _]. cbn in Hn. lia.
Qed.

Lemma pieces_match s n cap :
  matchHere re s = Some (n, cap) ->
  pieces re numSubexp s
  = Matched (submatches numSubexp s n cap) :: pieces re numSubexp (drop n s).
Proof.
  intros Hm. unfold pieces.
  destruct n as [|n]; [by apply matchHere_not_empty in Hm|].
  pose proof (matchHere_bounds _ _ _ _ Hm) as [Hn _].
  rewrite (scan_fuel (S (length (drop (S n) s))) (length s))
    by (rewrite ?length_drop; lia).
  cbn [scan]. by rewrite Hm.
Qed.

Lemma pieces_no_match c s :
  matchHere re (c :: s) = None ->
  pieces re numSubexp (c :: s)
  = Unmatched (take (width (c :: s)) (c :: s))
              :: pieces re numSubexp (drop (width (c :: s)) (c :: s)).
Proof.
  intros Hm. unfold pieces. pose proof (width_bounds c s).
  rewrite (scan_fuel (S (length (drop (width (c :: s)) (c :: s)))) (length (c :: s)))
    by (rewrite ?length_drop; lia).
  remember (c :: s) as u eqn:Hu. cbn [scan]. rewrite Hm. by subst u.
Qed.

(** The pieces are the text, in order. *)
Lemma scan_concat fuel :
  forall s, concat (map pieceText (scan fuel re numSubexp s)) = s.
Proof.
  induction fuel as [|fuel IH]; intros s; cbn [scan].
  { cbn. by rewrite app_nil_r. }
  destruct (matchHere re s) as [[[|n] cap]|] eqn:Hm.
  - by apply matchHere_not_empty in Hm.
  - cbn [map concat pieceText submatches hd]. rewrite IH. apply take_drop.
  - destruct s as [|c s]; [done|].
    cbn [map concat pieceText]. rewrite IH. apply take_drop.
Qed.

Lemma pieces_concat s : concat (map pieceText (pieces re numSubexp s)) = s.
Proof. apply scan_concat. Qed.

(** Every match among the pieces is a text the expression matches
    from its first byte to its last. *)
Lemma scan_matched fuel :
  forall s, Forall (fun m => exists cap, matchHere re m = Some (length m, cap))
                   (matchedTexts (scan fuel re numSubexp s)).
Proof.
  induction fuel as [|fuel IH]; intros s; cbn [scan].
  { constructor. }
  destruct (matchHere re s) as [[[|n] cap]|] eqn:Hm.
  - by apply matchHere_not_empty in Hm.
  - cbn. constructor; [|apply IH].
    exists cap. pose proof (matchHere_bounds _ _ _ _ Hm) as [Hn _].
    apply matchHere_take in Hm. rewrite length_take.
    replace (S n `min` length s)%nat with (S n) by lia. exact Hm.
  - destruct s as [|c s]; [constructor|]. cbn. apply IH.
Qed.
End Pieces.

(** ** The closure that records a flag *)

Lemma flagValueLoop_named (name : gostring) (elems : list gostring) (flags : gmap gostring gostring) :
  flagValueLoop name elems (<[name := name]> flags)
  = <[name := default name (firstNonEmpty elems)]> flags.
Proof.
  revert flags. induction elems as [|e elems IH]; intros flags; cbn; [done|].
  destruct e as [|c e]; cbn.
  - by rewrite insert_insert_eq, IH.
  - by rewrite insert_insert_eq.
Qed.

Lemma flagValueLoop_insert (name e : gostring) (elems : list gostring) (flags : gmap gostring gostring) :
  flagValueLoop name (e :: elems) flags
  = <[name := default name (firstNonEmpty (e :: elems))]> flags.
Proof.
  cbn. destruct e as [|c e]; cbn; [|done]. apply flagValueLoop_named.
Qed.

(** On a text the flag expression matches from end to end, the closure
    does not panic: it puts the flag of the token into the map. *)
Lemma flagClosure_token m cap flags :
  matchHere flagsRegex m = Some (length m, cap) ->
  flagClosure m (Ok flags) = ([], Ok (putFlag flags m)).
Proof.
  intros Hm. unfold flagClosure, putFlag, flagOf, FindStringSubmatch.
  destruct m as [|c m].
  { apply flagsRegex_bounds in Hm. cbn in Hm. lia. }
  cbn [search length]. rewrite Hm.
  unfold submatches, flagsRegexGroups. cbn [seq map].
  by rewrite flagValueLoop_insert.
Qed.

Lemma replacePieces_flags ps flags :
  Forall (fun m => exists cap, matchHere flagsRegex m = Some (length m, cap))
         (matchedTexts ps) ->
  replacePieces (fun subs st => flagClosure (hd [] subs) st) ps (Ok flags)
  = (unmatchedText ps, Ok (foldl putFlag flags (matchedTexts ps))).
Proof.
  revert flags. induction ps as [|[text|subs] ps IH]; intros flags Hall.
  - done.
  - cbn [replacePieces]. rewrite IH by done. done.
  - cbn in Hall. apply Forall_cons in Hall as [[cap Hm] Hall].
    cbn [replacePieces]. rewrite (flagClosure_token _ cap) by done.
    rewrite IH by done. done.
Qed.

(** Flag removal never panics: it cuts the flag tokens out of the text
    of the message and puts them into the map from left to right. *)
Lemma stripFlags_tokens content :
  stripFlags content
  = (withoutFlags content, Ok (foldl putFlag ∅ (flagTokens content))).
Proof.
  unfold stripFlags, ReplaceAllStringFunc, withoutFlags, flagTokens.
  rewrite replaceAll_pieces by done.
  apply replacePieces_flags. by apply scan_matched.
Qed.

Lemma foldl_putFlag_other flags tokens name :
  Forall (fun t => (flagOf t).1 <> name) tokens ->
  foldl putFlag flags tokens !! name = flags !! name.
Proof.
  revert flags. induction tokens as [|t tokens IH]; intros flags Hall; [done|].
  apply Forall_cons in Hall as [Ht Hall]. cbn [foldl]. rewrite IH by done.
  unfold putFlag. by rewrite lookup_insert_ne.
Qed.

(** The rightmost token with a given name decides the value. *)
Lemma foldl_putFlag_last flags before token after :
  Forall (fun t => (flagOf t).1 <> (flagOf token).1) after ->
  foldl putFlag flags (before ++ token :: after) !! (flagOf token).1
  = Some (flagOf token).2.
Proof.
  intros Hafter. rewrite foldl_app. cbn [foldl].
  rewrite foldl_putFlag_other by done.
  unfold putFlag at 1. by rewrite lookup_insert_eq.
Qed.

Lemma foldl_putFlag_snoc flags tokens token :
  foldl putFlag flags (tokens ++ [token]) = putFlag (foldl putFlag flags tokens) token.
Proof. by rewrite foldl_app. Qed.

(** ** Runes that start with a byte outside ASCII *)

Lemma lor_ge_pow2_l a b n : 2 ^ n <= a -> 2 ^ n <= N.lor a b.
Proof.
  intros H. assert (0 < a) by (pose proof (N.pow_nonzero 2 n); lia).
  assert (0 < N.lor a b).
  { destruct (N.eq_dec (N.lor a b) 0) as [E|E]; [|lia].
    apply N.lor_eq_0_l in E. lia. }
  apply N.log2_le_pow2; [done|]. rewrite N.log2_lor.
  apply N.log2_le_pow2 in H; [lia | done].
Qed.

Lemma lor_ge_pow2_r a b n : 2 ^ n <= b -> 2 ^ n <= N.lor a b.
Proof. rewrite N.lor_comm. apply lor_ge_pow2_l. Qed.

Lemma land_low b n : N.land b (N.ones n) = b mod 2 ^ n.
Proof. apply N.land_ones. Qed.

(** The cases of the table [first]. *)
Lemma first_cases b :
  b < 256 ->
  (b < 0x80 /\ Utf8.first b = Utf8.as_)
  \/ (Utf8.first b = Utf8.xx)
  \/ (0xC2 <= b <= 0xDF /\ Utf8.first b = Utf8.s1)
  \/ (b = 0xE0 /\ Utf8.first b = Utf8.s2)
  \/ (0xE1 <= b <= 0xEF /\ (Utf8.first b = Utf8.s3 \/ Utf8.first b = Utf8.s4))
  \/ (b = 0xF0 /\ Utf8.first b = Utf8.s5)
  \/ (0xF1 <= b <= 0xF4 /\ (Utf8.first b = Utf8.s6 \/ Utf8.first b = Utf8.s7)).
Proof.
  intros Hb. unfold Utf8.first.
  repeat match goal with
         | |- context [if ?c <? ?d then _ else _] => destruct (N.ltb_spec c d)
         | |- context [if ?c =? ?d then _ else _] => destruct (N.eqb_spec c d)
         end; intuition lia.
Qed.

Lemma decode_nonascii c s :
  0x80 <= byteval c ->
  0x80 <= firstRune (c :: s)
  /\ Forall (fun b => 0x80 <= byteval b) (take (width (c :: s)) (c :: s)).
Proof.
  intros Hc. unfold firstRune, width, Utf8.DecodeRuneInString.
  assert (Hone : 128 <= Utf8.RuneError /\ Forall (fun b => 0x80 <= byteval b) (take 1 (c :: s))).
  { split; [by vm_compute|]. cbn [take]. rewrite take_0. by repeat constructor. }
  change Utf8.maskx with (N.ones 6). change Utf8.mask2 with (N.ones 5).
  change Utf8.mask3 with (N.ones 4). change Utf8.mask4 with (N.ones 3).
  unfold Utf8.locb, Utf8.hicb in *.
  destruct (first_cases (byteval c) (byteval_lt_256 c))
    as [[H _]|[->|[[H ->]|[[H ->]|[[H [-> | ->]]|[[H ->]|[H [-> | ->]]]]]]]]; [lia|..].
  - done.
  - first_consts Utf8.s1 2%nat (128, 191).
    destruct s as [|c1 s]; cbn [length fst snd]; split_ifs; try done.
    cbn [Nat.leb fst snd take]. rewrite take_0. split.
    + apply (lor_ge_pow2_l _ _ 7). rewrite N.shiftl_mul_pow2, land_low.
      change (2 ^ 5) with 32. change (2 ^ 6) with 64. change (2 ^ 7) with 128.
      mod_facts (byteval c) 32. lia.
    + repeat constructor; lia.
  - first_consts Utf8.s2 3%nat (160, 191).
    destruct s as [|c1 [|c2 s]]; cbn [length fst snd]; split_ifs; try done.
    cbn [Nat.leb fst snd take]. rewrite take_0. split.
    + apply (lor_ge_pow2_r _ _ 7), (lor_ge_pow2_l _ _ 7).
      rewrite N.shiftl_mul_pow2, land_low.
      change (2 ^ 6) with 64. change (2 ^ 7) with 128.
      mod_facts (byteval c1) 64. lia.
    + repeat constructor; lia.
  - first_consts Utf8.s3 3%nat (128, 191).
    destruct s as [|c1 [|c2 s]]; cbn [length fst snd]; split_ifs; try done.
    cbn [Nat.leb fst snd take]. rewrite take_0. split.
    + apply (lor_ge_pow2_l _ _ 7). rewrite N.shiftl_mul_pow2, land_low.
      change (2 ^ 4) with 16. change (2 ^ 12) with 4096. change (2 ^ 7) with 128.
      mod_facts (byteval c) 16. lia.
    + repeat constructor; lia.
  - first_consts Utf8.s4 3%nat (128, 159).
    destruct s as [|c1 [|c2 s]]; cbn [length fst snd]; split_ifs; try done.
    cbn [Nat.leb fst snd take]. rewrite take_0. split.
    + apply (lor_ge_pow2_l _ _ 7). rewrite N.shiftl_mul_pow2, land_low.
      change (2 ^ 4) with 16. change (2 ^ 12) with 4096. change (2 ^ 7) with 128.
      mod_facts (byteval c) 16. lia.
    + repeat constructor; lia.
  - first_consts Utf8.s5 4%nat (144, 191).
    destruct s as [|c1 [|c2 [|c3 s]]]; cbn [length fst snd]; split_ifs; try done.
    cbn [Nat.leb fst snd take]. rewrite take_0. split.
    + apply (lor_ge_pow2_r _ _ 7), (lor_ge_pow2_l _ _ 7).
      rewrite N.shiftl_mul_pow2, land_low.
      change (2 ^ 6) with 64. change (2 ^ 12) with 4096. change (2 ^ 7) with 128.
      mod_facts (byteval c1) 64. lia.
    + repeat constructor; lia.
  - first_consts Utf8.s6 4%nat (128, 191).
    destruct s as [|c1 [|c2 [|c3 s]]]; cbn [length fst snd]; split_ifs; try done.
    cbn [Nat.leb fst snd take]. rewrite take_0. split.
    + apply (lor_ge_pow2_l _ _ 7). rewrite N.shiftl_mul_pow2, land_low.
      change (2 ^ 3) with 8. change (2 ^ 18) with 262144. change (2 ^ 7) with 128.
      mod_facts (byteval c) 8. lia.
    + repeat constructor; lia.
  - first_consts Utf8.s7 4%nat (128, 143).
    destruct s as [|c1 [|c2 [|c3 s]]]; cbn [length fst snd]; split_ifs; try done.
    cbn [Nat.leb fst snd take]. rewrite take_0. split.
    + apply (lor_ge_pow2_l _ _ 7). rewrite N.shiftl_mul_pow2, land_low.
      change (2 ^ 3) with 8. change (2 ^ 18) with 262144. change (2 ^ 7) with 128.
      mod_facts (byteval c) 8. lia.
    + repeat constructor; lia.
Qed.

Lemma lor_lt_pow2 a b n : a < 2 ^ n -> b < 2 ^ n -> N.lor a b < 2 ^ n.
Proof.
  intros Ha Hb. destruct (N.eq_dec (N.lor a b) 0) as [E|E].
  { rewrite E. pose proof (N.pow_nonzero 2 n). lia. }
  apply N.log2_lt_pow2; [lia|]. rewrite N.log2_lor.
  destruct (N.eq_dec a 0) as [->|Ha0]; destruct (N.eq_dec b 0) as [->|Hb0].
  - done.
  - rewrite N.lor_0_l in E. cbn [N.log2]. apply N.log2_lt_pow2 in Hb; lia.
  - apply N.log2_lt_pow2 in Ha; [|lia]. cbn [N.log2]. lia.
  - apply N.log2_lt_pow2 in Ha; [|lia]. apply N.log2_lt_pow2 in Hb; lia.
Qed.

Lemma shiftr_lor_high x w n : w < 2 ^ n -> N.shiftr (N.lor (N.shiftl x n) w) n = x.
Proof.
  intros Hw. rewrite N.shiftr_lor, N.shiftr_shiftl_l, N.sub_diag, N.shiftl_0_r by lia.
  rewrite (N.shiftr_div_pow2 w), N.div_small by done. apply N.lor_0_r.
Qed.

(** A rune that starts with a byte other than the hyphen and [0xE2] is
    neither the hyphen nor the em dash. *)
Lemma firstRune_no_dash c s :
  byteval c <> 45 -> byteval c <> 0xE2 ->
  firstRune (c :: s) <> 45 /\ firstRune (c :: s) <> 8212.
Proof.
  intros Hh He.
  destruct (N.lt_ge_cases (byteval c) 0x80) as [Hlt|Hge].
  { unfold firstRune. rewrite decode_ascii by done. cbn [fst]. lia. }
  split; [destruct (decode_nonascii c s Hge); lia|].
  unfold firstRune, Utf8.DecodeRuneInString.
  assert (Herr : Utf8.RuneError <> 8212) by by vm_compute.
  change Utf8.maskx with (N.ones 6). change Utf8.mask2 with (N.ones 5).
  change Utf8.mask3 with (N.ones 4). change Utf8.mask4 with (N.ones 3).
  unfold Utf8.locb, Utf8.hicb in *.
  assert (forall b, b mod 64 < 64) as H64 by (intros; by apply N.mod_lt).
  assert (forall x y, x < 64 -> y < 64 -> N.lor (N.shiftl x 6) y < 2 ^ 12) as Hlow.
  { intros x y Hx Hy. apply lor_lt_pow2.
    - rewrite N.shiftl_mul_pow2. change (2 ^ 6) with 64. change (2 ^ 12) with 4096. lia.
    - change (2 ^ 12) with 4096. lia. }
  destruct (first_cases (byteval c) (byteval_lt_256 c))
    as [[H _]|[->|[[H ->]|[[H ->]|[[H [-> | ->]]|[[H ->]|[H [-> | ->]]]]]]]]; [lia|..].
  - done.
  - first_consts Utf8.s1 2%nat (128, 191).
    destruct s as [|c1 s]; cbn [length fst snd]; split_ifs; try done.
    cbn [Nat.leb fst snd]. rewrite !land_low. change (2 ^ 5) with 32. change (2 ^ 6) with 64.
    assert (N.lor (N.shiftl (byteval c mod 32) 6) (byteval c1 mod 64) < 2 ^ 12); [|change (2^12) with 4096 in *; lia].
    apply Hlow; [|done]. pose proof (N.mod_lt (byteval c) 32). lia.
  - first_consts Utf8.s2 3%nat (160, 191).
    destruct s as [|c1 [|c2 s]]; cbn [length fst snd]; split_ifs; try done.
    cbn [Nat.leb fst snd]. rewrite !land_low. change (2 ^ 4) with 16. change (2 ^ 6) with 64.
    intros E. apply (f_equal (fun r => N.shiftr r 12)) in E.
    rewrite shiftr_lor_high in E by (apply Hlow; done).
    change (N.shiftr 8212 12) with 2 in E. mod_facts (byteval c) 16. lia.
  - first_consts Utf8.s3 3%nat (128, 191).
    destruct s as [|c1 [|c2 s]]; cbn [length fst snd]; split_ifs; try done.
    cbn [Nat.leb fst snd]. rewrite !land_low. change (2 ^ 4) with 16. change (2 ^ 6) with 64.
    intros E. apply (f_equal (fun r => N.shiftr r 12)) in E.
    rewrite shiftr_lor_high in E by (apply Hlow; done).
    change (N.shiftr 8212 12) with 2 in E. mod_facts (byteval c) 16. lia.
  - first_consts Utf8.s4 3%nat (128, 159).
    destruct s as [|c1 [|c2 s]]; cbn [length fst snd]; split_ifs; try done.
    cbn [Nat.leb fst snd]. rewrite !land_low. change (2 ^ 4) with 16. change (2 ^ 6) with 64.
    intros E. apply (f_equal (fun r => N.shiftr r 12)) in E.
    rewrite shiftr_lor_high in E by (apply Hlow; done).
    change (N.shiftr 8212 12) with 2 in E. mod_facts (byteval c) 16. lia.
  - first_consts Utf8.s5 4%nat (144, 191).
    destruct s as [|c1 [|c2 [|c3 s]]]; cbn [length fst snd]; split_ifs; try done.
    cbn [Nat.leb fst snd].
    assert (2 ^ 16 <= N.lor (N.shiftl (N.land (byteval c) (N.ones 3)) 18)
                  (N.lor (N.shiftl (N.land (byteval c1) (N.ones 6)) 12)
                         (N.lor (N.shiftl (N.land (byteval c2) (N.ones 6)) 6)
                                (N.land (byteval c3) (N.ones 6))))); [|change (2^16) with 65536 in *; lia].
    apply lor_ge_pow2_r, lor_ge_pow2_l. rewrite N.shiftl_mul_pow2, land_low.
    change (2 ^ 6) with 64. change (2 ^ 12) with 4096. change (2 ^ 16) with 65536.
    mod_facts (byteval c1) 64. lia.
  - first_consts Utf8.s6 4%nat (128, 191).
    destruct s as [|c1 [|c2 [|c3 s]]]; cbn [length fst snd]; split_ifs; try done.
    cbn [Nat.leb fst snd].
    assert (2 ^ 16 <= N.lor (N.shiftl (N.land (byteval c) (N.ones 3)) 18)
                  (N.lor (N.shiftl (N.land (byteval c1) (N.ones 6)) 12)
                         (N.lor (N.shiftl (N.land (byteval c2) (N.ones 6)) 6)
                                (N.land (byteval c3) (N.ones 6))))); [|change (2^16) with 65536 in *; lia].
    apply lor_ge_pow2_l. rewrite N.shiftl_mul_pow2, land_low.
    change (2 ^ 3) with 8. change (2 ^ 18) with 262144. change (2 ^ 16) with 65536.
    mod_facts (byteval c) 8. lia.
  - first_consts Utf8.s7 4%nat (128, 143).
    destruct s as [|c1 [|c2 [|c3 s]]]; cbn [length fst snd]; split_ifs; try done.
    cbn [Nat.leb fst snd].
    assert (2 ^ 16 <= N.lor (N.shiftl (N.land (byteval c) (N.ones 3)) 18)
                  (N.lor (N.shiftl (N.land (byteval c1) (N.ones 6)) 12)
                         (N.lor (N.shiftl (N.land (byteval c2) (N.ones 6)) 6)
                                (N.land (byteval c3) (N.ones 6))))); [|change (2^16) with 65536 in *; lia].
    apply lor_ge_pow2_l. rewrite N.shiftl_mul_pow2, land_low.
    change (2 ^ 3) with 8. change (2 ^ 18) with 262144. change (2 ^ 16) with 65536.
    mod_facts (byteval c) 8. lia.
Qed.

(** ** Matching flags among plain text *)

Lemma stepRune_ascii {R} p c s pos cap (k : @Cont R) :
  byteval c < 0x80 ->
  stepRune p (c :: s) pos cap k = if p (byteval c) then k s (pos + 1)%nat cap else None.
Proof.
  intros H. unfold stepRune. by rewrite decode_ascii.
Qed.

(** A test that only ASCII runes pass looks at the first byte. *)
Lemma stepRune_class {R} (p : rune -> bool) c s pos cap (k : @Cont R) :
  (forall r, p r = true -> r < 0x80) ->
  stepRune p (c :: s) pos cap k = if p (byteval c) then k s (pos + 1)%nat cap else None.
Proof.
  intros Hp. destruct (N.lt_ge_cases (byteval c) 0x80) as [Hlt|Hge].
  { by apply stepRune_ascii. }
  rewrite stepRune_cons. destruct (decode_nonascii c s Hge) as [Hr _].
  destruct (p (firstRune (c :: s))) eqn:E1; [apply Hp in E1; lia|].
  destruct (p (byteval c)) eqn:E2; [apply Hp in E2; lia | done].
Qed.

Lemma eqb_ascii a : a < 0x80 -> forall r, (a =? r) = true -> r < 0x80.
Proof. intros Ha r E. apply N.eqb_eq in E. lia. Qed.

Lemma inRanges_name_ascii b : inRanges b (one "-" :: wordRanges) = true -> b < 0x80.
Proof.
  unfold inRanges. cbn [existsb wordRanges one fst snd].
  change (lit "-") with 45. change (lit "0") with 48. change (lit "9") with 57.
  change (lit "A") with 65. change (lit "Z") with 90. change (lit "_") with 95.
  change (lit "a") with 97. change (lit "z") with 122.
  rewrite !orb_true_iff, !andb_true_iff, !N.leb_le. lia.
Qed.

Lemma inRanges_word_ascii b : inRanges b wordRanges = true -> b < 0x80.
Proof.
  intros H. apply inRanges_name_ascii. unfold inRanges in *. cbn [existsb].
  rewrite H. apply orb_true_r.
Qed.

Lemma nameByte_ascii c : nameByte c = true -> byteval c < 0x80.
Proof. apply inRanges_name_ascii. Qed.

Lemma wordByte_nameByte c : wordByte c = true -> nameByte c = true.
Proof. unfold wordByte, nameByte, inRanges. cbn [existsb]. intros ->. apply orb_true_r. Qed.

Lemma wordByte_plain c : wordByte c = true -> plainByte c = true.
Proof.
  intros H. unfold plainByte. pose proof (nameByte_ascii c (wordByte_nameByte c H)) as Hlt.
  apply andb_true_iff. split; apply negb_true_iff, N.eqb_neq; [|lia].
  intros E. unfold wordByte in H. rewrite E in H. vm_compute in H. done.
Qed.

Lemma plainByte_inv c : plainByte c = true -> byteval c <> 45 /\ byteval c <> 0xE2.
Proof.
  unfold plainByte. intros [H1 H2]%andb_true_iff.
  apply negb_true_iff, N.eqb_neq in H1. apply negb_true_iff, N.eqb_neq in H2. done.
Qed.

(** No flag starts at a plain byte. *)
Lemma flagsRegex_plain c s : plainByte c = true -> matchHere flagsRegex (c :: s) = None.
Proof.
  intros [Hh He]%plainByte_inv.
  destruct (firstRune_no_dash c s Hh He) as [_ Hd].
  unfold matchHere, flagsRegex, flagIntroducer. cbn [run].
  rewrite (stepRune_class (N.eqb (lit "-"))) by (by apply (eqb_ascii (lit "-"))).
  change (lit "-") with 45. rewrite N.eqb_sym.
  destruct (N.eqb_spec (byteval c) 45) as [|_]; [done|].
  rewrite stepRune_cons. change (lit "—") with 8212.
  destruct (N.eqb_spec 8212 (firstRune (c :: s))) as [E|_]; [by rewrite <- E in Hd | done].
Qed.

Lemma unmatchedText_unmatched text ps :
  unmatchedText (Unmatched text :: ps) = text ++ unmatchedText ps.
Proof. done. Qed.

Lemma matchedTexts_unmatched text ps :
  matchedTexts (Unmatched text :: ps) = matchedTexts ps.
Proof. done. Qed.

Lemma unmatchedText_matched subs ps :
  unmatchedText (Matched subs :: ps) = unmatchedText ps.
Proof. done. Qed.

Lemma matchedTexts_matched subs ps :
  matchedTexts (Matched subs :: ps) = hd [] subs :: matchedTexts ps.
Proof. done. Qed.

(** The first rune of a plain text that is followed by an ASCII byte, or
    by nothing, lies within the plain text. *)
Lemma width_within c pre s :
  asciiNext s = true -> (width (c :: pre ++ s) <= length (c :: pre))%nat.
Proof.
  intros Hs. destruct (N.lt_ge_cases (byteval c) 0x80) as [Hlt|Hge].
  { rewrite width_ascii by done. cbn [length]. lia. }
  destruct (decode_nonascii c (pre ++ s) Hge) as [_ Hall].
  destruct (le_lt_dec (width (c :: pre ++ s)) (length (c :: pre))) as [|Hgt]; [done|].
  destruct s as [|d s].
  { pose proof (width_bounds c (pre ++ [])) as Hw. rewrite app_nil_r in *. lia. }
  cbn [asciiNext] in Hs. apply N.ltb_lt in Hs.
  rewrite Forall_forall in Hall. specialize (Hall d).
  assert (d ∈ take (width (c :: pre ++ d :: s)) (c :: pre ++ d :: s)) as Hin.
  { apply list_elem_of_lookup. exists (length (c :: pre)).
    rewrite lookup_take_lt by lia.
    change (c :: pre ++ d :: s) with ((c :: pre) ++ d :: s).
    by rewrite list_lookup_middle. }
  apply Hall in Hin. lia.
Qed.

Lemma plain_drop n s : plain s = true -> plain (drop n s) = true.
Proof.
  revert n. induction s as [|c s IH]; intros n H; [by destruct n|].
  destruct n as [|n]; [done|]. cbn [drop]. apply IH.
  cbn [plain forallb] in H. by apply andb_true_iff in H as [_ H].
Qed.

(** Flag removal passes over a plain text: nothing is cut out of it and
    what follows is treated as if it stood alone. *)
Lemma flags_skip_plain n :
  forall pre s,
    (length pre <= n)%nat -> plain pre = true -> asciiNext s = true ->
    withoutFlags (pre ++ s) = pre ++ withoutFlags s
    /\ flagTokens (pre ++ s) = flagTokens s.
Proof.
  induction n as [|n IH]; intros pre s Hlen Hpre Hs.
  { destruct pre; [done | cbn in Hlen; lia]. }
  destruct pre as [|c pre]; [done|].
  cbn [plain forallb] in Hpre. apply andb_true_iff in Hpre as [Hc Hpre].
  pose proof (width_within c pre s Hs) as Hw.
  pose proof (width_pos c (pre ++ s)) as Hw0.
  unfold withoutFlags, flagTokens in *. cbn [app].
  rewrite (pieces_no_match flagsRegex _ eq_refl) by by apply flagsRegex_plain.
  rewrite unmatchedText_unmatched, matchedTexts_unmatched.
  change (c :: pre ++ s) with ((c :: pre) ++ s) in *.
  rewrite take_app_le, drop_app_le by done.
  destruct (IH (drop (width ((c :: pre) ++ s)) (c :: pre)) s) as [-> ->].
  - rewrite length_drop. cbn [length] in *. lia.
  - apply plain_drop. cbn [plain forallb]. by rewrite Hc.
  - done.
  - split; [|done]. by rewrite app_assoc, take_drop.
Qed.

Lemma flags_plain s :
  plain s = true -> withoutFlags s = s /\ flagTokens s = [].
Proof.
  intros Hs. destruct (flags_skip_plain (length s) s [] (le_n _) Hs eq_refl) as [H1 H2].
  rewrite app_nil_r in *. unfold withoutFlags, flagTokens in *.
  rewrite pieces_nil in * by done. cbn in H1, H2. by rewrite app_nil_r in H1.
Qed.

(** A flag token that starts with an ASCII byte, between two plain
    texts. *)
Lemma pieces_one_token pre token post n cap :
  plain pre = true -> plain post = true ->
  asciiNext token = true -> length token = n ->
  matchHere flagsRegex (token ++ post) = Some (n, cap) ->
  withoutFlags (pre ++ token ++ post) = pre ++ post /\
  flagTokens (pre ++ token ++ post) = [token].
Proof.
  intros Hpre Hpost Hascii Hn Hm.
  assert (asciiNext (token ++ post) = true) as Hnext.
  { destruct token as [|c t]; [|done].
    apply flagsRegex_bounds in Hm. cbn in Hn. lia. }
  destruct (flags_skip_plain (length pre) pre (token ++ post) (le_n _) Hpre Hnext)
    as [-> ->].
  destruct (flags_plain post Hpost) as [H1 H2].
  unfold withoutFlags, flagTokens in *.
  rewrite (pieces_match flagsRegex _ eq_refl _ _ _ Hm).
  rewrite unmatchedText_matched, matchedTexts_matched.
  rewrite <- Hn, drop_app_length, H1, H2.
  unfold submatches. cbn [hd]. by rewrite take_app_length.
Qed.

(** A greedy loop over one rune, with a test that only ASCII runes pass,
    takes a run of bytes that pass the test to its end, if the match
    goes through from there. *)
Lemma loop_step {R} (p : rune -> bool) run_ post fuel pos cap (k : @Cont R) x :
  (forall r, p r = true -> r < 0x80) ->
  forallb (fun c => p (byteval c)) run_ = true ->
  match post with
  | [] => True
  | c :: _ => p (byteval c) = false
  end ->
  (length run_ < fuel)%nat ->
  k post (pos + length run_)%nat cap = Some x ->
  loop (stepRune p) fuel (run_ ++ post) pos cap k = Some x.
Proof.
  intros Hp Hrun Hpost. revert fuel pos.
  induction run_ as [|c l IH]; intros fuel pos Hfuel Hk;
    (destruct fuel as [|fuel]; [cbn in Hfuel; lia|]); cbn [loop app].
  - rewrite Nat.add_0_r in Hk. destruct post as [|c post]; [by rewrite Hk|].
    rewrite stepRune_class by done. by rewrite Hpost, Hk.
  - cbn [forallb] in Hrun. apply andb_true_iff in Hrun as [Hc Hrun].
    rewrite stepRune_class by done. rewrite Hc.
    replace (pos <? pos + 1)%nat with true by (symmetry; apply Nat.ltb_lt; lia).
    rewrite (IH Hrun fuel (pos + 1)%nat); [done | cbn in Hfuel; lia |].
    cbn [length] in Hk. by replace (pos + 1 + length l)%nat with (pos + S (length l))%nat by lia.
Qed.

(** After the introducer, a flag without a value: the expression takes
    the name as group 1 and stops. *)
Lemma flagBody_bare name post p :
  isFlagName name = true -> endsBareFlag post = true ->
  run flagBody (name ++ post) p [] (fun _ pos cap => Some (pos, cap))
  = Some ((p + length name)%nat, [(1%nat, (p, (p + length name)%nat))]).
Proof.
  intros Hname Hend.
  destruct name as [|c0 [|c1 rest]];
    cbn [isFlagName isEmpty negb] in Hname;
    rewrite ?andb_false_r, ?andb_true_r in Hname; try done.
  apply andb_true_iff in Hname as [Hc0 Hrest].
  cbn [forallb] in Hrest. apply andb_true_iff in Hrest as [Hc1 Hrest].
  unfold flagBody, word, wordOrHyphen. cbn [run app].
  rewrite stepRune_class by apply inRanges_word_ascii.
  cbn [xorb]. fold (wordByte c0). rewrite Hc0.
  rewrite stepRune_class by apply inRanges_name_ascii.
  fold (nameByte c1). rewrite Hc1.
  rewrite (loop_step _ rest post _ _ _ _
             (p + length (c0 :: c1 :: rest), [(1, (p, p + length (c0 :: c1 :: rest)))])%nat);
    [done | apply inRanges_name_ascii | done | | rewrite length_app; lia |].
  - destruct post as [|c post]; [done|]. cbn [endsBareFlag] in Hend.
    apply andb_true_iff in Hend as [Hn _]. by apply negb_true_iff.
  - cbn [length]. replace (p + 1 + 1 + length rest)%nat with (p + S (S (length rest)))%nat by lia.
    destruct post as [|c post]; [done|].
    cbn [endsBareFlag] in Hend. apply andb_true_iff in Hend as [_ Hn].
    rewrite (stepRune_class (N.eqb (lit "="))) by (by apply (eqb_ascii (lit "="))).
    change (lit "=") with 61. rewrite N.eqb_sym. apply negb_true_iff in Hn. by rewrite Hn.
Qed.

(** A flag without a value: the expression matches [--name] and stops. *)
Lemma flagsRegex_bare name post :
  isFlagName name = true -> endsBareFlag post = true ->
  matchHere flagsRegex (str "--" ++ name ++ post)
  = Some ((2 + length name)%nat, [(1%nat, (2%nat, (2 + length name)%nat))]).
Proof.
  intros Hname Hend.
  unfold matchHere, flagsRegex, flagIntroducer.
  cbn [run str list_ascii_of_string app].
  rewrite stepRune_ascii by reflexivity.
  change (lit "-" =? byteval "-") with true. cbv iota.
  rewrite stepRune_ascii by reflexivity.
  change (lit "-" =? byteval "-") with true. cbv iota.
  cbn [Nat.add]. by rewrite (flagBody_bare name post 2 Hname Hend).
Qed.

(** The same with the em dash for an introducer. *)
Lemma flagsRegex_bare_emdash name post :
  isFlagName name = true -> endsBareFlag post = true ->
  matchHere flagsRegex (str "—" ++ name ++ post)
  = Some ((3 + length name)%nat, [(1%nat, (3%nat, (3 + length name)%nat))]).
Proof.
  intros Hname Hend.
  unfold matchHere, flagsRegex, flagIntroducer.
  cbn [run str list_ascii_of_string app].
  rewrite !stepRune_cons.
  assert (forall t, Utf8.DecodeRuneInString (str "—" ++ t) = (8212, 3%nat)) as Hdec.
  { intros t. unfold Utf8.DecodeRuneInString. by cbn. }
  unfold firstRune, width. cbn [str list_ascii_of_string app] in Hdec.
  rewrite !Hdec. cbn [fst snd drop].
  change (lit "-" =? 8212) with false. change (lit "—" =? 8212) with true. cbv iota.
  cbn [Nat.add]. rewrite drop_0. by rewrite (flagBody_bare name post 3 Hname Hend).
Qed.

Lemma substr_app_middle (a b c : gostring) :
  substr (a ++ b ++ c) (length a) (length a + length b) = b.
Proof.
  unfold substr. rewrite drop_app_length.
  replace (length a + length b - length a)%nat with (length b) by lia.
  apply take_app_length.
Qed.

(** The token [--name] stands for the flag that maps the name to
    itself. *)
Lemma flagOf_bare name :
  isFlagName name = true -> flagOf (str "--" ++ name) = (name, name).
Proof.
  intros Hname. unfold flagOf, FindStringSubmatch.
  pose proof (flagsRegex_bare name [] Hname eq_refl) as Hm.
  rewrite app_nil_r in Hm.
  cbn [str list_ascii_of_string app length search] in Hm |- *. rewrite Hm.
  unfold submatches, flagsRegexGroups. cbn [seq map].
  unfold group. cbn [capLookup Nat.eqb].
  pose proof (substr_app_middle (str "--") name []) as Hs.
  rewrite app_nil_r in Hs. cbn [str list_ascii_of_string app length] in Hs.
  cbn [Nat.add]. cbn [Nat.add] in Hs. rewrite Hs. done.
Qed.

Lemma flagOf_bare_emdash name :
  isFlagName name = true -> flagOf (str "—" ++ name) = (name, name).
Proof.
  intros Hname. unfold flagOf, FindStringSubmatch.
  pose proof (flagsRegex_bare_emdash name [] Hname eq_refl) as Hm.
  rewrite app_nil_r in Hm.
  cbn [str list_ascii_of_string app length search] in Hm |- *. rewrite Hm.
  unfold submatches, flagsRegexGroups. cbn [seq map].
  unfold group. cbn [capLookup Nat.eqb].
  pose proof (substr_app_middle (str "—") name []) as Hs.
  rewrite app_nil_r in Hs. cbn [str list_ascii_of_string app length] in Hs.
  cbn [Nat.add]. cbn [Nat.add] in Hs. rewrite Hs. done.
Qed.

Lemma stripFlags_bare pre name post :
  plain pre = true -> isFlagName name = true ->
  plain post = true -> endsBareFlag post = true ->
  stripFlags (pre ++ (str "--" ++ name) ++ post) = (pre ++ post, Ok {[name := name]}).
Proof.
  intros Hpre Hname Hpost Hend. rewrite stripFlags_tokens.
  pose proof (flagsRegex_bare name post Hname Hend) as Hm.
  rewrite app_assoc in Hm.
  destruct (pieces_one_token pre (str "--" ++ name) post _ _ Hpre Hpost eq_refl eq_refl Hm)
    as [-> ->].
  cbn [foldl]. unfold putFlag. by rewrite flagOf_bare.
Qed.

Lemma flagsRegex_short c post :
  wordByte c = true -> endsToken post = true ->
  matchHere flagsRegex (str "--" ++ c :: post) = None
  /\ matchHere flagsRegex (str "-" ++ c :: post) = None.
Proof.
  intros Hc Hend.
  pose proof (wordByte_plain _ Hc) as [Hcne _]%plainByte_inv.
  unfold matchHere, flagsRegex, flagIntroducer, flagBody, word, wordOrHyphen.
  cbn [run str list_ascii_of_string app]. split.
  - rewrite stepRune_ascii by reflexivity.
    change (lit "-" =? byteval "-") with true. cbv iota.
    rewrite stepRune_ascii by reflexivity.
    change (lit "-" =? byteval "-") with true. cbv iota.
    rewrite stepRune_class by apply inRanges_word_ascii.
    cbn [xorb]. fold (wordByte c). rewrite Hc.
    change (lit "—" =? byteval "-") with false. cbv iota.
    destruct post as [|d post]; [done|].
    cbn [endsToken] in Hend.
    rewrite stepRune_class by apply inRanges_name_ascii.
    fold (nameByte d). apply negb_true_iff in Hend. by rewrite Hend.
  - rewrite stepRune_ascii by reflexivity.
    change (lit "-" =? byteval "-") with true. cbv iota.
    rewrite (stepRune_class (N.eqb (lit "-"))) by (by apply (eqb_ascii (lit "-"))).
    change (lit "-") with 45. rewrite N.eqb_sym.
    destruct (N.eqb_spec (byteval c) 45) as [|_]; [done|].
    change (8212 =? byteval "-") with false. done.
Qed.

Lemma stripFlags_short pre c post :
  plain pre = true -> wordByte c = true ->
  plain post = true -> endsToken post = true ->
  stripFlags (pre ++ (str "--" ++ [c]) ++ post)
  = (pre ++ (str "--" ++ [c]) ++ post, Ok ∅).
Proof.
  intros Hpre Hc Hpost Hend. rewrite stripFlags_tokens.
  destruct (flagsRegex_short c post Hc Hend) as [H2 H1].
  destruct (flags_skip_plain (length pre) pre ((str "--" ++ [c]) ++ post)
                             (le_n _) Hpre eq_refl) as [-> ->].
  assert (plain (c :: post) = true) as Hcp
      by (cbn [plain forallb]; by rewrite (wordByte_plain c Hc)).
  destruct (flags_plain _ Hcp) as [H3 H4].
  unfold withoutFlags, flagTokens in *.
  cbn [str list_ascii_of_string app] in *.
  rewrite (pieces_no_match flagsRegex _ eq_refl _ _ H2).
  rewrite width_ascii by reflexivity. cbn [take drop].
  rewrite (pieces_no_match flagsRegex _ eq_refl _ _ H1).
  rewrite width_ascii by reflexivity. cbn [take drop].
  rewrite !unmatchedText_unmatched, !matchedTexts_unmatched, H3, H4. done.
Qed.

Lemma flagsRegex_escaped post :
  matchHere flagsRegex (escapedFlag ++ post)
  = Some (length escapedFlag, [(2%nat, (7%nat, 21%nat)); (1%nat, (2%nat, 5%nat))]).
Proof.
  vm_compute. reflexivity.
Qed.

Lemma flagOf_escaped : flagOf escapedFlag = (str "msg", escapedValue).
Proof. vm_compute. reflexivity. Qed.

(** ** The name of a flag *)

Lemma firstRune_ascii_inv c s : firstRune (c :: s) < 0x80 -> byteval c < 0x80.
Proof.
  intros H. destruct (N.lt_ge_cases (byteval c) 0x80) as [Hlt|Hge]; [done|].
  destruct (decode_nonascii c s Hge) as [Hr _]. lia.
Qed.

Lemma stepRune_name_inv {R} ranges s pos cap (k : @Cont R) x :
  (forall r, inRanges r ranges = true -> r < 0x80) ->
  stepRune (fun r => xorb false (inRanges r ranges)) s pos cap k = Some x ->
  exists c rest,
    s = c :: rest /\ inRanges (byteval c) ranges = true /\
    k rest (pos + 1)%nat cap = Some x.
Proof.
  intros Hranges H. destruct s as [|c s]; [done|].
  rewrite stepRune_cons in H. cbn [xorb] in H.
  destruct (inRanges (firstRune (c :: s)) ranges) eqn:Hin; [|done].
  pose proof (firstRune_ascii_inv c s (Hranges _ Hin)) as Hc.
  unfold firstRune in Hin. rewrite decode_ascii in Hin by done.
  rewrite width_ascii in H by done. by exists c, s.
Qed.

Lemma loop_name_inv {R} ranges fuel :
  (forall r, inRanges r ranges = true -> r < 0x80) ->
  forall s pos cap (k : @Cont R) x,
    loop (stepRune (fun r => xorb false (inRanges r ranges))) fuel s pos cap k = Some x ->
    exists l rest,
      s = l ++ rest /\ forallb (fun c => inRanges (byteval c) ranges) l = true /\
      k rest (pos + length l)%nat cap = Some x.
Proof.
  intros Hranges. induction fuel as [|fuel IH]; intros s pos cap k x; cbn [loop].
  { intros H. exists [], s. by rewrite Nat.add_0_r. }
  destruct (stepRune _ s pos cap _) as [y|] eqn:Hstep.
  - intros [= ->]. apply (stepRune_name_inv ranges) in Hstep as (c & rest & -> & Hc & H); [|done].
    destruct (pos <? pos + 1)%nat; [|done].
    apply IH in H as (l & rest' & -> & Hl & H).
    exists (c :: l), rest'. split; [done|]. split; [cbn; by rewrite Hc|].
    cbn [length]. by replace (pos + S (length l))%nat with (pos + 1 + length l)%nat by lia.
  - intros H. exists [], s. by rewrite Nat.add_0_r.
Qed.

(** What the expression takes for group 1 is a flag name. *)
Lemma name_inv {R} s pos cap (k : @Cont R) x :
  run (Concat word (Plus wordOrHyphen)) s pos cap k = Some x ->
  exists name rest,
    s = name ++ rest /\ isFlagName name = true /\
    k rest (pos + length name)%nat cap = Some x.
Proof.
  unfold word, wordOrHyphen. cbn [run]. intros H.
  apply (stepRune_name_inv wordRanges) in H as (c0 & s1 & -> & Hc0 & H).
  2:{ intros r Hr. apply inRanges_name_ascii. unfold inRanges in *. cbn [existsb].
      rewrite Hr. apply orb_true_r. }
  apply (stepRune_name_inv (one "-" :: wordRanges)) in H as (c1 & s2 & -> & Hc1 & H);
    [|apply inRanges_name_ascii].
  apply (loop_name_inv (one "-" :: wordRanges)) in H as (l & rest & -> & Hl & H);
    [|apply inRanges_name_ascii].
  exists (c0 :: c1 :: l), rest. split; [done|]. split.
  - cbn [isFlagName isEmpty negb forallb]. unfold wordByte, nameByte.
    by rewrite Hc0, Hc1, Hl.
  - cbn [length]. by replace (pos + S (S (length l)))%nat with (pos + 1 + 1 + length l)%nat by lia.
Qed.

Lemma capLookup_app_other i ext cap :
  Forall (fun e => e.1 <> i) ext -> capLookup i (ext ++ cap) = capLookup i cap.
Proof.
  induction 1 as [|[j se] ext Hj Hext IH]; [done|]. cbn [app capLookup].
  cbn in Hj. destruct (Nat.eqb_spec i j) as [->|]; [done | exact IH].
Qed.

Lemma flagsRegex_name s n cap :
  matchHere flagsRegex s = Some (n, cap) -> isFlagName (group s cap 1) = true.
Proof.
  unfold matchHere, flagsRegex, flagIntroducer, flagBody.
  match goal with
  | |- run (Concat ?a (Concat (Capture 1 ?nm) ?o)) _ _ _ _ = _ -> _ =>
    set (intro := a); set (opt := o);
    change (run (Concat intro (Concat (Capture 1 nm) opt)) s 0%nat []
                (fun _ pos cap => Some (pos, cap)))
      with (run intro s 0%nat []
                (fun s1 p1 c1 =>
                   run nm s1 p1 c1
                       (fun s2 p2 c2 =>
                          run opt s2 p2 ((1%nat, (p1, p2)) :: c2)
                              (fun _ pos cap => Some (pos, cap)))))
  end.
  intros H. apply run_sound in H as (n1 & ext1 & Hn1 & _ & Hext1 & H).
  assert (ext1 = []) as ->.
  { destruct ext1 as [|e ext1]; [done|]. apply Forall_cons in Hext1 as [He _].
    vm_compute in He. by apply elem_of_nil in He. }
  cbn [app] in H. apply name_inv in H as (name & rest & Hs & Hname & H).
  apply run_sound in H as (n3 & ext3 & _ & _ & Hext3 & [= _ <-]).
  unfold group. rewrite capLookup_app_other.
  - cbn [capLookup Nat.eqb Nat.add] in *. unfold substr.
    rewrite Hs. replace (n1 + length name - n1)%nat with (length name) by lia.
    rewrite take_app_length. exact Hname.
  - eapply Forall_impl; [exact Hext3|]. intros e He Heq. cbn beta in He.
    rewrite Heq in He. subst opt. cbn [groups quoted app] in He.
    repeat (apply elem_of_cons in He as [He|He]; [discriminate He|]).
    by apply elem_of_nil in He.
Qed.

Lemma flagOf_name m cap :
  matchHere flagsRegex m = Some (length m, cap) -> isFlagName (flagOf m).1 = true.
Proof.
  intros Hm. unfold flagOf, FindStringSubmatch.
  destruct m as [|c m].
  { apply flagsRegex_bounds in Hm. cbn in Hm. lia. }
  cbn [search length]. rewrite Hm.
  unfold submatches, flagsRegexGroups. cbn [seq map fst].
  by apply (flagsRegex_name _ _ _ Hm).
Qed.

(** Every flag token of a message has a flag name: a word byte and at
    least one more byte of the name class. *)
Lemma flagTokens_names content :
  Forall (fun token => isFlagName (flagOf token).1 = true) (flagTokens content).
Proof.
  pose proof (scan_matched flagsRegex flagsRegexGroups eq_refl
                           (S (length content)) content) as H.
  eapply Forall_impl; [exact H|]. intros m [cap Hm]. by apply (flagOf_name m cap).
Qed.

Lemma foldl_putFlag_keys flags tokens key :
  is_Some (foldl putFlag flags tokens !! key) ->
  is_Some (flags !! key) \/ exists token, token ∈ tokens /\ (flagOf token).1 = key.
Proof.
  revert flags. induction tokens as [|t tokens IH]; intros flags H; [by left|].
  cbn [foldl] in H. apply IH in H as [H|(token & Hin & Hk)].
  - unfold putFlag in H. destruct (decide ((flagOf t).1 = key)) as [E|E].
    + right. exists t. split; [by left | done].
    + rewrite lookup_insert_ne in H by done. by left.
  - right. exists token. split; [by right | done].
Qed.

Lemma isFlagName_length name : isFlagName name = true -> (2 <= length name)%nat.
Proof.
  destruct name as [|c0 [|c1 rest]]; cbn [isFlagName isEmpty negb length];
    rewrite ?andb_false_r; [done | done | lia].
Qed.

(** The keys of the flag map of a message are flag names. *)
Lemma flag_keys_are_names content key :
  is_Some (foldl putFlag ∅ (flagTokens content) !! key) -> isFlagName key = true.
Proof.
  intros H. apply foldl_putFlag_keys in H as [H|(token & Hin & <-)].
  - rewrite lookup_empty in H. by destruct H.
  - pose proof (flagTokens_names content) as Hall.
    rewrite Forall_forall in Hall. by apply Hall.
Qed.

(** ** Runs of whitespace *)

Lemma inRanges_space_ascii b : inRanges b spaceRanges = true -> b < 0x80.
Proof.
  unfold inRanges, spaceRanges. cbn [existsb fst snd].
  rewrite !orb_true_iff, !andb_true_iff, !N.leb_le. lia.
Qed.

Lemma spaceByte_ascii c : spaceByte c = true -> byteval c < 0x80.
Proof. apply inRanges_space_ascii. Qed.

(** The first rune of a text is whitespace exactly when its first byte
    is. *)
Lemma space_firstRune c s :
  inRanges (firstRune (c :: s)) spaceRanges = spaceByte c.
Proof.
  destruct (N.lt_ge_cases (byteval c) 0x80) as [Hlt|Hge].
  - unfold firstRune. by rewrite decode_ascii.
  - destruct (decode_nonascii c s Hge) as [Hr _].
    destruct (inRanges (firstRune (c :: s)) spaceRanges) eqn:E1.
    { apply inRanges_space_ascii in E1. lia. }
    destruct (spaceByte c) eqn:E2; [|done].
    apply spaceByte_ascii in E2. lia.
Qed.

Lemma space_step {R} c s pos cap (k : @Cont R) :
  stepRune (fun r => xorb false (inRanges r spaceRanges)) (c :: s) pos cap k
  = if spaceByte c then k s (pos + 1)%nat cap else None.
Proof.
  rewrite stepRune_cons. cbn [xorb]. rewrite space_firstRune.
  destruct (spaceByte c) eqn:E; [|done].
  rewrite width_ascii by by apply spaceByte_ascii. done.
Qed.

Lemma space_loop {R} run_ rest fuel pos cap (k : @Cont R) x :
  forallb spaceByte run_ = true -> notSpaceNext rest = true ->
  (length run_ < fuel)%nat ->
  k rest (pos + length run_)%nat cap = Some x ->
  loop (stepRune (fun r => xorb false (inRanges r spaceRanges))) fuel
       (run_ ++ rest) pos cap k = Some x.
Proof.
  intros Hrun Hrest. revert fuel pos.
  induction run_ as [|c l IH]; intros fuel pos Hfuel Hk;
    (destruct fuel as [|fuel]; [cbn in Hfuel; lia|]); cbn [loop app].
  - rewrite Nat.add_0_r in Hk. destruct rest as [|c rest]; [by rewrite Hk|].
    rewrite space_step. cbn [notSpaceNext] in Hrest. apply negb_true_iff in Hrest.
    by rewrite Hrest, Hk.
  - cbn [forallb] in Hrun. apply andb_true_iff in Hrun as [Hc Hrun].
    rewrite space_step, Hc.
    replace (pos <? pos + 1)%nat with true by (symmetry; apply Nat.ltb_lt; lia).
    rewrite (IH Hrun fuel (pos + 1)%nat); [done | cbn in Hfuel; lia |].
    cbn [length] in Hk. by replace (pos + 1 + length l)%nat with (pos + S (length l))%nat by lia.
Qed.

(** Two whitespace bytes start a match, which takes the whole run and
    captures its first byte. *)
Lemma delim_run c1 c2 run_ rest :
  spaceByte c1 = true -> spaceByte c2 = true ->
  forallb spaceByte run_ = true -> notSpaceNext rest = true ->
  matchHere delim (c1 :: c2 :: run_ ++ rest)
  = Some ((2 + length run_)%nat, [(1%nat, (0%nat, 1%nat))]).
Proof.
  intros H1 H2 Hrun Hrest. unfold matchHere, delim, space. cbn [run].
  rewrite space_step, H1, space_step, H2.
  rewrite (space_loop run_ rest _ _ _ _ (2 + length run_, [(1, (0, 1))])%nat);
    [done | done | done | rewrite length_app; lia | done].
Qed.

Lemma delim_single c s :
  spaceByte c = false \/ notSpaceNext s = true ->
  matchHere delim (c :: s) = None.
Proof.
  intros H. unfold matchHere, delim, space. cbn [run].
  rewrite space_step. destruct (spaceByte c) eqn:Hc; [|done].
  destruct H as [H|H]; [done|]. destruct s as [|d s]; [done|].
  rewrite space_step. cbn [notSpaceNext] in H. apply negb_true_iff in H. by rewrite H.
Qed.

Lemma space_run_split (t : gostring) :
  exists run_ rest,
    t = run_ ++ rest /\ forallb spaceByte run_ = true /\ notSpaceNext rest = true.
Proof.
  induction t as [|c t (run_ & rest & -> & Hrun & Hrest)].
  - by exists [], [].
  - destruct (spaceByte c) eqn:Hc.
    + exists (c :: run_), rest. cbn [app forallb]. by rewrite Hc.
    + exists [], (c :: run_ ++ rest). cbn [app forallb notSpaceNext]. by rewrite Hc.
Qed.

Lemma collapseRuns_skip run_ rest :
  forallb spaceByte run_ = true -> notSpaceNext rest = true ->
  collapseRuns true (run_ ++ rest) = collapseRuns false rest.
Proof.
  intros Hrun Hrest. induction run_ as [|c l IH].
  - destruct rest as [|d rest]; [done|]. cbn [notSpaceNext app collapseRuns] in Hrest |- *.
    apply negb_true_iff in Hrest. by rewrite Hrest.
  - cbn [forallb app collapseRuns] in Hrun |- *.
    apply andb_true_iff in Hrun as [Hc Hrun]. rewrite Hc. by apply IH.
Qed.

Lemma collapseRuns_other b l rest :
  l <> [] -> Forall (fun c => spaceByte c = false) l ->
  collapseRuns b (l ++ rest) = l ++ collapseRuns false rest.
Proof.
  intros Hne Hall. revert b. induction Hall as [|c l Hc Hall IH]; intros b; [done|].
  cbn [app collapseRuns]. rewrite Hc. f_equal. destruct l as [|d l]; [done|]. by apply IH.
Qed.

(** Replacing every match of the whitespace expression by its first
    group keeps the first byte of every run of whitespace bytes and
    drops the others; all other bytes stay. *)
Lemma delim_collapse_pieces n :
  forall s, (length s <= n)%nat ->
    fst (replacePieces firstGroup (pieces delim delimGroups s) tt)
    = collapseRuns false s.
Proof.
  induction n as [|n IH]; intros s Hlen.
  { destruct s; [|cbn in Hlen; lia]. by rewrite pieces_nil. }
  destruct s as [|c t]; [by rewrite pieces_nil|]. cbn [length] in Hlen.
  destruct (spaceByte c) eqn:Hc.
  - destruct t as [|c2 t].
    { rewrite pieces_no_match by (done || apply delim_single; by right).
      rewrite width_ascii by by apply spaceByte_ascii.
      cbn [take drop replacePieces]. rewrite pieces_nil.
      cbn [replacePieces fst app collapseRuns]. by rewrite Hc. }
    destruct (spaceByte c2) eqn:Hc2.
    + destruct (space_run_split t) as (run_ & rest & -> & Hrun & Hrest).
      rewrite (pieces_match delim _ eq_refl _ _ _ (delim_run c c2 run_ rest Hc Hc2 Hrun Hrest)).
      replace (drop (2 + length run_) (c :: c2 :: run_ ++ rest)) with rest
        by (cbn [Nat.add drop]; by rewrite drop_app_length).
      cbn [replacePieces]. unfold firstGroup at 1.
      specialize (IH rest). destruct (replacePieces firstGroup _ tt) as [out []].
      cbn [fst] in IH |- *.
      rewrite IH by (cbn [length] in Hlen; rewrite length_app in Hlen; lia).
      cbn [collapseRuns]. rewrite Hc, Hc2.
      rewrite (collapseRuns_skip run_ rest) by done. done.
    + rewrite pieces_no_match
        by (done || apply delim_single; right; cbn [notSpaceNext]; by rewrite Hc2).
      rewrite width_ascii by by apply spaceByte_ascii.
      cbn [take drop replacePieces]. rewrite ?take_0, ?drop_0.
      specialize (IH (c2 :: t)). destruct (replacePieces firstGroup _ tt) as [out []].
      cbn [fst] in IH |- *. rewrite IH by (cbn [length] in *; lia).
      cbn [collapseRuns app]. by rewrite Hc, Hc2.
  - rewrite pieces_no_match by (done || apply delim_single; by left).
    cbn [replacePieces].
    pose proof (width_bounds c t) as Hw.
    specialize (IH (drop (width (c :: t)) (c :: t))).
    destruct (replacePieces firstGroup _ tt) as [out []].
    cbn [fst] in IH |- *. rewrite IH by (rewrite length_drop; cbn [length]; lia).
    transitivity (collapseRuns false (take (width (c :: t)) (c :: t)
                                        ++ drop (width (c :: t)) (c :: t)));
      [|by rewrite take_drop].
    rewrite (collapseRuns_other false); [done | |].
    + destruct (width (c :: t)); [lia | done].
    + destruct (N.lt_ge_cases (byteval c) 0x80) as [Hlt|Hge].
      * rewrite width_ascii by done. cbn [take]. rewrite take_0. by constructor.
      * destruct (decode_nonascii c t Hge) as [_ Hall].
        eapply Forall_impl; [exact Hall|]. cbn beta. intros d Hd.
        destruct (spaceByte d) eqn:E; [|done]. apply spaceByte_ascii in E. lia.
Qed.

Lemma delim_collapse s :
  ReplaceAllString delim delimGroups s [TRef 1] = collapseRuns false s.
Proof.
  unfold ReplaceAllString. rewrite replaceAll_pieces by done.
  by apply (delim_collapse_pieces (length s)).
Qed.

(** ** The listener *)

Lemma rangeMonitors_skip bot s m monitor rest w :
  eligible s m monitor = None ->
  rangeMonitors bot s m (monitor :: rest) w = rangeMonitors bot s m rest w.
Proof.
  unfold eligible. cbn [rangeMonitors].
  destruct (negb (Enabled monitor)); [done|].
  destruct (isEmpty (GuildID m)); cbn [negb andb].
  - destruct (GuildOnly monitor && isNil None); [done|].
    repeat (match goal with |- context [if ?b then _ else _] => destruct b end; try done).
    destruct (State_Channel s (ChannelID m)); done.
  - destruct (State_Guild s (GuildID m)); cbn [isNil]; [|done].
    repeat (match goal with |- context [if ?b then _ else _] => destruct b end; try done).
    destruct (State_Channel s (ChannelID m)); done.
Qed.

Lemma rangeMonitors_call bot s m monitor rest w ctx :
  eligible s m monitor = Some ctx ->
  rangeMonitors bot s m (monitor :: rest) w =
  match Run monitor bot ctx w with
  | (Ok _, w') =>
    let '(r, calls, w'') := rangeMonitors bot s m rest w' in
    (r, (Name monitor, ctx) :: calls, w'')
  | (Panicked v, w') => (Panicked v, [(Name monitor, ctx)], w')
  end.
Proof.
  unfold eligible. cbn [rangeMonitors].
  destruct (negb (Enabled monitor)); [done|].
  destruct (isEmpty (GuildID m)); cbn [negb andb].
  - destruct (GuildOnly monitor && isNil None); [done|].
    repeat (match goal with |- context [if ?b then _ else _] => destruct b end; try done).
    destruct (State_Channel s (ChannelID m)); [|done]. intros [= <-]. done.
  - destruct (State_Guild s (GuildID m)); cbn [isNil]; [|done].
    repeat (match goal with |- context [if ?b then _ else _] => destruct b end; try done).
    destruct (State_Channel s (ChannelID m)); [|done]. intros [= <-]. done.
Qed.

(** A handler that panics ends the loop: what comes after it in the
    list plays no part in the result. *)
Lemma rangeMonitors_panic bot s m before monitor after w calls w1 ctx v w2 :
  rangeMonitors bot s m before w = (Ok tt, calls, w1) ->
  eligible s m monitor = Some ctx ->
  Run monitor bot ctx w1 = (Panicked v, w2) ->
  rangeMonitors bot s m (before ++ monitor :: after) w
  = (Panicked v, calls ++ [(Name monitor, ctx)], w2).
Proof.
  revert w calls. induction before as [|P before IH]; intros w calls Hpre HA Hrun.
  - cbn in Hpre. injection Hpre as <- <-. cbn [app].
    rewrite (rangeMonitors_call _ _ _ _ _ _ _ HA), Hrun. done.
  - cbn [app]. destruct (eligible s m P) as [ctxP|] eqn:HP.
    + rewrite (rangeMonitors_call _ _ _ _ _ _ _ HP) in Hpre.
      rewrite (rangeMonitors_call _ _ _ _ _ _ _ HP).
      destruct (Run P bot ctxP w) as [[[]|vp] wp]; [|done].
      destruct (rangeMonitors bot s m before wp) as [[r c] w'] eqn:Hrest.
      injection Hpre as -> <- ->.
      rewrite (IH _ _ Hrest HA Hrun). done.
    + rewrite (rangeMonitors_skip _ _ _ _ _ _ HP) in Hpre.
      rewrite (rangeMonitors_skip _ _ _ _ _ _ HP). eauto.
Qed.

(** The deferred closure is pushed only after the loop, so the listener
    never hands anything to the error handler: after a loop that ends
    normally there is no panic to recover, and a panic that leaves the
    loop finds no deferred call. *)
Lemma monitorListener_unfold bot monitors s m w :
  monitorListener bot monitors s m w = rangeMonitors bot s m monitors w.
Proof.
  unfold monitorListener.
  destruct (rangeMonitors bot s m monitors w) as [[[[]|v] calls] w1]; done.
Qed.

Lemma rangeMonitors_lost_guild bot s m monitors w :
  isEmpty (GuildID m) = false -> State_Guild s (GuildID m) = None ->
  rangeMonitors bot s m monitors w = (Ok tt, [], w).
Proof.
  intros Hid Hg. induction monitors as [|mon rest IH]; [done|].
  rewrite rangeMonitors_skip; [done|].
  unfold eligible. rewrite Hid, Hg. cbn. by destruct (Enabled mon).
Qed.

(** C1 (as the code has it).  When the handler of an enabled, eligible
    monitor panics, the dispatch of the event ends there: the handlers
    called are those of the eligible monitors registered before it, in
    order, and its own; no monitor registered after it is called. *)
Theorem C1_dispatch_ends_at_panic
        bot s m before monitor after w calls w1 ctx v w2 :
  rangeMonitors bot s m before w = (Ok tt, calls, w1) ->
  eligible s m monitor = Some ctx ->
  Run monitor bot ctx w1 = (Panicked v, w2) ->
  snd (fst (monitorListener bot (before ++ monitor :: after) s m w))
  = calls ++ [(Name monitor, ctx)].
Proof.
  intros Hpre HA Hrun. rewrite monitorListener_unfold.
  by rewrite (rangeMonitors_panic _ _ _ _ _ after _ _ _ _ _ _ Hpre HA Hrun).
Qed.

Lemma C1_dispatch_ends_at_panic_witness :
  snd (fst (monitorListener (Sample.bot "!" (fun _ => None))
                            ([Sample.B] ++ Sample.A :: [Sample.B])
                            Sample.session (Sample.direct "hello") Sample.fresh))
  = [(str "B", mkMonitorContext (Sample.direct "hello") Sample.dm Sample.session
                                Sample.alice (str "B") None)]
      ++ [(Name Sample.A,
           mkMonitorContext (Sample.direct "hello") Sample.dm Sample.session
                            Sample.alice (str "A") None)].
Proof.
  apply (C1_dispatch_ends_at_panic
           (Sample.bot "!" (fun _ => None)) Sample.session (Sample.direct "hello")
           [Sample.B] Sample.A [Sample.B] Sample.fresh _
           (mkWorld [Did "B ran"] 0) _ (Raised "boom") (mkWorld [Did "B ran"] 0));
    reflexivity.
Defined.

(** C1 as stated fails: with monitor A panicking and monitor B
    registered after it, both eligible, B is not called and nothing
    reaches the error handler; the panic leaves the listener. *)
Lemma C1_counterexample :
  eligible Sample.session (Sample.direct "hello") Sample.A <> None /\
  eligible Sample.session (Sample.direct "hello") Sample.B <> None /\
  let '(r, calls, w) :=
    monitorListener (Sample.bot "!" (fun _ => None)) [Sample.A; Sample.B]
                    Sample.session (Sample.direct "hello") Sample.fresh in
  r = Panicked (Raised "boom") /\ called (str "B") calls = false /\ reported w = false.
Proof. vm_compute. repeat split; congruence. Qed.

Lemma eligible_no_guild_id s m monitor :
  isEmpty (GuildID m) = true ->
  (GuildOnly monitor = true -> eligible s m monitor = None)
  /\ (GuildOnly monitor = false -> passesOtherGates s m monitor = true ->
      exists ctx, eligible s m monitor = Some ctx /\ ctx_Guild ctx = None).
Proof.
  intros Hid. unfold eligible, passesOtherGates. rewrite Hid. cbn [negb andb].
  split.
  - intros ->. cbn [isNil andb]. by destruct (negb (Enabled monitor)).
  - intros -> H. cbn [andb].
    repeat (apply andb_true_iff in H as [H ?]).
    rewrite H. cbn [negb].
    repeat match goal with
           | Hn : negb ?b = true |- _ => apply negb_true_iff in Hn; rewrite ?Hn
           end.
    destruct (State_Channel s (ChannelID m)) as [channel|]; [|done].
    eexists. split; [reflexivity | done].
Qed.

(** C2 (as the code has it).  For an event that carries a guild id
    whose lookup fails, every monitor is skipped, whatever its
    [GuildOnly]: no handler is called and nothing else happens.  The
    guild is nil only for an event without a guild id: then a monitor
    that is guild-only is skipped, and one that is not and passes the
    other gates is called with a nil guild. *)
Theorem C2_lost_guild_skips_all bot monitors s m w :
  isEmpty (GuildID m) = false ->
  State_Guild s (GuildID m) = None ->
  monitorListener bot monitors s m w = (Ok tt, [], w)
  /\ (forall m' monitor rest,
         isEmpty (GuildID m') = true ->
         (GuildOnly monitor = true ->
          monitorListener bot (monitor :: rest) s m' w
          = monitorListener bot rest s m' w)
         /\ (GuildOnly monitor = false -> passesOtherGates s m' monitor = true ->
             exists ctx,
               ctx_Guild ctx = None /\
               head (snd (fst (monitorListener bot (monitor :: rest) s m' w)))
               = Some (Name monitor, ctx))).
Proof.
  intros Hid Hg. split.
  { rewrite monitorListener_unfold. by apply rangeMonitors_lost_guild. }
  intros m' monitor rest Hid'.
  destruct (eligible_no_guild_id s m' monitor Hid') as [Hskip Hcall]. split.
  - intros Hgo. rewrite !monitorListener_unfold.
    by rewrite (rangeMonitors_skip _ _ _ _ _ _ (Hskip Hgo)).
  - intros Hgo Hgates. destruct (Hcall Hgo Hgates) as (ctx & Hctx & Hnil).
    exists ctx. split; [done|]. rewrite monitorListener_unfold.
    rewrite (rangeMonitors_call _ _ _ _ _ _ _ Hctx).
    destruct (Run monitor bot ctx w) as [[[]|v] w']; [|done].
    by destruct (rangeMonitors bot s m' rest w') as [[r calls] w''].
Qed.

Lemma C2_lost_guild_skips_all_witness :
  monitorListener (Sample.bot "!" (fun _ => None)) [Sample.B; Sample.A]
                  Sample.session (Sample.fromLostGuild "hello") Sample.fresh
  = (Ok tt, [], Sample.fresh).
Proof.
  refine (proj1 (C2_lost_guild_skips_all
                   (Sample.bot "!" (fun _ => None)) [Sample.B; Sample.A]
                   Sample.session (Sample.fromLostGuild "hello") Sample.fresh _ _));
    reflexivity.
Defined.

(** C2 as stated fails: monitor B is not guild-only and passes every
    other gate, yet for a message from a guild the state does not hold
    it is not called; for the same message without a guild id it is
    called, with a nil guild. *)
Lemma C2_counterexample :
  GuildOnly Sample.B = false /\
  passesOtherGates Sample.session (Sample.fromLostGuild "hello") Sample.B = true /\
  called (str "B")
         (snd (fst (monitorListener (Sample.bot "!" (fun _ => None)) [Sample.B]
                      Sample.session (Sample.fromLostGuild "hello") Sample.fresh)))
  = false /\
  ctx_Guild <$> eligible Sample.session (Sample.direct "hello") Sample.B = Some None.
Proof. vm_compute. repeat split; congruence. Qed.

(** ** The command monitor *)

Lemma splitLoop_nonempty sep s skip cur :
  (1 <= length (Strings.splitLoop sep s skip cur))%nat.
Proof.
  revert skip cur. induction s as [|c t IH]; intros skip cur;
    cbn [Strings.splitLoop length]; [lia|].
  destruct skip; [|apply IH].
  destruct (Strings.HasPrefix (c :: t) sep); cbn [length]; [lia | apply IH].
Qed.

(** [strings.Split] on a space never returns an empty slice, so the
    test [len(split) < 1] of the function is never true. *)
Lemma Split_space_nonempty s :
  (length (Strings.Split s (str " ")) <? 1)%nat = false.
Proof. apply Nat.ltb_ge. cbn. apply splitLoop_nonempty. Qed.

Section Gates.
Variables (bot : Bot) (ctx : MonitorContext).
Variables (content rest : gostring) (flags : gmap gostring gostring).
Variables (cmd : Command) (locale : gostring).
Hypothesis Hprefix :
  Strings.HasPrefix (Content (ctx_Message ctx))
                    (Prefix bot (ctx_Message ctx) (isDM (ctx_Channel ctx))) = true.
Hypothesis Hclean : cleanContent (Content (ctx_Message ctx)) = (content, Ok flags).
Hypothesis Hslice :
  slice_from content
             (length (Prefix bot (ctx_Message ctx) (isDM (ctx_Channel ctx))))
  = Some rest.
Hypothesis Hcmd :
  GetCommand bot (Strings.ToLower (unicodeLower bot)
                    (hd [] (Strings.Split rest (str " ")))) = Some cmd.
Hypothesis Hlocale :
  Languages bot (Language bot (ctx_Message ctx) (isDM (ctx_Channel ctx)))
  = Some locale.

(** Once the command and its locale are found, the three gates come
    first, in their order. *)
Lemma gates_first w :
  CommandHandlerMonitor bot ctx w =
  if negb (Command_Enabled cmd) then (Ok tt, replied "COMMAND_DISABLED" w)
  else if Command_OwnerOnly cmd && notOwner bot ctx
       then (Ok tt, replied "COMMAND_OWNER_ONLY" w)
  else if Command_GuildOnly cmd && isEmpty (GuildID (ctx_Message ctx))
       then (Ok tt, replied "COMMAND_GUILD_ONLY" w)
  else CommandHandlerMonitor bot ctx w.
Proof.
  destruct (negb (Command_Enabled cmd)) eqn:E1;
    [|destruct (Command_OwnerOnly cmd && notOwner bot ctx) eqn:E2;
      [|destruct (Command_GuildOnly cmd && isEmpty (GuildID (ctx_Message ctx))) eqn:E3;
        [|done]]].
  all: unfold CommandHandlerMonitor.
  all: rewrite Hprefix; cbn [negb];
    rewrite Hclean, Hslice, Split_space_nonempty, Hcmd, Hlocale.
  all: unfold notOwner in *; rewrite ?E1, ?E2, ?E3; reflexivity.
Qed.
End Gates.

(** C9.  Once the command is resolved and its locale found, the gates
    run in the order disabled, owner-only, guild-only.  The first that
    fails ends the function with exactly one reply, its own key, and
    nothing else: the handler of the command is not run and the counter
    of executed commands stays as it was. *)
Theorem C9_validation_gates
        bot ctx content rest flags cmd locale w :
  Strings.HasPrefix (Content (ctx_Message ctx))
                    (Prefix bot (ctx_Message ctx) (isDM (ctx_Channel ctx))) = true ->
  cleanContent (Content (ctx_Message ctx)) = (content, Ok flags) ->
  slice_from content
             (length (Prefix bot (ctx_Message ctx) (isDM (ctx_Channel ctx))))
  = Some rest ->
  GetCommand bot (Strings.ToLower (unicodeLower bot)
                    (hd [] (Strings.Split rest (str " ")))) = Some cmd ->
  Languages bot (Language bot (ctx_Message ctx) (isDM (ctx_Channel ctx)))
  = Some locale ->
  (Command_Enabled cmd = false ->
   CommandHandlerMonitor bot ctx w = (Ok tt, replied "COMMAND_DISABLED" w))
  /\ (Command_Enabled cmd = true ->
      Command_OwnerOnly cmd = true -> notOwner bot ctx = true ->
      CommandHandlerMonitor bot ctx w = (Ok tt, replied "COMMAND_OWNER_ONLY" w))
  /\ (Command_Enabled cmd = true ->
      Command_OwnerOnly cmd && notOwner bot ctx = false ->
      Command_GuildOnly cmd = true -> isEmpty (GuildID (ctx_Message ctx)) = true ->
      CommandHandlerMonitor bot ctx w = (Ok tt, replied "COMMAND_GUILD_ONLY" w))
  /\ CommandsRan (replied "COMMAND_DISABLED" w) = CommandsRan w
  /\ CommandsRan (replied "COMMAND_OWNER_ONLY" w) = CommandsRan w
  /\ CommandsRan (replied "COMMAND_GUILD_ONLY" w) = CommandsRan w.
Proof.
  intros Hprefix Hclean Hslice Hcmd Hlocale.
  pose proof (gates_first bot ctx content rest flags cmd locale
                          Hprefix Hclean Hslice Hcmd Hlocale w) as H.
  repeat split.
  - intros E1. by rewrite H, E1.
  - intros E1 E2 E3. by rewrite H, E1, E2, E3.
  - intros E1 E2 E3 E4. by rewrite H, E1, E2, E3, E4.
Qed.

Lemma C9_validation_gates_witness :
  CommandHandlerMonitor
    (Sample.bot "!" (Sample.registry "ping" (Sample.command "ping" false true true)))
    (Sample.context "!ping now") Sample.fresh
  = (Ok tt, replied "COMMAND_DISABLED" Sample.fresh)
  /\ CommandHandlerMonitor
       (Sample.bot "!" (Sample.registry "ping" (Sample.command "ping" true true true)))
       (Sample.context "!ping now") Sample.fresh
     = (Ok tt, replied "COMMAND_OWNER_ONLY" Sample.fresh)
  /\ CommandHandlerMonitor
       (Sample.bot "!" (Sample.registry "ping" (Sample.command "ping" true false true)))
       (Sample.context "!ping now") Sample.fresh
     = (Ok tt, replied "COMMAND_GUILD_ONLY" Sample.fresh).
Proof.
  split; [|split].
  - apply (C9_validation_gates
             (Sample.bot "!" (Sample.registry "ping" (Sample.command "ping" false true true)))
             (Sample.context "!ping now") (str "!ping now") (str "ping now") ∅
             (Sample.command "ping" false true true) (str "en-US") Sample.fresh);
      reflexivity.
  - apply (C9_validation_gates
             (Sample.bot "!" (Sample.registry "ping" (Sample.command "ping" true true true)))
             (Sample.context "!ping now") (str "!ping now") (str "ping now") ∅
             (Sample.command "ping" true true true) (str "en-US") Sample.fresh);
      reflexivity.
  - apply (C9_validation_gates
             (Sample.bot "!" (Sample.registry "ping" (Sample.command "ping" true false true)))
             (Sample.context "!ping now") (str "!ping now") (str "ping now") ∅
             (Sample.command "ping" true false true) (str "en-US") Sample.fresh);
      reflexivity.
Defined.

(** C3 fails on the code.  The prefix test is made on the raw content
    but the slice on the cleaned one, which can be shorter than the
    prefix: with the prefix [hey ] and the message [hey --help], or the
    prefix [--go ] and the message [--go ping], the function panics on
    the slice. *)
Theorem C3_slice_out_of_range :
  Strings.HasPrefix (str "hey --help") (str "hey ") = true
  /\ fst (cleanContent (str "hey --help")) = str "hey"
  /\ CommandHandlerMonitor (Sample.bot "hey " (Sample.registry "ping" Sample.ping))
                           (Sample.context "hey --help") Sample.fresh
     = (Panicked (RuntimeError "slice bounds out of range"), Sample.fresh)
  /\ Strings.HasPrefix (str "--go ping") (str "--go ") = true
  /\ fst (cleanContent (str "--go ping")) = str "ping"
  /\ CommandHandlerMonitor (Sample.bot "--go " (Sample.registry "ping" Sample.ping))
                           (Sample.context "--go ping") Sample.fresh
     = (Panicked (RuntimeError "slice bounds out of range"), Sample.fresh).
Proof. vm_compute. repeat split; reflexivity. Qed.

(** C4 fails on the code.  [strings.Split] never returns an empty
    slice, so the test [len(split) < 1] never ends the function: for a
    message that is only the prefix, or the prefix and flags, the split
    of the empty rest is the one empty token, and the command named by
    the empty string is looked up; where one is registered, its handler
    is run. *)
Theorem C4_empty_token_is_looked_up :
  (forall s, (length (Strings.Split s (str " ")) <? 1)%nat = false)
  /\ Strings.Split [] (str " ") = [[]]
  /\ CommandHandlerMonitor
       (Sample.bot "!" (Sample.registry "" (Sample.command "" true false false)))
       (Sample.context "!") Sample.fresh
     = (Ok tt, mkWorld [Invoked (Sample.handed "" "!" "!" [] ∅)] 1)
  /\ CommandHandlerMonitor
       (Sample.bot "!" (Sample.registry "" (Sample.command "" true false false)))
       (Sample.context "! --loud") Sample.fresh
     = (Ok tt, mkWorld [Invoked (Sample.handed "" "! --loud" "!" []
                                               {[str "loud" := str "loud"]})] 1).
Proof.
  split; [apply Split_space_nonempty|]. vm_compute. repeat split; reflexivity.
Qed.

(** What the function does for an empty rest in general: it looks up
    the empty name, and returns quietly when no command has it. *)
Lemma empty_rest_without_command bot ctx content flags w :
  Strings.HasPrefix (Content (ctx_Message ctx))
                    (Prefix bot (ctx_Message ctx) (isDM (ctx_Channel ctx))) = true ->
  cleanContent (Content (ctx_Message ctx)) = (content, Ok flags) ->
  slice_from content
             (length (Prefix bot (ctx_Message ctx) (isDM (ctx_Channel ctx))))
  = Some [] ->
  GetCommand bot [] = None ->
  CommandHandlerMonitor bot ctx w = (Ok tt, w).
Proof.
  intros Hprefix Hclean Hslice Hcmd. unfold CommandHandlerMonitor.
  rewrite Hprefix. cbn [negb]. rewrite Hclean, Hslice.
  cbn. by rewrite Hcmd.
Qed.

(** ** Cleaning the content *)

Lemma cleanContent_unfold content :
  cleanContent content
  = (Strings.Trim (collapseRuns false (withoutFlags content)) (str " "),
     Ok (foldl putFlag ∅ (flagTokens content))).
Proof.
  unfold cleanContent. rewrite stripFlags_tokens. by rewrite delim_collapse.
Qed.

Lemma collapseRuns_noSpaceRun b s :
  noSpaceRun (collapseRuns b s) = true
  /\ (b = true -> match collapseRuns b s with
                  | c :: _ => spaceByte c = false
                  | [] => True
                  end).
Proof.
  revert b. induction s as [|c s IH]; intros b; [done|].
  cbn [collapseRuns]. destruct (spaceByte c) eqn:Hc.
  - destruct b.
    + apply IH.
    + split; [|done]. destruct (IH true) as [H1 H2]. specialize (H2 eq_refl).
      cbn [noSpaceRun]. destruct (collapseRuns true s) as [|d t]; [done|].
      rewrite H2, andb_false_r. done.
  - split; [|done]. destruct (IH false) as [H1 _].
    cbn [noSpaceRun]. destruct (collapseRuns false s) as [|d t]; [done|].
    by rewrite Hc.
Qed.

Lemma collapseRuns_run c run_ rest :
  spaceByte c = true -> forallb spaceByte run_ = true -> notSpaceNext rest = true ->
  collapseRuns false (c :: run_ ++ rest) = c :: collapseRuns false rest.
Proof.
  intros Hc Hrun Hrest. cbn [collapseRuns]. rewrite Hc.
  by rewrite collapseRuns_skip.
Qed.

Lemma trimLeft_spec s cutset :
  exists lead,
    s = lead ++ Strings.trimLeft s cutset
    /\ Forall (fun c => c ∈ cutset) lead
    /\ match Strings.trimLeft s cutset with
       | c :: _ => c ∉ cutset
       | [] => True
       end.
Proof.
  induction s as [|c s (lead & Hs & Hlead & Hhd)]; [by exists []|].
  cbn [Strings.trimLeft]. unfold Strings.inCutset.
  destruct (bool_decide (c ∈ cutset)) eqn:Hc.
  - apply bool_decide_eq_true in Hc. exists (c :: lead).
    split; [cbn; by f_equal|]. split; [by constructor | done].
  - apply bool_decide_eq_false in Hc. by exists [].
Qed.

(** [strings.Trim] takes bytes of the cutset off both ends, and only
    those, until neither end is in the cutset. *)
Lemma Trim_spec s cutset :
  exists lead trail,
    s = lead ++ Strings.Trim s cutset ++ trail
    /\ Forall (fun c => c ∈ cutset) lead
    /\ Forall (fun c => c ∈ cutset) trail
    /\ match last (Strings.Trim s cutset) with
       | Some c => c ∉ cutset
       | None => True
       end
    /\ match Strings.Trim s cutset with
       | c :: _ => c ∉ cutset
       | [] => True
       end.
Proof.
  unfold Strings.Trim, Strings.trimRight.
  destruct (trimLeft_spec s cutset) as (lead & Hs & Hlead & Hhd).
  set (t := Strings.trimLeft s cutset) in *.
  destruct (trimLeft_spec (reverse t) cutset) as (rtrail & Ht & Htrail & Hlast).
  set (u := Strings.trimLeft (reverse t) cutset) in *.
  exists lead, (reverse rtrail).
  assert (t = reverse u ++ reverse rtrail) as Ht'.
  { rewrite <- reverse_app, <- Ht. by rewrite reverse_involutive. }
  split; [by rewrite <- Ht'|]. split; [done|].
  split; [by apply Forall_reverse|]. split.
  - rewrite last_reverse. by destruct u.
  - destruct (reverse u) as [|c r] eqn:Hr; [done|].
    rewrite Ht' in Hhd. cbn in Hhd. done.
Qed.

(** ** Flags and whitespace in a message *)

(** C5.  A message with the flag [--msg=] and its double-quoted value
    with two escaped quotes, among text without hyphens and em dashes:
    the key [msg] gets the text between the outer quotes byte for byte,
    backslashes included, and the whole token, quotes and all, is cut
    out. *)
Theorem C5_escaped_quotes_stay pre post :
  plain pre = true -> plain post = true ->
  stripFlags (pre ++ escapedFlag ++ post)
  = (pre ++ post, Ok {[str "msg" := escapedValue]})
  /\ cleanContent (str "!say " ++ escapedFlag ++ str " now")
     = (str "!say now", Ok {[str "msg" := escapedValue]})
  /\ escapedValue
     = str "he said " ++ [backslashByte; quoteByte] ++ str "hi" ++ [backslashByte; quoteByte].
Proof.
  intros Hpre Hpost. split; [|split; [by vm_compute | done]].
  rewrite stripFlags_tokens.
  destruct (pieces_one_token pre escapedFlag post _ _ Hpre Hpost eq_refl eq_refl
                             (flagsRegex_escaped post)) as [-> ->].
  cbn [foldl]. unfold putFlag. by rewrite flagOf_escaped.
Qed.

Lemma C5_escaped_quotes_stay_witness :
  stripFlags (str "!say " ++ escapedFlag ++ str " now")
  = (str "!say " ++ str " now", Ok {[str "msg" := escapedValue]}).
Proof.
  apply (C5_escaped_quotes_stay (str "!say ") (str " now")); reflexivity.
Defined.

(** C6.  The token [--name] without a value (or the name after an em
    dash) stands for the flag that maps the name to itself, and that is
    what it puts into the map; in a message where it stands among text
    without hyphens and em dashes, and is not followed by a byte of the
    name or by [=], flag removal cuts it out and the map holds the name
    under the name. *)
Theorem C6_bare_flag_names_itself pre name post :
  plain pre = true -> isFlagName name = true ->
  plain post = true -> endsBareFlag post = true ->
  snd (cleanContent (pre ++ (str "--" ++ name) ++ post)) = Ok {[name := name]}
  /\ stripFlags (pre ++ (str "--" ++ name) ++ post) = (pre ++ post, Ok {[name := name]})
  /\ flagOf (str "--" ++ name) = (name, name)
  /\ flagOf (str "—" ++ name) = (name, name)
  /\ (forall flags, putFlag flags (str "--" ++ name) = <[name := name]> flags).
Proof.
  intros Hpre Hname Hpost Hend.
  pose proof (stripFlags_bare pre name post Hpre Hname Hpost Hend) as H.
  split; [unfold cleanContent; by rewrite H|]. split; [done|].
  split; [by apply flagOf_bare|]. split; [by apply flagOf_bare_emdash|].
  intros flags. unfold putFlag. by rewrite flagOf_bare.
Qed.

Lemma C6_bare_flag_names_itself_witness :
  snd (cleanContent (str "!run " ++ (str "--" ++ str "verbose") ++ str " now"))
  = Ok {[str "verbose" := str "verbose"]}.
Proof.
  apply (C6_bare_flag_names_itself (str "!run ") (str "verbose") (str " now"));
    reflexivity.
Defined.

(** C7.  The flag tokens of a message are the successive matches of
    the flag expression, left to right; flag removal cuts every one of
    them out of the text and puts them into the map in that order, a
    later one over an earlier one of the same name, so that each name
    ends up with the value of its rightmost token. *)
Theorem C7_rightmost_flag_wins content :
  concat (map pieceText (pieces flagsRegex flagsRegexGroups content)) = content
  /\ Forall (fun m => exists cap, matchHere flagsRegex m = Some (length m, cap))
            (flagTokens content)
  /\ stripFlags content
     = (withoutFlags content, Ok (foldl putFlag ∅ (flagTokens content)))
  /\ snd (cleanContent content) = Ok (foldl putFlag ∅ (flagTokens content))
  /\ (forall tokens token,
         foldl putFlag ∅ (tokens ++ [token]) = putFlag (foldl putFlag ∅ tokens) token)
  /\ (forall before token after,
         flagTokens content = before ++ token :: after ->
         Forall (fun t => (flagOf t).1 <> (flagOf token).1) after ->
         foldl putFlag ∅ (flagTokens content) !! (flagOf token).1
         = Some (flagOf token).2).
Proof.
  split; [apply pieces_concat; reflexivity|].
  split; [unfold flagTokens, pieces; apply scan_matched; reflexivity|].
  split; [apply stripFlags_tokens|].
  split; [by rewrite cleanContent_unfold|].
  split; [intros; apply foldl_putFlag_snoc|].
  intros before token after -> Hafter. by apply foldl_putFlag_last.
Qed.

Lemma C7_rightmost_flag_wins_witness :
  flagTokens (str "!cmd --level=1 --level=2 go") = [str "--level=1"; str "--level=2"]
  /\ withoutFlags (str "!cmd --level=1 --level=2 go") = str "!cmd   go"
  /\ foldl putFlag ∅ (flagTokens (str "!cmd --level=1 --level=2 go")) !! str "level"
     = Some (str "2").
Proof.
  split; [by vm_compute|]. split; [by vm_compute|].
  apply (proj2 (proj2 (proj2 (proj2 (proj2
           (C7_rightmost_flag_wins (str "!cmd --level=1 --level=2 go"))))))
           [str "--level=1"] (str "--level=2") []).
  - by vm_compute.
  - constructor.
Defined.

(** C10.  The keys of the flag map of any message are flag names: a
    word byte followed by one or more bytes of the name class, so at
    least two bytes.  A token [--c] with a single word byte [c], not
    followed by a byte of the name class, is not matched by the flag
    expression; where it stands among text without hyphens and em
    dashes the map stays empty and the text is left as it is. *)
Theorem C10_short_name_is_no_flag pre c post :
  plain pre = true -> wordByte c = true ->
  plain post = true -> endsToken post = true ->
  stripFlags (pre ++ (str "--" ++ [c]) ++ post)
  = (pre ++ (str "--" ++ [c]) ++ post, Ok ∅)
  /\ matchHere flagsRegex (str "--" ++ c :: post) = None
  /\ (forall content key,
         is_Some (foldl putFlag ∅ (flagTokens content) !! key) ->
         isFlagName key = true /\ (2 <= length key)%nat).
Proof.
  intros Hpre Hc Hpost Hend. split; [by apply stripFlags_short|]. split.
  - exact (proj1 (flagsRegex_short c post Hc Hend)).
  - intros content key H. apply flag_keys_are_names in H.
    split; [done | by apply isFlagName_length].
Qed.

Lemma C10_short_name_is_no_flag_witness :
  stripFlags (str "!run " ++ (str "--" ++ [ascii_of_N 118]) ++ str " now")
  = (str "!run " ++ (str "--" ++ [ascii_of_N 118]) ++ str " now", Ok ∅).
Proof.
  apply (C10_short_name_is_no_flag (str "!run ") (ascii_of_N 118) (str " now"));
    reflexivity.
Defined.

(** C8 (as the code has it).  After flag removal every run of two or
    more whitespace bytes is replaced by its first byte, a single space
    when the run starts with one, and the spaces, and only the spaces,
    at both ends are trimmed.  For the message [!cmd  --flag=x   arg1]
    with the prefix [!] this gives the cleaned text [!cmd arg1], the
    command token [cmd], the arguments [arg1] and the flag [flag] with
    the value [x]. *)
Theorem C8_whitespace_runs :
  (forall content,
      fst (cleanContent content)
      = Strings.Trim (collapseRuns false (withoutFlags content)) (str " "))
  /\ (forall s, ReplaceAllString delim delimGroups s [TRef 1] = collapseRuns false s)
  /\ (forall s, noSpaceRun (collapseRuns false s) = true)
  /\ (forall c run_ rest,
         spaceByte c = true -> forallb spaceByte run_ = true ->
         notSpaceNext rest = true ->
         collapseRuns false (c :: run_ ++ rest) = c :: collapseRuns false rest)
  /\ (forall s, exists lead trail,
         s = lead ++ Strings.Trim s (str " ") ++ trail
         /\ Forall (fun c => c = spaceChar) lead
         /\ Forall (fun c => c = spaceChar) trail
         /\ last (Strings.Trim s (str " ")) <> Some spaceChar
         /\ head (Strings.Trim s (str " ")) <> Some spaceChar)
  /\ fst (cleanContent (str "!cmd  --flag=x   arg1")) = str "!cmd arg1"
  /\ CommandHandlerMonitor
       (Sample.bot "!" (Sample.registry "cmd" (Sample.command "cmd" true false false)))
       (Sample.context "!cmd  --flag=x   arg1") Sample.fresh
     = (Ok tt,
        mkWorld [Invoked (Sample.handed "cmd" "!cmd  --flag=x   arg1" "!"
                                        [str "arg1"] {[str "flag" := str "x"]})] 1).
Proof.
  split; [intros; by rewrite cleanContent_unfold|].
  split; [apply delim_collapse|].
  split; [intros s; apply collapseRuns_noSpaceRun|].
  split; [apply collapseRuns_run|].
  split; [|split; by vm_compute].
  intros s. destruct (Trim_spec s (str " ")) as (lead & trail & Hs & Hl & Ht & Hlast & Hhd).
  exists lead, trail. split; [done|].
  assert (forall c : ascii, c ∈ str " " -> c = spaceChar) as Hin.
  { intros c Hc. apply list_elem_of_singleton in Hc. done. }
  split; [by eapply Forall_impl|]. split; [by eapply Forall_impl|].
  split.
  - destruct (last _) as [c|]; [|done]. intros [= ->]. apply Hlast.
    by apply list_elem_of_singleton.
  - destruct (Strings.Trim s (str " ")) as [|c t]; [done|]. intros [= ->]. apply Hhd.
    by apply list_elem_of_singleton.
Qed.

Lemma C8_whitespace_runs_witness :
  collapseRuns false (spaceChar :: [spaceChar; Sample.tab] ++ str "x")
  = spaceChar :: collapseRuns false (str "x").
Proof.
  apply (proj1 (proj2 (proj2 (proj2 C8_whitespace_runs)))
               spaceChar [spaceChar; Sample.tab] (str "x"));
    reflexivity.
Defined.

(** C8 as stated fails: a run of two tabs collapses into a tab, not a
    space, and a line feed at the end is not trimmed. *)
Lemma C8_counterexample :
  fst (cleanContent (str "!a" ++ [Sample.tab; Sample.tab] ++ str "b"))
  = str "!a" ++ [Sample.tab] ++ str "b"
  /\ ~ In spaceChar (fst (cleanContent (str "!a" ++ [Sample.tab; Sample.tab] ++ str "b")))
  /\ fst (cleanContent (str "!ab" ++ [Sample.lineFeed]))
     = str "!ab" ++ [Sample.lineFeed]
  /\ spaceByte Sample.tab = true /\ spaceByte Sample.lineFeed = true.
Proof.
  split; [by vm_compute|]. split; [|by vm_compute].
  vm_compute. intros H. repeat (destruct H as [H|H]; [discriminate H|]). exact H.
Qed.

(** * Further properties of the listener *)

Lemma eligibleCalls_skip s m monitor rest :
  eligible s m monitor = None ->
  eligibleCalls s m (monitor :: rest) = eligibleCalls s m rest.
Proof. intros E. unfold eligibleCalls. cbn [omap list_omap]. by rewrite E. Qed.

Lemma eligibleCalls_call s m monitor rest ctx :
  eligible s m monitor = Some ctx ->
  eligibleCalls s m (monitor :: rest)
  = (Name monitor, ctx) :: eligibleCalls s m rest.
Proof. intros E. unfold eligibleCalls. cbn [omap list_omap]. by rewrite E. Qed.

Lemma rangeMonitors_calls bot s m monitors :
  forall w,
    snd (fst (rangeMonitors bot s m monitors w)) `prefix_of` eligibleCalls s m monitors
    /\ (fst (fst (rangeMonitors bot s m monitors w)) = Ok tt ->
        snd (fst (rangeMonitors bot s m monitors w)) = eligibleCalls s m monitors).
Proof.
  induction monitors as [|monitor rest IH]; intros w; [done|].
  destruct (eligible s m monitor) as [ctx|] eqn:E.
  - rewrite (rangeMonitors_call bot s m monitor rest w ctx E), (eligibleCalls_call _ _ _ _ _ E).
    destruct (Run monitor bot ctx w) as [[u|v] w'].
    + specialize (IH w').
      destruct (rangeMonitors bot s m rest w') as [[r calls] w'']. cbn in *.
      destruct IH as [IH1 IH2]. split.
      * by apply prefix_cons.
      * intros ->. by rewrite IH2.
    + cbn. split; [|done]. apply prefix_cons, prefix_nil.
  - rewrite (rangeMonitors_skip bot s m monitor rest w E), (eligibleCalls_skip _ _ _ _ E).
    apply IH.
Qed.

Lemma rangeMonitors_returns bot s m monitors :
  (forall monitor ctx w, monitor ∈ monitors -> fst (Run monitor bot ctx w) = Ok tt) ->
  forall w, fst (fst (rangeMonitors bot s m monitors w)) = Ok tt.
Proof.
  induction monitors as [|monitor rest IH]; intros Hrun w; [done|].
  destruct (eligible s m monitor) as [ctx|] eqn:E.
  - rewrite (rangeMonitors_call bot s m monitor rest w ctx E).
    pose proof (Hrun monitor ctx w ltac:(left)) as Hok.
    destruct (Run monitor bot ctx w) as [[u|v] w']; [|done].
    specialize (IH (fun mo c w0 H => Hrun mo c w0 ltac:(by right)) w').
    by destruct (rangeMonitors bot s m rest w') as [[r calls] w''].
  - rewrite (rangeMonitors_skip bot s m monitor rest w E).
    apply IH. intros mo c w0 H. apply Hrun. by right.
Qed.

Lemma rangeMonitors_invariant (P : World -> Prop) bot s m monitors :
  (forall monitor ctx w, monitor ∈ monitors -> P w -> P (snd (Run monitor bot ctx w))) ->
  forall w, P w -> P (snd (rangeMonitors bot s m monitors w)).
Proof.
  induction monitors as [|monitor rest IH]; intros Hrun w Hw; [done|].
  destruct (eligible s m monitor) as [ctx|] eqn:E.
  - rewrite (rangeMonitors_call bot s m monitor rest w ctx E).
    pose proof (Hrun monitor ctx w ltac:(left) Hw) as Hw'.
    destruct (Run monitor bot ctx w) as [[u|v] w']; [|done].
    specialize (IH (fun mo c w0 H => Hrun mo c w0 ltac:(by right)) w' Hw').
    by destruct (rangeMonitors bot s m rest w') as [[r calls] w''].
  - rewrite (rangeMonitors_skip bot s m monitor rest w E).
    apply IH; [|done]. intros mo c w0 H. apply Hrun. by right.
Qed.

Lemma eligible_no_channel s m monitor :
  State_Channel s (ChannelID m) = None -> eligible s m monitor = None.
Proof.
  intros E. unfold eligible. rewrite E.
  repeat (match goal with |- context [if ?b then _ else _] => destruct b end; try done).
Qed.

Lemma rangeMonitors_none bot s m monitors w :
  Forall (fun monitor => eligible s m monitor = None) monitors ->
  rangeMonitors bot s m monitors w = (Ok tt, [], w).
Proof.
  induction 1 as [|monitor rest E _ IH]; [done|].
  by rewrite (rangeMonitors_skip bot s m monitor rest w E).
Qed.

(** What [eligible] answers with, gate by gate. *)
Lemma eligible_Some s m monitor ctx :
  eligible s m monitor = Some ctx <->
  Enabled monitor = true
  /\ (exists guild, resolvedGuild s m = Some guild
                    /\ (GuildOnly monitor = true -> guild <> None)
                    /\ ctx_Guild ctx = guild)
  /\ (IgnoreSelf monitor = true -> fromSelf s m = false)
  /\ (IgnoreBots monitor = true -> User_Bot (Message_Author m) = false)
  /\ (IgnoreWebhooks monitor = true -> isEmpty (WebhookID m) = true)
  /\ (exists channel, State_Channel s (ChannelID m) = Some channel
                      /\ ctx = mkMonitorContext m channel s (Message_Author m)
                                                (Name monitor) (ctx_Guild ctx)).
Proof.
  unfold eligible, resolvedGuild, fromSelf.
  destruct (Enabled monitor), (isEmpty (GuildID m)), (State_Guild s (GuildID m)),
    (GuildOnly monitor), (IgnoreSelf monitor), (IgnoreBots monitor),
    (IgnoreWebhooks monitor),
    (gostring_eqb (User_ID (Message_Author m)) (User_ID (State_User s))),
    (User_Bot (Message_Author m)), (isEmpty (WebhookID m)),
    (State_Channel s (ChannelID m)); cbn;
    (split; [intros [= <-] | intros (? & (? & ? & ? & ?) & ? & ? & ? & (? & ? & ?))]);
    repeat match goal with H : true = true -> _ |- _ => specialize (H eq_refl) end;
    simplify_eq/=; try done.
  all: try (repeat split; try done; eauto; fail).
  all: try (destruct ctx; simplify_eq/=; done).
Qed.

Lemma rangeMonitors_singleton bot s m monitor w :
  snd (fst (rangeMonitors bot s m [monitor] w)) = eligibleCalls s m [monitor].
Proof.
  destruct (eligible s m monitor) as [ctx|] eqn:E.
  - rewrite (rangeMonitors_call bot s m monitor [] w ctx E),
      (eligibleCalls_call _ _ _ _ _ E).
    by destruct (Run monitor bot ctx w) as [[u|v] w'].
  - by rewrite (rangeMonitors_skip bot s m monitor [] w E),
      (eligibleCalls_skip _ _ _ _ E).
Qed.

(** Two monitors with the same name and handler that the gates treat
    alike for a message can stand for each other in the list. *)
Lemma rangeMonitors_congr bot s m monitor1 monitor2 after :
  Name monitor1 = Name monitor2 -> Run monitor1 = Run monitor2 ->
  eligible s m monitor1 = eligible s m monitor2 ->
  forall before w,
    rangeMonitors bot s m (before ++ monitor1 :: after) w
    = rangeMonitors bot s m (before ++ monitor2 :: after) w.
Proof.
  intros Hname Hrun Hel before.
  induction before as [|monitor rest IH]; intros w; cbn [app].
  - destruct (eligible s m monitor2) as [ctx|] eqn:E.
    + rewrite (rangeMonitors_call bot s m monitor1 after w ctx Hel),
        (rangeMonitors_call bot s m monitor2 after w ctx E).
      by rewrite Hname, Hrun.
    + by rewrite (rangeMonitors_skip bot s m monitor1 after w Hel),
        (rangeMonitors_skip bot s m monitor2 after w E).
  - destruct (eligible s m monitor) as [ctx|] eqn:E.
    + rewrite !(rangeMonitors_call bot s m monitor _ w ctx E).
      destruct (Run monitor bot ctx w) as [[u|v] w']; [|done].
      by rewrite IH.
    + by rewrite !(rangeMonitors_skip bot s m monitor _ w E).
Qed.

Lemma eligible_AllowBots s m monitor :
  User_Bot (Message_Author m) = false ->
  eligible s m (AllowBots monitor) = eligible s m monitor.
Proof. intros E. unfold eligible. cbn. by rewrite E. Qed.

Lemma eligible_AllowWebhooks s m monitor :
  isEmpty (WebhookID m) = true ->
  eligible s m (AllowWebhooks monitor) = eligible s m monitor.
Proof. intros E. unfold eligible. cbn. by rewrite E. Qed.

Lemma eligible_AllowSelf s m monitor :
  fromSelf s m = false ->
  eligible s m (AllowSelf monitor) = eligible s m monitor.
Proof. unfold fromSelf. intros E. unfold eligible. cbn. by rewrite E. Qed.

Lemma eligible_SetGuildOnly s m monitor toggle :
  isEmpty (GuildID m) = false ->
  eligible s m (SetGuildOnly monitor toggle) = eligible s m monitor.
Proof.
  intros E. unfold eligible. cbn. rewrite E. cbn.
  destruct (State_Guild s (GuildID m)); cbn; by rewrite ?andb_false_r.
Qed.

Lemma calls_prefix_of_eligible bot monitors s m w :
  snd (fst (monitorListener bot monitors s m w))
    `prefix_of` eligibleCalls s m monitors
  /\ (fst (fst (monitorListener bot monitors s m w)) = Ok tt ->
      snd (fst (monitorListener bot monitors s m w)) = eligibleCalls s m monitors).
Proof. rewrite monitorListener_unfold. apply rangeMonitors_calls. Qed.

(** ** What the listener calls *)

(** X1.  Whatever the handlers do, the listener calls handlers in the
    order of registration and only those of eligible monitors: the calls
    it makes are an initial part of the list of the eligible monitors.
    When it returns normally they are the whole list. *)
Theorem listener_calls_follow_registration bot monitors s m w :
  snd (fst (monitorListener bot monitors s m w))
    `prefix_of` eligibleCalls s m monitors
  /\ (fst (fst (monitorListener bot monitors s m w)) = Ok tt ->
      snd (fst (monitorListener bot monitors s m w)) = eligibleCalls s m monitors).
Proof. rewrite monitorListener_unfold. apply rangeMonitors_calls. Qed.

(** X2.  When the handlers of the registered monitors return, the
    listener returns, and it has called every eligible monitor once, in
    the order of registration. *)
Theorem listener_calls_every_eligible bot monitors s m w :
  (forall monitor ctx w0,
      monitor ∈ monitors -> fst (Run monitor bot ctx w0) = Ok tt) ->
  fst (monitorListener bot monitors s m w)
  = (Ok tt, eligibleCalls s m monitors).
Proof.
  intros Hrun. rewrite monitorListener_unfold.
  pose proof (rangeMonitors_returns bot s m monitors Hrun w) as Hok.
  pose proof (rangeMonitors_calls bot s m monitors w) as [_ Hcalls].
  destruct (rangeMonitors bot s m monitors w) as [[r calls] w']. cbn in *.
  by rewrite Hok, (Hcalls Hok).
Qed.

Lemma listener_calls_every_eligible_witness :
  fst (monitorListener (Sample.bot "!" (fun _ => None))
                       [Sample.B; AllowBots Sample.B; SetGuildOnly Sample.B true]
                       Sample.session (Sample.direct "hello") Sample.fresh)
  = (Ok tt,
     eligibleCalls Sample.session (Sample.direct "hello")
                   [Sample.B; AllowBots Sample.B; SetGuildOnly Sample.B true]).
Proof.
  apply listener_calls_every_eligible.
  intros monitor ctx w0 Hin.
  repeat (apply elem_of_cons in Hin as [->|Hin]; [reflexivity|]).
  by apply elem_of_nil in Hin.
Defined.

(** X3.  The listener touches the state the handlers share only through
    the handlers it calls: a property of the state that every handler
    keeps, whether it returns or panics, holds after the listener.  In
    particular the listener itself reports nothing to the error handler
    and counts no command. *)
Theorem listener_keeps_invariant (P : World -> Prop) bot monitors s m w :
  P w ->
  (forall monitor ctx w0,
      monitor ∈ monitors -> P w0 -> P (snd (Run monitor bot ctx w0))) ->
  P (snd (monitorListener bot monitors s m w)).
Proof.
  intros Hw Hrun. rewrite monitorListener_unfold.
  by apply rangeMonitors_invariant.
Qed.

Lemma listener_keeps_invariant_witness :
  reported (snd (monitorListener (Sample.bot "!" (fun _ => None))
                                 [Sample.B; Sample.A; Sample.B]
                                 Sample.session (Sample.direct "hello")
                                 Sample.fresh))
  = false.
Proof.
  apply (listener_keeps_invariant (fun w => reported w = false)); [reflexivity|].
  intros monitor ctx w0 Hin Hw0.
  repeat (apply elem_of_cons in Hin as [->|Hin];
          [first [exact Hw0
                 | cbn; unfold reported in *; cbn;
                   rewrite existsb_app, Hw0; reflexivity]|]).
  by apply elem_of_nil in Hin.
Defined.

(** X4.  When the state holds no channel for the message's channel id,
    no monitor is called and the state is left as it was. *)
Theorem listener_unknown_channel bot monitors s m w :
  State_Channel s (ChannelID m) = None ->
  monitorListener bot monitors s m w = (Ok tt, [], w).
Proof.
  intros E. rewrite monitorListener_unfold. apply rangeMonitors_none.
  apply Forall_forall. intros monitor _. by apply eligible_no_channel.
Qed.

Lemma listener_unknown_channel_witness :
  monitorListener (Sample.bot "!" (fun _ => None)) [Sample.B; Sample.A]
                  Sample.session
                  (mkMessage (str "hello") [] (str "nowhere") [] Sample.alice)
                  Sample.fresh
  = (Ok tt, [], Sample.fresh).
Proof. apply listener_unknown_channel. reflexivity. Defined.

Lemma eligibleCalls_inv s m monitors call :
  call ∈ eligibleCalls s m monitors ->
  exists monitor,
    monitor ∈ monitors /\ Name monitor = call.1
    /\ eligible s m monitor = Some call.2.
Proof.
  unfold eligibleCalls. intros (monitor & Hin & Hcall)%list_elem_of_omap.
  exists monitor. split; [done|].
  destruct (eligible s m monitor) as [ctx|]; [|done].
  cbn in Hcall. by injection Hcall as <-.
Qed.

(** X5.  Every call the listener makes respects the gates, whatever the
    other handlers did: the monitor called is registered and enabled; a
    guild-only monitor is called with a guild; a monitor that ignores
    the bot's own messages, bots or webhooks is not called for one; and
    the context holds the message, its author, the session, the channel
    and the guild the state resolves, and the monitor's name. *)
Theorem listener_call_respects_gates bot monitors s m w :
  Forall (fun call : Invocation =>
            exists monitor,
              monitor ∈ monitors /\ Name monitor = call.1
              /\ Enabled monitor = true
              /\ (GuildOnly monitor = true -> ctx_Guild call.2 <> None)
              /\ (IgnoreSelf monitor = true -> fromSelf s m = false)
              /\ (IgnoreBots monitor = true -> User_Bot (Message_Author m) = false)
              /\ (IgnoreWebhooks monitor = true -> isEmpty (WebhookID m) = true)
              /\ resolvedGuild s m = Some (ctx_Guild call.2)
              /\ State_Channel s (ChannelID m) = Some (ctx_Channel call.2)
              /\ ctx_Message call.2 = m
              /\ ctx_Author call.2 = Message_Author m
              /\ ctx_Session call.2 = s
              /\ ctx_Monitor call.2 = call.1)
         (snd (fst (monitorListener bot monitors s m w))).
Proof.
  apply Forall_forall. intros call Hin.
  destruct (calls_prefix_of_eligible bot monitors s m w) as [Hpre _].
  destruct (eligibleCalls_inv s m monitors call) as (monitor & Hmon & Hname & Hel).
  { destruct Hpre as [rest ->]. apply elem_of_app. by left. }
  apply eligible_Some in Hel
    as (Hen & (guild & Hguild & Honly & Hg) & Hself & Hbots & Hhooks
        & (channel & Hch & Hctx)).
  exists monitor. rewrite Hctx. cbn.
  repeat split; try done.
  - intros H. rewrite Hg. by apply Honly.
  - by rewrite Hg.
Qed.

(** ** The gates a new monitor starts with, and the builders *)

Lemma called_singleton name ctx : called name [(name, ctx)] = true.
Proof.
  unfold called, gostring_eqb. cbn. by rewrite bool_decide_eq_true_2.
Qed.

(** X6.  A monitor as [NewMonitor] makes it is called for a message
    exactly when the message comes neither from the bot itself, nor from
    a bot, nor from a webhook, and the state resolves its channel and,
    if it has a guild id, its guild. *)
Theorem NewMonitor_is_called_iff bot name handler s m w :
  called name (snd (fst (monitorListener bot [NewMonitor name handler] s m w)))
  = true
  <-> fromSelf s m = false
      /\ User_Bot (Message_Author m) = false
      /\ isEmpty (WebhookID m) = true
      /\ is_Some (resolvedGuild s m)
      /\ is_Some (State_Channel s (ChannelID m)).
Proof.
  rewrite monitorListener_unfold, rangeMonitors_singleton.
  destruct (eligible s m (NewMonitor name handler)) as [ctx|] eqn:E.
  - rewrite (eligibleCalls_call _ _ _ _ _ E). cbn [Name NewMonitor eligibleCalls omap list_omap].
    rewrite called_singleton.
    apply eligible_Some in E
      as (_ & (guild & Hguild & _ & _) & Hself & Hbots & Hhooks & (channel & Hch & _)).
    split; [intros _|done]. rewrite Hguild, Hch. repeat split; eauto.
  - rewrite (eligibleCalls_skip _ _ _ _ E). cbn.
    split; [done|]. intros (Hself & Hbots & Hhooks & [guild Hguild] & [channel Hch]).
    assert (is_Some (eligible s m (NewMonitor name handler))) as [ctx Hctx];
      [|by rewrite E in Hctx].
    exists (mkMonitorContext m channel s (Message_Author m) name guild).
    apply eligible_Some. cbn. repeat split; try done; eauto.
Qed.

(** X7.  A builder changes the treatment of its own kind of message
    only.  Wherever the monitor stands in the list, the listener does
    the same with and without [AllowBots] for a message that is not from
    a bot, with and without [AllowWebhooks] for one that is not from a
    webhook, with and without [AllowSelf] for one that is not the bot's
    own, and whatever [SetGuildOnly] is given for one with a guild id. *)
Theorem builders_leave_other_messages bot before monitor after s m w :
  (User_Bot (Message_Author m) = false ->
   monitorListener bot (before ++ AllowBots monitor :: after) s m w
   = monitorListener bot (before ++ monitor :: after) s m w)
  /\ (isEmpty (WebhookID m) = true ->
      monitorListener bot (before ++ AllowWebhooks monitor :: after) s m w
      = monitorListener bot (before ++ monitor :: after) s m w)
  /\ (fromSelf s m = false ->
      monitorListener bot (before ++ AllowSelf monitor :: after) s m w
      = monitorListener bot (before ++ monitor :: after) s m w)
  /\ (forall toggle,
         isEmpty (GuildID m) = false ->
         monitorListener bot (before ++ SetGuildOnly monitor toggle :: after) s m w
         = monitorListener bot (before ++ monitor :: after) s m w).
Proof.
  repeat split; [intros E..|intros toggle E];
    rewrite !monitorListener_unfold; apply rangeMonitors_congr; try done.
  - by apply eligible_AllowBots.
  - by apply eligible_AllowWebhooks.
  - by apply eligible_AllowSelf.
  - by apply eligible_SetGuildOnly.
Qed.

(** X8.  The gates are tested one after the other, so the builders add
    up: for the own message of a bot whose account is flagged as a bot,
    [AllowSelf] alone and [AllowBots] alone leave a new monitor silent,
    and both together let it be called. *)
Theorem own_messages_need_both_builders bot name handler s m w :
  fromSelf s m = true -> User_Bot (Message_Author m) = true ->
  monitorListener bot [AllowSelf (NewMonitor name handler)] s m w = (Ok tt, [], w)
  /\ monitorListener bot [AllowBots (NewMonitor name handler)] s m w = (Ok tt, [], w)
  /\ (forall guild channel,
         isEmpty (WebhookID m) = true ->
         resolvedGuild s m = Some guild ->
         State_Channel s (ChannelID m) = Some channel ->
         snd (fst (monitorListener bot [AllowBots (AllowSelf (NewMonitor name handler))]
                                   s m w))
         = [(name, mkMonitorContext m channel s (Message_Author m) name guild)]).
Proof.
  intros Hself Hbot. rewrite !monitorListener_unfold.
  assert (forall monitor, IgnoreSelf monitor = true \/ IgnoreBots monitor = true ->
                          eligible s m monitor = None) as Hnone.
  { intros monitor H. destruct (eligible s m monitor) as [ctx|] eqn:E; [|done].
    apply eligible_Some in E as (_ & _ & Hs & Hb & _).
    destruct H as [H|H]; [specialize (Hs H)|specialize (Hb H)]; congruence. }
  split; [|split].
  - apply rangeMonitors_none. constructor; [|done]. apply Hnone. by right.
  - apply rangeMonitors_none. constructor; [|done]. apply Hnone. by left.
  - intros guild channel Hhook Hguild Hch.
    rewrite rangeMonitors_singleton.
    erewrite eligibleCalls_call; [done|].
    apply eligible_Some. cbn. repeat split; try done; eauto.
Qed.

Lemma own_messages_need_both_builders_witness :
  monitorListener (Sample.bot "!" (fun _ => None))
                  [AllowSelf (NewMonitor (str "echo") (Sample.say "echo"))]
                  Sample.session
                  (mkMessage (str "hello") [] (str "dm") [] Sample.self)
                  Sample.fresh
  = (Ok tt, [], Sample.fresh).
Proof.
  exact (proj1 (own_messages_need_both_builders
                  (Sample.bot "!" (fun _ => None)) (str "echo") (Sample.say "echo")
                  Sample.session
                  (mkMessage (str "hello") [] (str "dm") [] Sample.self)
                  Sample.fresh eq_refl eq_refl)).
Defined.

(** ** A panic under the listener *)

(** X9.  Nothing recovers a panic under the listener: when the handler
    of an eligible monitor panics, the listener ends with that panic,
    and it leaves the state as the handler left it, without a call of
    the error handler.  So a panic of the command monitor, such as the
    slice out of range, reaches the caller of the listener. *)
Theorem panic_leaves_listener bot s m before monitor after w calls w1 ctx v w2 :
  rangeMonitors bot s m before w = (Ok tt, calls, w1) ->
  eligible s m monitor = Some ctx ->
  Run monitor bot ctx w1 = (Panicked v, w2) ->
  monitorListener bot (before ++ monitor :: after) s m w
  = (Panicked v, calls ++ [(Name monitor, ctx)], w2).
Proof.
  intros Hbefore Hel Hrun. rewrite monitorListener_unfold.
  by eapply rangeMonitors_panic.
Qed.

Lemma panic_leaves_listener_witness :
  monitorListener (Sample.bot "hey " (Sample.registry "ping" Sample.ping))
                  ([Sample.B] ++ NewMonitor (str "commands") CommandHandlerMonitor
                              :: [Sample.B])
                  Sample.session (Sample.direct "hey --help") Sample.fresh
  = (Panicked (RuntimeError "slice bounds out of range"),
     [(str "B", mkMonitorContext (Sample.direct "hey --help") Sample.dm
                                 Sample.session Sample.alice (str "B") None)]
       ++ [(Name (NewMonitor (str "commands") CommandHandlerMonitor),
            mkMonitorContext (Sample.direct "hey --help") Sample.dm
                             Sample.session Sample.alice (str "commands") None)],
     mkWorld [Did "B ran"] 0).
Proof.
  apply (panic_leaves_listener
           (Sample.bot "hey " (Sample.registry "ping" Sample.ping))
           Sample.session (Sample.direct "hey --help") [Sample.B]
           (NewMonitor (str "commands") CommandHandlerMonitor) [Sample.B]
           Sample.fresh _ (mkWorld [Did "B ran"] 0)); reflexivity.
Defined.

(** * Further properties of the cleaned content *)

(** ** Cleaning only takes bytes away *)

Lemma unmatchedText_sublist ps :
  unmatchedText ps `sublist_of` concat (map pieceText ps).
Proof.
  induction ps as [|[text|subs] ps IH]; [done|..].
  - rewrite unmatchedText_unmatched. cbn. by apply sublist_app.
  - rewrite unmatchedText_matched. cbn. by apply sublist_inserts_l.
Qed.

Lemma withoutFlags_sublist content : withoutFlags content `sublist_of` content.
Proof.
  unfold withoutFlags.
  rewrite <- (pieces_concat flagsRegex flagsRegexGroups eq_refl content) at 2.
  apply unmatchedText_sublist.
Qed.

Lemma collapseRuns_sublist b s : collapseRuns b s `sublist_of` s.
Proof.
  revert b. induction s as [|c t IH]; intros b; cbn [collapseRuns]; [done|].
  destruct (spaceByte c); [destruct b|];
    first [by apply sublist_skip | by apply sublist_cons].
Qed.

Lemma Trim_sublist s cutset : Strings.Trim s cutset `sublist_of` s.
Proof.
  destruct (Trim_spec s cutset) as (lead & trail & Hs & _).
  rewrite Hs at 2. apply sublist_inserts_l, sublist_inserts_r. done.
Qed.

Lemma cleanContent_sublist content : fst (cleanContent content) `sublist_of` content.
Proof.
  rewrite cleanContent_unfold. cbn [fst].
  etrans; [apply Trim_sublist|]. etrans; [apply collapseRuns_sublist|].
  apply withoutFlags_sublist.
Qed.

(** ** The flags of a message *)

Lemma firstNonEmpty_Some elems e : firstNonEmpty elems = Some e -> e <> [].
Proof.
  unfold firstNonEmpty. intros H. apply find_some in H as [_ H]. by destruct e.
Qed.

Lemma flagOf_value m cap :
  matchHere flagsRegex m = Some (length m, cap) -> (flagOf m).2 <> [].
Proof.
  intros Hm. pose proof (flagOf_name m cap Hm) as Hname. revert Hname.
  unfold flagOf.
  destruct (FindStringSubmatch flagsRegex flagsRegexGroups m)
    as [[|sub0 [|name elems]]|]; cbn; try done.
  destruct (firstNonEmpty elems) as [e|] eqn:He; cbn.
  - intros _. by apply firstNonEmpty_Some in He.
  - by destruct name.
Qed.

Lemma flagTokens_matched content :
  Forall (fun m => exists cap, matchHere flagsRegex m = Some (length m, cap))
         (flagTokens content).
Proof. unfold flagTokens, pieces. apply scan_matched. reflexivity. Qed.

Lemma foldl_putFlag_lookup tokens :
  forall flags key value,
    foldl putFlag flags tokens !! key = Some value ->
    flags !! key = Some value
    \/ exists token, token ∈ tokens /\ flagOf token = (key, value).
Proof.
  induction tokens as [|token tokens IH] using rev_ind; intros flags key value;
    [by left|].
  rewrite foldl_putFlag_snoc. unfold putFlag at 1.
  destruct (decide ((flagOf token).1 = key)) as [<-|Hne].
  - rewrite lookup_insert_eq. intros [= <-]. right. exists token.
    split; [apply elem_of_app; right; by left | by destruct (flagOf token)].
  - rewrite lookup_insert_ne by done. intros H.
    apply IH in H as [H|(t & Hin & Ht)]; [by left|].
    right. exists t. split; [|done]. apply elem_of_app. by left.
Qed.

(** ** The cleaned content is in normal form *)

Lemma noSpaceRun_app a b :
  noSpaceRun (a ++ b) = true -> noSpaceRun a = true /\ noSpaceRun b = true.
Proof.
  induction a as [|c1 a IH]; cbn [app]; [done|].
  destruct a as [|c2 a].
  - cbn [app]. intros H. split; [done|].
    destruct b; [done|]. cbn [noSpaceRun] in H. by apply andb_true_iff in H as [_ H].
  - cbn [app noSpaceRun] in *. intros [H1 H2]%andb_true_iff.
    apply IH in H2 as [H2 H3]. by rewrite H1, H2, H3.
Qed.

Lemma collapseRuns_fixed s :
  forall b,
    noSpaceRun s = true -> (b = true -> notSpaceNext s = true) ->
    collapseRuns b s = s.
Proof.
  induction s as [|c t IH]; intros b Hrun Hb; [done|].
  cbn [collapseRuns]. destruct (spaceByte c) eqn:Hc.
  - destruct b.
    + specialize (Hb eq_refl). cbn [notSpaceNext] in Hb. by rewrite Hc in Hb.
    + f_equal. apply IH.
      * destruct t; [done|]. cbn [noSpaceRun] in Hrun.
        by apply andb_true_iff in Hrun as [_ Hrun].
      * intros _. destruct t as [|c2 t]; [done|]. cbn [noSpaceRun notSpaceNext] in *.
        apply andb_true_iff in Hrun as [Hrun _]. rewrite Hc in Hrun.
        by destruct (spaceByte c2).
  - f_equal. apply IH; [|done].
    destruct t; [done|]. cbn [noSpaceRun] in Hrun.
    by apply andb_true_iff in Hrun as [_ Hrun].
Qed.

Lemma trimLeft_fixed s cutset :
  match s with c :: _ => c ∉ cutset | [] => True end ->
  Strings.trimLeft s cutset = s.
Proof.
  destruct s as [|c t]; [done|]. intros H. cbn [Strings.trimLeft].
  unfold Strings.inCutset. by rewrite bool_decide_eq_false_2.
Qed.

Lemma Trim_fixed s cutset :
  match s with c :: _ => c ∉ cutset | [] => True end ->
  match last s with Some c => c ∉ cutset | None => True end ->
  Strings.Trim s cutset = s.
Proof.
  intros Hhd Hlast. unfold Strings.Trim, Strings.trimRight.
  rewrite (trimLeft_fixed s) by done.
  rewrite trimLeft_fixed; [apply reverse_involutive|].
  rewrite <- head_reverse in Hlast. by destruct (reverse s).
Qed.

Lemma Trim_trimmed s : trimmed (Strings.Trim s (str " ")) = true.
Proof.
  destruct (Trim_spec s (str " ")) as (lead & trail & _ & _ & _ & Hlast & Hhd).
  unfold trimmed. apply andb_true_iff.
  split; apply negb_true_iff, bool_decide_eq_false_2; intros H.
  - destruct (Strings.Trim s (str " ")) as [|c t]; [done|].
    injection H as ->. apply Hhd. by left.
  - rewrite H in Hlast. apply Hlast. by left.
Qed.

Lemma normalize_unfold s :
  normalize s = Strings.Trim (collapseRuns false s) (str " ").
Proof. unfold normalize. by rewrite delim_collapse. Qed.

Lemma normalize_noSpaceRun s : noSpaceRun (normalize s) = true.
Proof.
  rewrite normalize_unfold.
  destruct (Trim_spec (collapseRuns false s) (str " ")) as (lead & trail & Hs & _).
  pose proof (proj1 (collapseRuns_noSpaceRun false s)) as Hrun.
  rewrite Hs in Hrun. apply noSpaceRun_app in Hrun as [_ Hrun].
  by apply noSpaceRun_app in Hrun as [Hrun _].
Qed.

Lemma normalize_fixed s : normalize (normalize s) = normalize s.
Proof.
  rewrite (normalize_unfold (normalize s)).
  rewrite collapseRuns_fixed; [|apply normalize_noSpaceRun|done].
  rewrite normalize_unfold.
  destruct (Trim_spec (collapseRuns false s) (str " "))
    as (lead & trail & _ & _ & _ & Hlast & Hhd).
  by apply Trim_fixed.
Qed.

Lemma cleanContent_normalize content :
  fst (cleanContent content) = normalize (withoutFlags content).
Proof. by rewrite cleanContent_unfold, normalize_unfold. Qed.

(** ** A prefix that cleaning leaves in place *)

Lemma HasPrefix_app s prefix :
  Strings.HasPrefix s prefix = true -> exists rest, s = prefix ++ rest.
Proof.
  revert s. induction prefix as [|p prefix IH]; intros s H; [by exists s|].
  destruct s as [|c s]; [done|]. cbn [Strings.HasPrefix] in H.
  destruct (decide (p = c)) as [->|]; [|done].
  apply IH in H as [rest ->]. by exists rest.
Qed.

Lemma withoutFlags_keeps_plain n :
  forall pre s,
    (length pre <= n)%nat -> plain pre = true ->
    exists t, withoutFlags (pre ++ s) = pre ++ t.
Proof.
  induction n as [|n IH]; intros pre s Hlen Hpre.
  { destruct pre; [by eexists | cbn in Hlen; lia]. }
  destruct pre as [|c pre]; [by eexists|].
  pose proof Hpre as Hall.
  cbn [plain forallb] in Hpre. apply andb_true_iff in Hpre as [Hc Hpre].
  pose proof (width_pos c (pre ++ s)) as Hw0.
  unfold withoutFlags in *. cbn [app].
  rewrite (pieces_no_match flagsRegex _ eq_refl) by by apply flagsRegex_plain.
  rewrite unmatchedText_unmatched.
  change (c :: pre ++ s) with ((c :: pre) ++ s) in *.
  set (w := width ((c :: pre) ++ s)) in *.
  destruct (decide (w <= length (c :: pre))%nat) as [Hle|Hgt].
  - rewrite take_app_le, drop_app_le by done.
    destruct (IH (drop w (c :: pre)) s) as [t Ht].
    + rewrite length_drop. cbn [length] in *. lia.
    + by apply plain_drop.
    + exists t. rewrite Ht. by rewrite app_assoc, take_drop.
  - rewrite take_app_ge by lia. rewrite <- app_assoc. by eexists.
Qed.

Lemma collapseRuns_keeps pre t :
  Forall (fun c => spaceByte c = false) pre ->
  exists u, collapseRuns false (pre ++ t) = pre ++ u.
Proof.
  intros Hpre. destruct pre as [|c pre]; [by eexists|].
  rewrite collapseRuns_other by done. by eexists.
Qed.

Lemma trimLeft_keeps x y cutset :
  match y with c :: _ => c ∉ cutset | [] => False end ->
  exists z, Strings.trimLeft (x ++ y) cutset = z ++ y.
Proof.
  intros Hy. induction x as [|c x [z IH]]; cbn [app].
  - exists []. destruct y as [|c y]; [done|]. by rewrite trimLeft_fixed.
  - cbn [Strings.trimLeft]. destruct (Strings.inCutset cutset c).
    + by exists z.
    + by exists (c :: x).
Qed.

Lemma Trim_keeps pre t :
  Forall (fun c => spaceByte c = false) pre ->
  exists u, Strings.Trim (pre ++ t) (str " ") = pre ++ u.
Proof.
  induction pre as [|c pre _] using rev_ind; intros Hpre; [by eexists|].
  assert (forall b, spaceByte b = false -> b ∉ str " ") as Hno.
  { intros b Hb [->|[]%elem_of_nil]%elem_of_cons. done. }
  apply Forall_app in Hpre as [Hpre Hc]. apply Forall_cons in Hc as [Hc _].
  unfold Strings.Trim, Strings.trimRight.
  rewrite (trimLeft_fixed ((pre ++ [c]) ++ t)).
  2:{ destruct pre as [|b pre]; cbn [app]; [by apply Hno|].
      apply Forall_cons in Hpre as [Hb _]. by apply Hno. }
  rewrite !reverse_app. rewrite reverse_singleton. cbn [app].
  destruct (trimLeft_keeps (reverse t) (c :: reverse pre) (str " ")) as [z Hz];
    [by apply Hno|].
  rewrite Hz. exists (reverse z).
  rewrite reverse_app, reverse_cons, reverse_involutive. done.
Qed.

Lemma cleanContent_keeps_prefix prefix content :
  plain prefix = true -> Forall (fun c => spaceByte c = false) prefix ->
  Strings.HasPrefix content prefix = true ->
  exists rest, fst (cleanContent content) = prefix ++ rest.
Proof.
  intros Hplain Hspace [s ->]%HasPrefix_app.
  rewrite cleanContent_unfold. cbn [fst].
  destruct (withoutFlags_keeps_plain (length prefix) prefix s (le_n _) Hplain)
    as [t ->].
  destruct (collapseRuns_keeps prefix t Hspace) as [u ->].
  by apply Trim_keeps.
Qed.

(** ** Splitting at spaces *)

Lemma splitLoop_space c t cur :
  Strings.splitLoop (str " ") (c :: t) 0 cur
  = if decide (spaceChar = c)
    then cur :: Strings.splitLoop (str " ") t 0 []
    else Strings.splitLoop (str " ") t 0 (cur ++ [c]).
Proof.
  cbn [Strings.splitLoop Strings.HasPrefix str list_ascii_of_string length].
  change " "%char with spaceChar.
  destruct (decide (spaceChar = c)); [|done]. by destruct t.
Qed.

Lemma splitLoop_no_space s :
  forall cur,
    spaceChar ∉ cur ->
    Forall (fun token => spaceChar ∉ token) (Strings.splitLoop (str " ") s 0 cur).
Proof.
  induction s as [|c t IH]; intros cur Hcur.
  - by constructor.
  - rewrite splitLoop_space. destruct (decide (spaceChar = c)) as [<-|Hc].
    + constructor; [done|]. apply IH. apply not_elem_of_nil.
    + apply IH. intros [H|H]%elem_of_app; [done|].
      apply list_elem_of_singleton in H. done.
Qed.

Lemma splitLoop_bytes s :
  forall cur,
    Forall (fun token => forall c, c ∈ token -> c ∈ cur ++ s)
           (Strings.splitLoop (str " ") s 0 cur).
Proof.
  induction s as [|c t IH]; intros cur.
  - constructor; [|done]. intros b Hb. by rewrite app_nil_r.
  - rewrite splitLoop_space. destruct (decide (spaceChar = c)) as [<-|Hc].
    + constructor.
      * intros b Hb. apply elem_of_app. by left.
      * eapply Forall_impl; [apply (IH [])|]. cbn. intros token H b Hb.
        apply elem_of_app. right. right. by apply H.
    + eapply Forall_impl; [apply (IH (cur ++ [c]))|]. cbn. intros token H b Hb.
      specialize (H b Hb). by rewrite <- app_assoc in H.
Qed.

(** The pieces are not empty where the text has no two spaces in a row
    and no space at its end, from the first piece on if the text also
    starts with another byte or the piece has a byte already. *)
Lemma splitLoop_words s :
  forall cur,
    noSpaceRun s = true -> last s <> Some spaceChar ->
    cur <> [] \/ (exists c t, s = c :: t /\ c <> spaceChar) ->
    Forall (fun token => token <> []) (Strings.splitLoop (str " ") s 0 cur).
Proof.
  induction s as [|c t IH]; intros cur Hrun Hlast Hstart.
  - constructor; [|done]. by destruct Hstart as [?|(? & ? & ? & _)].
  - assert (noSpaceRun t = true) as Hrun'.
    { destruct t; [done|]. cbn [noSpaceRun] in Hrun.
      by apply andb_true_iff in Hrun as [_ Hrun]. }
    assert (last t <> Some spaceChar) as Hlast'.
    { destruct t; [done|]. done. }
    rewrite splitLoop_space. destruct (decide (spaceChar = c)) as [<-|Hc].
    + constructor.
      * destruct Hstart as [?|(? & ? & [= <- _] & ?)]; done.
      * apply IH; [done..|]. right.
        destruct t as [|c2 t]; [done|]. exists c2, t. split; [done|].
        intros ->. cbn [noSpaceRun] in Hrun. done.
    + apply IH; [done..|]. left. by destruct cur.
Qed.

Lemma splitLoop_arguments s :
  forall cur,
    noSpaceRun s = true -> last s <> Some spaceChar ->
    Forall (fun token => token <> [])
           (drop 1 (Strings.splitLoop (str " ") s 0 cur)).
Proof.
  induction s as [|c t IH]; intros cur Hrun Hlast; [done|].
  assert (noSpaceRun t = true) as Hrun'.
  { destruct t; [done|]. cbn [noSpaceRun] in Hrun.
    by apply andb_true_iff in Hrun as [_ Hrun]. }
  assert (last t <> Some spaceChar) as Hlast'.
  { destruct t; [done|]. done. }
  rewrite splitLoop_space. destruct (decide (spaceChar = c)) as [<-|Hc].
  - cbn [drop]. apply splitLoop_words; [done..|]. right.
    destruct t as [|c2 t]; [done|]. exists c2, t. split; [done|].
    intros ->. cbn [noSpaceRun] in Hrun. done.
  - by apply IH.
Qed.

Lemma splitLoop_first s :
  forall cur,
    hd [] (Strings.splitLoop (str " ") s 0 cur) = []
    <-> cur = [] /\ (s = [] \/ head s = Some spaceChar).
Proof.
  induction s as [|c t IH]; intros cur.
  - cbn. split; [intros ->; split; [done|by left] | by intros [-> _]].
  - rewrite splitLoop_space. destruct (decide (spaceChar = c)) as [<-|Hc].
    + cbn. split; [intros ->; split; [done|by right] | by intros [-> _]].
    + rewrite IH. split.
      * intros [H _]. by destruct cur.
      * intros [-> [H|[= H]]]; done.
Qed.

Lemma args_drop (split : list gostring) :
  (if (1 <? length split)%nat then drop 1 split else []) = drop 1 split.
Proof. by destruct split as [|a [|b split]]. Qed.

(** ** ASCII text and lower case *)

Lemma isASCII_Forall s :
  Strings.isASCII s = true <-> Forall (fun c => byteval c < 0x80) s.
Proof.
  unfold Strings.isASCII. rewrite forallb_forall, Forall_forall.
  split; intros H c Hc.
  - apply N.ltb_lt. apply H. by apply list_elem_of_In.
  - apply N.ltb_lt. apply H. by apply list_elem_of_In.
Qed.

Lemma isASCII_bytes a b :
  (forall c, c ∈ a -> c ∈ b) -> Strings.isASCII b = true -> Strings.isASCII a = true.
Proof.
  rewrite !isASCII_Forall, !Forall_forall. intros Hab Hb c Hc. by apply Hb, Hab.
Qed.

Lemma lowerByte_not_upper c : byteval c < 0x80 -> upperByte (Strings.lowerByte c) = false.
Proof.
  intros Hc. unfold Strings.lowerByte, upperByte.
  destruct ((0x41 <=? byteval c) && (byteval c <=? 0x5A)) eqn:E; [|done].
  apply andb_true_iff in E as [E1%N.leb_le E2%N.leb_le].
  unfold byteval. rewrite N_ascii_embedding by (unfold byteval in *; lia).
  apply andb_false_iff. right. apply N.leb_gt. unfold byteval in *. lia.
Qed.

Lemma ToLower_ascii unicodeLower s :
  Strings.isASCII s = true ->
  existsb upperByte (Strings.ToLower unicodeLower s) = false.
Proof.
  intros Hs. unfold Strings.ToLower. rewrite Hs.
  apply isASCII_Forall in Hs. induction Hs as [|c t Hc _ IH]; [done|].
  cbn [map existsb]. by rewrite lowerByte_not_upper, IH.
Qed.

Lemma cleaned_normal_aux content :
  noSpaceRun (fst (cleanContent content)) = true
  /\ trimmed (fst (cleanContent content)) = true.
Proof.
  rewrite cleanContent_normalize. split; [apply normalize_noSpaceRun|].
  rewrite normalize_unfold. apply Trim_trimmed.
Qed.

(** ** What cleaning does to every message *)

(** X10.  Cleaning only takes bytes away: the cleaned content is the
    content with some of its bytes left out, in the same order, so it is
    never longer and holds no byte the content does not hold. *)
Theorem cleaning_only_removes content :
  fst (cleanContent content) `sublist_of` content
  /\ (length (fst (cleanContent content)) <= length content)%nat
  /\ (forall c, c ∈ fst (cleanContent content) -> c ∈ content).
Proof.
  pose proof (cleanContent_sublist content) as H.
  split; [done|]. split; [by apply sublist_length|].
  intros c Hc. by eapply elem_of_sublist.
Qed.

(** X11.  A message without a hyphen and without the byte [0xE2], the
    first byte of the em dash, has no flags: flag removal leaves it as it
    is and the flag map is empty, so its cleaned content is the message
    with whitespace runs collapsed and spaces trimmed. *)
Theorem message_without_dash_has_no_flags content :
  plain content = true ->
  stripFlags content = (content, Ok ∅)
  /\ cleanContent content = (normalize content, Ok ∅).
Proof.
  intros Hplain. destruct (flags_plain content Hplain) as [Htext Htokens].
  split.
  - by rewrite stripFlags_tokens, Htext, Htokens.
  - by rewrite cleanContent_unfold, normalize_unfold, Htext, Htokens.
Qed.

Lemma message_without_dash_has_no_flags_witness :
  stripFlags (str "!ping  me now") = (str "!ping  me now", Ok ∅)
  /\ cleanContent (str "!ping  me now") = (normalize (str "!ping  me now"), Ok ∅).
Proof. apply message_without_dash_has_no_flags. reflexivity. Defined.

(** X12.  Flag parsing never fails, and every entry of the flag map
    comes from a flag token of the message: its key is a flag name, a
    word byte followed by at least one byte of the name class, and its
    value is not empty. *)
Theorem flags_have_names_and_values content :
  snd (cleanContent content) = Ok (flagsOf content)
  /\ map_Forall (fun key value =>
                   isFlagName key = true /\ value <> []
                   /\ exists token, token ∈ flagTokens content
                                    /\ flagOf token = (key, value))
                (flagsOf content).
Proof.
  split; [by rewrite cleanContent_unfold|].
  intros key value Hlookup. unfold flagsOf in Hlookup.
  apply foldl_putFlag_lookup in Hlookup as [Hempty|(token & Hin & Hflag)];
    [by rewrite lookup_empty in Hempty|].
  pose proof (flagTokens_matched content) as Hall.
  rewrite Forall_forall in Hall. destruct (Hall token Hin) as [cap Hm].
  pose proof (flagOf_name token cap Hm) as Hname.
  pose proof (flagOf_value token cap Hm) as Hvalue.
  rewrite Hflag in Hname, Hvalue. cbn in Hname, Hvalue.
  repeat split; try done. by exists token.
Qed.

(** X13.  The cleaned content of every message is in normal form: no
    two whitespace bytes stand next to each other, it neither starts nor
    ends with a space, and collapsing and trimming it once more changes
    nothing. *)
Theorem cleaned_content_is_normal content :
  noSpaceRun (fst (cleanContent content)) = true
  /\ trimmed (fst (cleanContent content)) = true
  /\ normalize (fst (cleanContent content)) = fst (cleanContent content)
  /\ (forall s, normalize (normalize s) = normalize s).
Proof.
  rewrite cleanContent_normalize. split; [apply normalize_noSpaceRun|].
  split; [rewrite normalize_unfold; apply Trim_trimmed|].
  split; [apply normalize_fixed|]. apply normalize_fixed.
Qed.

(** * Further properties of the command monitor *)

(** ** The steps of the function, one after the other *)

Lemma cleanContent_flags content :
  cleanContent content = (fst (cleanContent content), Ok (flagsOf content)).
Proof. by rewrite cleanContent_unfold. Qed.

(** The function up to the lookup of the command. *)
Lemma handler_lookup bot ctx w :
  CommandHandlerMonitor bot ctx w =
  if negb (Strings.HasPrefix (Content (ctx_Message ctx)) (prefixOf bot ctx))
  then (Ok tt, w)
  else match restOf bot ctx with
       | None => (Panicked (RuntimeError "slice bounds out of range"), w)
       | Some rest =>
         match GetCommand bot (inputOf bot rest) with
         | None => (Ok tt, w)
         | Some cmd => CommandHandlerMonitor bot ctx w
         end
       end.
Proof.
  unfold CommandHandlerMonitor, restOf, prefixOf, inputOf.
  destruct (negb (Strings.HasPrefix _ _)); [done|].
  rewrite cleanContent_flags.
  cbn [fst].
  destruct (slice_from _ _) as [rest|]; [|done].
  rewrite Split_space_nonempty.
  by destruct (GetCommand bot _).
Qed.

Section Resolved.
Variables (bot : Bot) (ctx : MonitorContext) (rest : gostring) (cmd : Command).
Hypothesis Hprefix :
  Strings.HasPrefix (Content (ctx_Message ctx)) (prefixOf bot ctx) = true.
Hypothesis Hrest : restOf bot ctx = Some rest.
Hypothesis Hcmd : GetCommand bot (inputOf bot rest) = Some cmd.

(** The function from the lookup of the locale on. *)
Lemma handler_resolved w :
  CommandHandlerMonitor bot ctx w =
  match Languages bot (languageOf bot ctx) with
  | None => (Ok tt, warned (languageOf bot ctx) w)
  | Some locale =>
    if negb (Command_Enabled cmd) then (Ok tt, replied "COMMAND_DISABLED" w)
    else if Command_OwnerOnly cmd && notOwner bot ctx
         then (Ok tt, replied "COMMAND_OWNER_ONLY" w)
    else if Command_GuildOnly cmd && isEmpty (GuildID (ctx_Message ctx))
         then (Ok tt, replied "COMMAND_GUILD_ONLY" w)
    else
      match ParseArgs bot (contextFor bot ctx rest cmd locale) w with
      | (Panicked v, w1) => (Panicked v, w1)
      | (Ok false, w1) => (Ok tt, w1)
      | (Ok true, w1) =>
        match CheckCooldown bot (User_ID (ctx_Author ctx)) (Command_Name cmd)
                            (Command_Cooldown cmd) (typed bot ctx w1) with
        | (Panicked v, w2) => (Panicked v, w2)
        | (Ok (false, after), w2) => (Ok tt, toldToWait after w2)
        | (Ok (true, after), w2) =>
          Command_Run cmd (contextFor bot ctx rest cmd locale) (counted w2)
        end
      end
  end.
Proof.
  unfold CommandHandlerMonitor.
  unfold restOf, prefixOf, inputOf, languageOf in *.
  rewrite Hprefix. cbn [negb]. rewrite cleanContent_flags.
  rewrite cleanContent_flags in Hrest. cbn [fst] in Hrest. rewrite Hrest.
  rewrite Split_space_nonempty, Hcmd, args_drop.
  destruct (Languages bot _) as [locale|]; [|done].
  unfold notOwner.
  destruct (negb (Command_Enabled cmd)); [done|].
  destruct (Command_OwnerOnly cmd && _); [done|].
  destruct (Command_GuildOnly cmd && _); [done|].
  cbn zeta. unfold contextFor, commandContext, bind, typed, prefixOf. cbn [cc_Command cc_Message cc_Channel cc_Author cc_RawArgs cc_Prefix cc_Guild cc_Flags].
  destruct (ParseArgs bot _ w) as [[[|]|v] w1]; cbn [negb]; try done.
  destruct (CommandTyping bot); cbn.
  all: destruct (CheckCooldown bot _ _ _ _) as [[[[|] after]|v] w2]; cbn; done.
Qed.

End Resolved.

Lemma restOf_words bot ctx rest :
  restOf bot ctx = Some rest ->
  noSpaceRun rest = true /\ last rest <> Some spaceChar.
Proof.
  unfold restOf, slice_from.
  destruct (_ <=? _)%nat; [|done]. intros [= <-].
  destruct (cleaned_normal_aux (Content (ctx_Message ctx))) as [Hrun Htrim].
  set (cleaned := fst (cleanContent (Content (ctx_Message ctx)))) in *.
  set (n := length (prefixOf bot ctx)).
  rewrite <- (take_drop n cleaned) in Hrun, Htrim.
  apply noSpaceRun_app in Hrun as [_ Hrun]. split; [done|].
  intros Hlast. unfold trimmed in Htrim.
  apply andb_true_iff in Htrim as [_ Htrim].
  apply negb_true_iff, bool_decide_eq_false in Htrim. apply Htrim.
  rewrite last_app. by rewrite Hlast.
Qed.

Lemma restOf_bytes bot ctx rest :
  restOf bot ctx = Some rest ->
  forall c, c ∈ rest -> c ∈ Content (ctx_Message ctx).
Proof.
  unfold restOf, slice_from.
  destruct (_ <=? _)%nat; [|done]. intros [= <-] c Hc.
  eapply elem_of_sublist; [|apply cleanContent_sublist].
  eapply elem_of_sublist; [exact Hc | apply sublist_drop].
Qed.

Lemma inputOf_lower bot ctx rest :
  Strings.isASCII (Content (ctx_Message ctx)) = true ->
  restOf bot ctx = Some rest ->
  existsb upperByte (inputOf bot rest) = false.
Proof.
  intros Hascii Hrest. unfold inputOf. apply ToLower_ascii.
  eapply isASCII_bytes; [|exact Hascii].
  intros c Hc. apply (restOf_bytes bot ctx rest Hrest).
  pose proof (splitLoop_bytes rest []) as Hall.
  change (Strings.splitLoop (str " ") rest 0 []) with (Strings.Split rest (str " ")) in Hall.
  destruct (Strings.Split rest (str " ")) as [|token tokens]; [by apply elem_of_nil in Hc|].
  apply Forall_cons in Hall as [Htoken _]. by apply Htoken.
Qed.

Lemma restOf_safe bot ctx :
  plain (prefixOf bot ctx) = true ->
  Forall (fun c => spaceByte c = false) (prefixOf bot ctx) ->
  Strings.HasPrefix (Content (ctx_Message ctx)) (prefixOf bot ctx) = true ->
  exists rest,
    fst (cleanContent (Content (ctx_Message ctx))) = prefixOf bot ctx ++ rest
    /\ restOf bot ctx = Some rest.
Proof.
  intros Hplain Hspace Hprefix.
  destruct (cleanContent_keeps_prefix _ _ Hplain Hspace Hprefix) as [rest Hrest].
  exists rest. split; [done|]. unfold restOf, slice_from. rewrite Hrest.
  rewrite length_app.
  destruct (Nat.leb_spec (length (prefixOf bot ctx))
                         (length (prefixOf bot ctx) + length rest)) as [_|]; [|lia].
  by rewrite drop_app_length.
Qed.

(** ** The prefix, the command name and the arguments *)

(** X14.  A prefix without whitespace, hyphen and the byte [0xE2] is
    left in place by cleaning: the cleaned content of a message that
    starts with it starts with it too, so the slice after the prefix is
    in range. *)
Theorem prefix_survives_cleaning bot ctx :
  plain (prefixOf bot ctx) = true ->
  Forall (fun c => spaceByte c = false) (prefixOf bot ctx) ->
  Strings.HasPrefix (Content (ctx_Message ctx)) (prefixOf bot ctx) = true ->
  exists rest,
    fst (cleanContent (Content (ctx_Message ctx))) = prefixOf bot ctx ++ rest
    /\ restOf bot ctx = Some rest.
Proof. apply restOf_safe. Qed.

Lemma prefix_survives_cleaning_witness :
  exists rest,
    fst (cleanContent (str "s!ping --loud  now")) = str "s!" ++ rest
    /\ restOf (Sample.bot "s!" (fun _ => None))
              (Sample.context "s!ping --loud  now") = Some rest.
Proof.
  apply (prefix_survives_cleaning (Sample.bot "s!" (fun _ => None))
                                  (Sample.context "s!ping --loud  now"));
    [reflexivity | repeat constructor | reflexivity].
Defined.

(** X15.  The text after the prefix is split into words: no piece holds
    a space, and every piece after the first, that is every raw
    argument, is not empty.  The first piece, the command name before
    lower-casing, is empty exactly when nothing follows the prefix or a
    space does. *)
Theorem raw_arguments_are_words bot ctx rest :
  restOf bot ctx = Some rest ->
  Forall (fun token => spaceChar ∉ token) (Strings.Split rest (str " "))
  /\ Forall (fun arg => arg <> []) (drop 1 (Strings.Split rest (str " ")))
  /\ (hd [] (Strings.Split rest (str " ")) = []
      <-> rest = [] \/ head rest = Some spaceChar).
Proof.
  intros Hrest. destruct (restOf_words bot ctx rest Hrest) as [Hrun Hlast].
  change (Strings.Split rest (str " ")) with (Strings.splitLoop (str " ") rest 0 []).
  split; [apply splitLoop_no_space, not_elem_of_nil|].
  split; [by apply splitLoop_arguments|].
  rewrite splitLoop_first. split; [by intros [_ H] | by intros H].
Qed.

Lemma raw_arguments_are_words_witness :
  Forall (fun token => spaceChar ∉ token)
         (Strings.Split (str "ping a b") (str " "))
  /\ Forall (fun arg => arg <> []) (drop 1 (Strings.Split (str "ping a b") (str " ")))
  /\ (hd [] (Strings.Split (str "ping a b") (str " ")) = []
      <-> str "ping a b" = [] \/ head (str "ping a b") = Some spaceChar).
Proof.
  apply (raw_arguments_are_words (Sample.bot "!" (fun _ => None))
                                 (Sample.context "!ping  a --xy   b ")).
  reflexivity.
Defined.

(** X16.  For a message of ASCII bytes the name that is looked up has
    no upper-case letter, so a bot whose commands are all registered
    under names with an upper-case letter does nothing for it. *)
Theorem only_lower_case_names_are_looked_up bot ctx w :
  Strings.isASCII (Content (ctx_Message ctx)) = true ->
  (forall rest, restOf bot ctx = Some rest ->
                existsb upperByte (inputOf bot rest) = false)
  /\ ((forall name, existsb upperByte name = false -> GetCommand bot name = None) ->
      snd (CommandHandlerMonitor bot ctx w) = w).
Proof.
  intros Hascii. split; [intros rest; by apply inputOf_lower|].
  intros Hnone. rewrite handler_lookup.
  destruct (negb _); [done|].
  destruct (restOf bot ctx) as [rest|] eqn:Hrest; [|done].
  rewrite Hnone; [done|]. by apply (inputOf_lower bot ctx).
Qed.

Lemma only_lower_case_names_are_looked_up_witness :
  (forall rest,
      restOf (Sample.bot "!" (Sample.registry "Ping" Sample.ping))
             (Sample.context "!Ping now") = Some rest ->
      existsb upperByte (inputOf (Sample.bot "!" (Sample.registry "Ping" Sample.ping)) rest)
      = false)
  /\ ((forall name, existsb upperByte name = false ->
                    GetCommand (Sample.bot "!" (Sample.registry "Ping" Sample.ping)) name
                    = None) ->
      snd (CommandHandlerMonitor (Sample.bot "!" (Sample.registry "Ping" Sample.ping))
                                 (Sample.context "!Ping now") Sample.fresh)
      = Sample.fresh).
Proof.
  apply (only_lower_case_names_are_looked_up
           (Sample.bot "!" (Sample.registry "Ping" Sample.ping))
           (Sample.context "!Ping now") Sample.fresh).
  reflexivity.
Defined.

(** ** The ways the function ends *)

(** X17.  A message that does not start with the prefix, and a message
    whose first word after the prefix names no command, are ignored:
    the function returns and the state is as it was, with no reply and
    no warning. *)
Theorem message_for_no_command_is_ignored bot ctx w :
  (Strings.HasPrefix (Content (ctx_Message ctx)) (prefixOf bot ctx) = false ->
   CommandHandlerMonitor bot ctx w = (Ok tt, w))
  /\ (forall rest,
         restOf bot ctx = Some rest ->
         GetCommand bot (inputOf bot rest) = None ->
         CommandHandlerMonitor bot ctx w = (Ok tt, w)).
Proof.
  split.
  - intros Hprefix. rewrite handler_lookup. by rewrite Hprefix.
  - intros rest Hrest Hcmd. rewrite handler_lookup.
    destruct (negb _); [done|]. by rewrite Hrest, Hcmd.
Qed.

(** X18.  The locale is looked up before the gates: when the language
    the bot answers has no locale, the warning is printed and nothing
    else happens, whether the command is enabled or not and whoever the
    author is. *)
Theorem unknown_language_only_warns bot ctx rest cmd w :
  Strings.HasPrefix (Content (ctx_Message ctx)) (prefixOf bot ctx) = true ->
  restOf bot ctx = Some rest ->
  GetCommand bot (inputOf bot rest) = Some cmd ->
  Languages bot (languageOf bot ctx) = None ->
  CommandHandlerMonitor bot ctx w = (Ok tt, warned (languageOf bot ctx) w).
Proof.
  intros Hprefix Hrest Hcmd Hlang.
  rewrite (handler_resolved bot ctx rest cmd Hprefix Hrest Hcmd). by rewrite Hlang.
Qed.

Lemma unknown_language_only_warns_witness :
  CommandHandlerMonitor
    (Sample.configured "tlh" true true true
       (Sample.registry "ping" (Sample.command "ping" false true true)))
    (Sample.context "!ping") Sample.fresh
  = (Ok tt, warned (str "tlh") Sample.fresh).
Proof.
  apply (unknown_language_only_warns
           (Sample.configured "tlh" true true true
              (Sample.registry "ping" (Sample.command "ping" false true true)))
           (Sample.context "!ping") (str "ping")
           (Sample.command "ping" false true true) Sample.fresh);
    reflexivity.
Defined.

(** X19.  A command that passes the gates is still not run when
    [ParseArgs] answers false, in which case the function returns at
    once, or when [CheckCooldown] refuses it, in which case the reply
    names the time left.  The typing indicator, where the bot sends one,
    goes out after the arguments are parsed and before the cooldown is
    checked, so also for a command that is refused for its cooldown. *)
Theorem refused_command_is_not_run bot ctx rest cmd locale w :
  Strings.HasPrefix (Content (ctx_Message ctx)) (prefixOf bot ctx) = true ->
  restOf bot ctx = Some rest ->
  GetCommand bot (inputOf bot rest) = Some cmd ->
  Languages bot (languageOf bot ctx) = Some locale ->
  gatesPass bot ctx cmd = true ->
  (forall w1,
      ParseArgs bot (contextFor bot ctx rest cmd locale) w = (Ok false, w1) ->
      CommandHandlerMonitor bot ctx w = (Ok tt, w1))
  /\ (forall w1 after w2,
         ParseArgs bot (contextFor bot ctx rest cmd locale) w = (Ok true, w1) ->
         CheckCooldown bot (User_ID (ctx_Author ctx)) (Command_Name cmd)
                       (Command_Cooldown cmd) (typed bot ctx w1)
         = (Ok (false, after), w2) ->
         CommandHandlerMonitor bot ctx w = (Ok tt, toldToWait after w2)).
Proof.
  intros Hprefix Hrest Hcmd Hlang Hgates.
  unfold gatesPass in Hgates.
  apply andb_true_iff in Hgates as [[Hen Hown%negb_true_iff]%andb_true_iff
                                      Hguild%negb_true_iff].
  pose proof (handler_resolved bot ctx rest cmd Hprefix Hrest Hcmd w) as H.
  rewrite Hlang, Hen, Hown, Hguild in H. cbn [negb] in H.
  split.
  - intros w1 Hparse. by rewrite H, Hparse.
  - intros w1 after w2 Hparse Hcool. by rewrite H, Hparse, Hcool.
Qed.

Lemma refused_command_is_not_run_witness :
  CommandHandlerMonitor
    (Sample.configured "en-US" true true false (Sample.registry "ping" Sample.ping))
    (Sample.context "!ping now") Sample.fresh
  = (Ok tt, toldToWait 30 (mkWorld [ChannelTyping (str "dm")] 0)).
Proof.
  apply (proj2 (refused_command_is_not_run
                  (Sample.configured "en-US" true true false
                     (Sample.registry "ping" Sample.ping))
                  (Sample.context "!ping now") (str "ping now") Sample.ping
                  (str "en-US") Sample.fresh
                  eq_refl eq_refl eq_refl eq_refl eq_refl)
               Sample.fresh 30 (mkWorld [ChannelTyping (str "dm")] 0));
    reflexivity.
Defined.







(** * Further forms of a flag *)

(** The name of a flag, as group 1, before whatever follows it. *)
Lemma name_group {R} name post p cap (k : @Cont R) x :
  isFlagName name = true -> endsToken post = true ->
  k post (p + length name)%nat ((1%nat, (p, (p + length name)%nat)) :: cap) = Some x ->
  run (Capture 1 (Concat word (Plus wordOrHyphen))) (name ++ post) p cap k = Some x.
Proof.
  intros Hname Hend Hk.
  destruct name as [|c0 [|c1 rest]];
    cbn [isFlagName isEmpty negb] in Hname;
    rewrite ?andb_false_r, ?andb_true_r in Hname; try done.
  apply andb_true_iff in Hname as [Hc0 Hrest].
  cbn [forallb] in Hrest. apply andb_true_iff in Hrest as [Hc1 Hrest].
  unfold word, wordOrHyphen. cbn [run app].
  rewrite stepRune_class by apply inRanges_word_ascii.
  cbn [xorb]. fold (wordByte c0). rewrite Hc0.
  rewrite stepRune_class by apply inRanges_name_ascii.
  fold (nameByte c1). rewrite Hc1.
  apply loop_step; [apply inRanges_name_ascii | done | | rewrite length_app; lia |].
  - destruct post as [|c post]; [done|]. cbn [endsToken] in Hend.
    by apply negb_true_iff.
  - cbn [length] in Hk.
    by replace (p + 1 + 1 + length rest)%nat with (p + S (S (length rest)))%nat by lia.
Qed.

Lemma run_Concat {R} a b s pos cap (k : @Cont R) :
  run (Concat a b) s pos cap k
  = run a s pos cap (fun s' pos' cap' => run b s' pos' cap' k).
Proof. done. Qed.

Lemma nameByte_cases c :
  nameByte c = true ->
  byteval c = 45 \/ 48 <= byteval c <= 57 \/ 65 <= byteval c <= 90
  \/ byteval c = 95 \/ 97 <= byteval c <= 122.
Proof.
  unfold nameByte, inRanges, wordRanges, one.
  change (lit "-") with 45. change (lit "0") with 48. change (lit "9") with 57.
  change (lit "A") with 65. change (lit "Z") with 90. change (lit "_") with 95.
  change (lit "a") with 97. change (lit "z") with 122.
  cbn [existsb fst snd].
  rewrite !orb_true_iff, !andb_true_iff, !N.leb_le. lia.
Qed.

Lemma quoted_other {R} i q c s pos cap (k : @Cont R) :
  byteval c < 0x80 -> inRanges (byteval c) q = false ->
  run (quoted i q) (c :: s) pos cap k = None.
Proof.
  intros Hc Hq. unfold quoted. cbn [run].
  rewrite stepRune_ascii by done. cbn [xorb]. by rewrite Hq.
Qed.

Lemma nameByte_no_quote c :
  nameByte c = true ->
  inRanges (byteval c) [(dquote, dquote)] = false
  /\ inRanges (byteval c) [(squote, squote)] = false
  /\ inRanges (byteval c) [one "“"; one "”"] = false
  /\ inRanges (byteval c) [one "‘"; one "’"] = false.
Proof.
  intros H%nameByte_cases. unfold inRanges, one, dquote, squote.
  change (lit "“") with 8220. change (lit "”") with 8221.
  change (lit "‘") with 8216. change (lit "’") with 8217.
  cbn [existsb fst snd].
  rewrite !orb_false_iff, !andb_false_iff, !N.leb_gt. lia.
Qed.

Lemma flagBody_valued name value post p :
  isFlagName name = true ->
  value <> [] -> forallb nameByte value = true -> endsToken post = true ->
  run flagBody (name ++ str "=" ++ value ++ post) p []
      (fun _ pos cap => Some (pos, cap))
  = Some ((p + length name + 1 + length value)%nat,
          [(6%nat, ((p + length name + 1)%nat, (p + length name + 1 + length value)%nat));
           (1%nat, (p, (p + length name)%nat))]).
Proof.
  intros Hname Hne Hvalue Hend.
  unfold flagBody. rewrite run_Concat.
  apply name_group; [done|done|].
  destruct value as [|v0 value]; [done|]. clear Hne.
  cbn [forallb] in Hvalue. apply andb_true_iff in Hvalue as [Hv0 Hvalue].
  pose proof (nameByte_ascii _ Hv0) as Hascii.
  destruct (nameByte_no_quote _ Hv0) as (Hq2 & Hq3 & Hq4 & Hq5).
  cbn [run str list_ascii_of_string app].
  rewrite stepRune_ascii by reflexivity.
  change (lit "=" =? byteval "=") with true. cbv iota.
  rewrite !quoted_other by done.
  unfold wordOrHyphen. cbn [run].
  rewrite stepRune_class by apply inRanges_name_ascii.
  cbn [xorb]. fold (nameByte v0). rewrite Hv0.
  erewrite loop_step; [reflexivity | apply inRanges_name_ascii | done | | rewrite length_app; lia |].
  - destruct post as [|c post]; [done|]. cbn [endsToken] in Hend.
    by apply negb_true_iff.
  - cbn [length].
    by replace (p + length name + 1 + 1 + length value)%nat
      with (p + length name + 1 + S (length value))%nat by lia.
Qed.

Lemma flagsRegex_valued name value post :
  isFlagName name = true ->
  value <> [] -> forallb nameByte value = true -> endsToken post = true ->
  matchHere flagsRegex (str "--" ++ name ++ str "=" ++ value ++ post)
  = Some ((2 + length name + 1 + length value)%nat,
          [(6%nat, ((2 + length name + 1)%nat, (2 + length name + 1 + length value)%nat));
           (1%nat, (2%nat, (2 + length name)%nat))]).
Proof.
  intros Hname Hne Hvalue Hend.
  pose proof (flagBody_valued name value post 2 Hname Hne Hvalue Hend) as Hbody.
  set (t := name ++ str "=" ++ value ++ post) in *.
  unfold matchHere, flagsRegex, flagIntroducer.
  cbn [run str list_ascii_of_string app].
  rewrite stepRune_ascii by reflexivity.
  change (lit "-" =? byteval "-") with true. cbv iota.
  rewrite stepRune_ascii by reflexivity.
  change (lit "-" =? byteval "-") with true. cbv iota.
  cbn [Nat.add]. by rewrite Hbody.
Qed.

Lemma substr_app_inner (a b c : gostring) n m :
  n = length a -> m = (length a + length b)%nat ->
  substr (a ++ b ++ c) n m = b.
Proof. intros -> ->. apply substr_app_middle. Qed.

Lemma flagOf_valued name value :
  isFlagName name = true ->
  value <> [] -> forallb nameByte value = true ->
  flagOf (str "--" ++ name ++ str "=" ++ value) = (name, value).
Proof.
  intros Hname Hne Hvalue. unfold flagOf, FindStringSubmatch.
  pose proof (flagsRegex_valued name value [] Hname Hne Hvalue eq_refl) as Hm.
  rewrite app_nil_r in Hm.
  set (m := str "--" ++ name ++ str "=" ++ value) in *.
  destruct (length m) eqn:Hlen; [by destruct name|]. rewrite <- Hlen.
  replace (search (length m) flagsRegex m) with (Some (m, (2 + length name + 1 + length value)%nat,
          [(6%nat, ((2 + length name + 1)%nat, (2 + length name + 1 + length value)%nat));
           (1%nat, (2%nat, (2 + length name)%nat))])).
  2:{ rewrite Hlen. cbn [search]. by rewrite Hm. }
  unfold submatches, flagsRegexGroups. cbn [seq map].
  unfold group. cbn [capLookup Nat.eqb].
  assert (substr m 2 (2 + length name) = name) as ->.
  { apply (substr_app_inner (str "--") name (str "=" ++ value)); done. }
  assert (substr m (2 + length name + 1) (2 + length name + 1 + length value) = value) as ->.
  { unfold m. rewrite (app_assoc name), (app_assoc (str "--")).
    rewrite <- (app_nil_r value) at 1.
    apply substr_app_inner; rewrite !length_app; cbn [length str list_ascii_of_string]; lia. }
  cbn [firstNonEmpty find isEmpty negb]. by destruct value.
Qed.

Lemma stripFlags_valued pre name value post :
  plain pre = true -> isFlagName name = true ->
  value <> [] -> forallb nameByte value = true ->
  plain post = true -> endsToken post = true ->
  stripFlags (pre ++ (str "--" ++ name ++ str "=" ++ value) ++ post)
  = (pre ++ post, Ok {[name := value]}).
Proof.
  intros Hpre Hname Hne Hvalue Hpost Hend. rewrite stripFlags_tokens.
  pose proof (flagsRegex_valued name value post Hname Hne Hvalue Hend) as Hm.
  replace (str "--" ++ name ++ str "=" ++ value ++ post)
    with ((str "--" ++ name ++ str "=" ++ value) ++ post) in Hm
    by (by rewrite <- !app_assoc).
  assert (length (str "--" ++ name ++ str "=" ++ value)
          = (2 + length name + 1 + length value)%nat) as Hlen.
  { rewrite !length_app. cbn [length str list_ascii_of_string]. lia. }
  destruct (pieces_one_token pre (str "--" ++ name ++ str "=" ++ value) post _ _
                             Hpre Hpost eq_refl Hlen Hm) as [-> ->].
  cbn [foldl]. unfold putFlag. by rewrite flagOf_valued.
Qed.


Lemma ascii_no_quote c :
  byteval c < 0x80 -> byteval c <> 34 -> byteval c <> 39 ->
  inRanges (byteval c) [(dquote, dquote)] = false
  /\ inRanges (byteval c) [(squote, squote)] = false
  /\ inRanges (byteval c) [one "“"; one "”"] = false
  /\ inRanges (byteval c) [one "‘"; one "’"] = false.
Proof.
  intros H1 H2 H3. unfold inRanges, one, dquote, squote.
  change (lit "“") with 8220. change (lit "”") with 8221.
  change (lit "‘") with 8216. change (lit "’") with 8217.
  cbn [existsb fst snd].
  rewrite !orb_false_iff, !andb_false_iff, !N.leb_gt. lia.
Qed.

Lemma flagBody_dangling name post p :
  isFlagName name = true -> endsDangling post = true ->
  run flagBody (name ++ str "=" ++ post) p [] (fun _ pos cap => Some (pos, cap))
  = Some ((p + length name)%nat, [(1%nat, (p, (p + length name)%nat))]).
Proof.
  intros Hname Hend.
  unfold flagBody. rewrite run_Concat.
  apply name_group; [done|done|].
  cbn [run str list_ascii_of_string app].
  rewrite stepRune_ascii by reflexivity.
  change (lit "=" =? byteval "=") with true. cbv iota.
  destruct post as [|c post]; [done|].
  cbn [endsDangling] in Hend.
  apply andb_true_iff in Hend as [[[Hc%N.ltb_lt Hn%negb_true_iff]%andb_true_iff
                                     H34%negb_true_iff]%andb_true_iff H39%negb_true_iff].
  apply N.eqb_neq in H34, H39.
  destruct (ascii_no_quote c Hc H34 H39) as (Hq2 & Hq3 & Hq4 & Hq5).
  rewrite !quoted_other by done.
  unfold wordOrHyphen. cbn [run].
  rewrite stepRune_class by apply inRanges_name_ascii.
  cbn [xorb]. fold (nameByte c). by rewrite Hn.
Qed.

Lemma flagsRegex_dangling name post :
  isFlagName name = true -> endsDangling post = true ->
  matchHere flagsRegex (str "--" ++ name ++ str "=" ++ post)
  = Some ((2 + length name)%nat, [(1%nat, (2%nat, (2 + length name)%nat))]).
Proof.
  intros Hname Hend.
  pose proof (flagBody_dangling name post 2 Hname Hend) as Hbody.
  set (t := name ++ str "=" ++ post) in *.
  unfold matchHere, flagsRegex, flagIntroducer.
  cbn [run str list_ascii_of_string app].
  rewrite stepRune_ascii by reflexivity.
  change (lit "-" =? byteval "-") with true. cbv iota.
  rewrite stepRune_ascii by reflexivity.
  change (lit "-" =? byteval "-") with true. cbv iota.
  cbn [Nat.add]. by rewrite Hbody.
Qed.

Lemma stripFlags_dangling pre name post :
  plain pre = true -> isFlagName name = true ->
  plain post = true -> endsDangling post = true ->
  stripFlags (pre ++ (str "--" ++ name) ++ str "=" ++ post)
  = (pre ++ str "=" ++ post, Ok {[name := name]}).
Proof.
  intros Hpre Hname Hpost Hend. rewrite stripFlags_tokens.
  pose proof (flagsRegex_dangling name post Hname Hend) as Hm.
  replace (str "--" ++ name ++ str "=" ++ post)
    with ((str "--" ++ name) ++ str "=" ++ post) in Hm
    by (by rewrite <- !app_assoc).
  destruct (pieces_one_token pre (str "--" ++ name) (str "=" ++ post) _ _
                             Hpre Hpost eq_refl eq_refl Hm) as [-> ->].
  cbn [foldl]. unfold putFlag. by rewrite flagOf_bare.
Qed.

Lemma valueByte_rune c s :
  valueByte c = true ->
  inRanges (firstRune (c :: s)) [(dquote, dquote); (backslash, backslash)] = false.
Proof.
  unfold valueByte. intros [H34%negb_true_iff H92%negb_true_iff]%andb_true_iff.
  apply N.eqb_neq in H34, H92.
  assert (firstRune (c :: s) <> 34 /\ firstRune (c :: s) <> 92) as [H1 H2].
  { destruct (N.lt_ge_cases (byteval c) 0x80) as [Hlt|Hge].
    - unfold firstRune. by rewrite decode_ascii.
    - destruct (decode_nonascii c s Hge) as [Hr _]. lia. }
  unfold inRanges, dquote, backslash. cbn [existsb fst snd].
  rewrite !orb_false_iff, !andb_false_iff, !N.leb_gt. lia.
Qed.

Lemma valueByte_drop n text :
  forallb valueByte text = true -> forallb valueByte (drop n text) = true.
Proof.
  revert n. induction text as [|c t IH]; intros n H; [by destruct n|].
  destruct n as [|n]; [done|]. cbn [drop]. apply IH.
  cbn [forallb] in H. by apply andb_true_iff in H as [_ H].
Qed.

Lemma quoted_body_step {R} c u pos cap (k : @Cont R) :
  valueByte c = true ->
  run (Alternate (CharClass true [(dquote, dquote); (backslash, backslash)])
                 (Concat (Literal backslash) AnyCharNotNL))
      (c :: u) pos cap k
  = k (drop (width (c :: u)) (c :: u)) (pos + width (c :: u))%nat cap.
Proof.
  intros Hc. cbn [run]. rewrite !stepRune_cons. cbn [xorb].
  pose proof (valueByte_rune c u Hc) as Hr. rewrite Hr. cbn [negb].
  assert ((backslash =? firstRune (c :: u)) = false) as ->.
  { apply N.eqb_neq. intros E. rewrite <- E in Hr. done. }
  by destruct (k _ _ _).
Qed.

Lemma quoted_body_stop {R} post pos cap (k : @Cont R) :
  run (Alternate (CharClass true [(dquote, dquote); (backslash, backslash)])
                 (Concat (Literal backslash) AnyCharNotNL))
      (quoteByte :: post) pos cap k
  = None.
Proof. cbn [run]. by rewrite !stepRune_ascii by reflexivity. Qed.

(** The greedy loop inside double quotes takes a text without quote
    and backslash to the closing quote. *)
Lemma quoted_loop {R} n :
  forall text post fuel pos cap (k : @Cont R) x,
    (length text <= n)%nat ->
    forallb valueByte text = true ->
    (length text < fuel)%nat ->
    k (quoteByte :: post) (pos + length text)%nat cap = Some x ->
    loop (run (Alternate (CharClass true [(dquote, dquote); (backslash, backslash)])
                         (Concat (Literal backslash) AnyCharNotNL)))
         fuel (text ++ quoteByte :: post) pos cap k = Some x.
Proof.
  induction n as [|n IH]; intros text post fuel pos cap k x Hn Htext Hfuel Hk.
  - destruct text; [|cbn in Hn; lia].
    destruct fuel as [|fuel]; [cbn in Hfuel; lia|].
    cbn [loop app]. rewrite quoted_body_stop.
    cbn [length] in Hk. by rewrite Nat.add_0_r in Hk.
  - destruct text as [|c text].
    { apply (IH [] post fuel pos cap k x); [cbn; lia|done..]. }
    destruct fuel as [|fuel]; [cbn in Hfuel; lia|].
    cbn [forallb] in Htext. apply andb_true_iff in Htext as [Hc Htext].
    cbn [loop app]. rewrite quoted_body_step by done.
    pose proof (width_within c text (quoteByte :: post) eq_refl) as Hw.
    pose proof (width_pos c (text ++ quoteByte :: post)) as Hw0.
    set (w := width (c :: text ++ quoteByte :: post)) in *.
    replace (pos <? pos + w)%nat with true by (symmetry; apply Nat.ltb_lt; lia).
    change (c :: text ++ quoteByte :: post) with ((c :: text) ++ quoteByte :: post).
    rewrite drop_app_le by done.
    rewrite (IH (drop w (c :: text)) post fuel (pos + w)%nat cap k x); [done|..].
    + rewrite length_drop. cbn [length] in *. lia.
    + apply valueByte_drop. cbn [forallb]. by rewrite Hc.
    + rewrite length_drop. cbn [length] in *. lia.
    + rewrite length_drop. rewrite <- Hk. f_equal. cbn [length] in *. lia.
Qed.

Lemma run_CharClass {R} neg ranges s pos cap (k : @Cont R) :
  run (CharClass neg ranges) s pos cap k
  = stepRune (fun r => xorb neg (inRanges r ranges)) s pos cap k.
Proof. done. Qed.

Lemma run_Literal {R} c s pos cap (k : @Cont R) :
  run (Literal c) s pos cap k = stepRune (N.eqb c) s pos cap k.
Proof. done. Qed.

Lemma run_Capture {R} i a s pos cap (k : @Cont R) :
  run (Capture i a) s pos cap k
  = run a s pos cap (fun s' pos' cap' => k s' pos' ((i, (pos, pos')) :: cap')).
Proof. done. Qed.

Lemma run_Star {R} a s pos cap (k : @Cont R) :
  run (Star a) s pos cap k = loop (run a) (S (length s)) s pos cap k.
Proof. done. Qed.

Lemma run_Quest {R} a s pos cap (k : @Cont R) :
  run (Quest a) s pos cap k
  = match run a s pos cap k with Some x => Some x | None => k s pos cap end.
Proof. done. Qed.

Lemma run_Alternate {R} a b s pos cap (k : @Cont R) :
  run (Alternate a b) s pos cap k
  = match run a s pos cap k with Some x => Some x | None => run b s pos cap k end.
Proof. done. Qed.

(** A double-quoted text without quote and backslash, as group [i]. *)
Lemma quoted_text {R} i text post pos cap (k : @Cont R) x :
  forallb valueByte text = true ->
  k post (pos + 1 + length text + 1)%nat
    ((i, ((pos + 1)%nat, (pos + 1 + length text)%nat)) :: cap) = Some x ->
  run (quoted i [(dquote, dquote)]) (quoteByte :: text ++ quoteByte :: post) pos cap k
  = Some x.
Proof.
  intros Htext Hk. unfold quoted. cbn [app].
  rewrite run_Concat, run_CharClass, stepRune_ascii by reflexivity.
  change (xorb false (inRanges (byteval quoteByte) [(dquote, dquote)])) with true.
  cbv iota. rewrite run_Concat, run_Capture, run_Star.
  apply (quoted_loop (length text)); [done|done|rewrite length_app; cbn [length]; lia|].
  rewrite run_CharClass, stepRune_ascii by reflexivity.
  change (xorb false (inRanges (byteval quoteByte) [(dquote, dquote)])) with true.
  cbv iota. done.
Qed.

Lemma flagBody_quoted name text post p :
  isFlagName name = true -> forallb valueByte text = true ->
  run flagBody (name ++ str "=" ++ [quoteByte] ++ text ++ [quoteByte] ++ post) p []
      (fun _ pos cap => Some (pos, cap))
  = Some ((p + length name + 1 + 1 + length text + 1)%nat,
          [(2%nat, ((p + length name + 1 + 1)%nat,
                    (p + length name + 1 + 1 + length text)%nat));
           (1%nat, (p, (p + length name)%nat))]).
Proof.
  intros Hname Htext.
  unfold flagBody. rewrite run_Concat.
  apply name_group; [done|done|].
  cbn [str list_ascii_of_string app].
  rewrite run_Quest, run_Concat, run_Literal, stepRune_ascii by reflexivity.
  change (lit "=" =? byteval "=") with true. cbv iota.
  rewrite run_Alternate.
  by erewrite quoted_text.
Qed.

Lemma flagsRegex_quoted name text post :
  isFlagName name = true -> forallb valueByte text = true ->
  matchHere flagsRegex (quotedFlag name text ++ post)
  = Some (length (quotedFlag name text),
          [(2%nat, ((2 + length name + 2)%nat, (2 + length name + 2 + length text)%nat));
           (1%nat, (2%nat, (2 + length name)%nat))]).
Proof.
  intros Hname Htext.
  pose proof (flagBody_quoted name text post 2 Hname Htext) as Hbody.
  assert (length (quotedFlag name text)
          = (2 + length name + 1 + 1 + length text + 1)%nat) as ->.
  { unfold quotedFlag. rewrite !length_app. cbn [length str list_ascii_of_string]. lia. }
  replace (2 + length name + 2)%nat with (2 + length name + 1 + 1)%nat by lia.
  remember (Some ((2 + length name + 1 + 1 + length text + 1)%nat,
       [(2%nat,
         ((2 + length name + 1 + 1)%nat,
          (2 + length name + 1 + 1 + length text)%nat));
        (1%nat, (2%nat, (2 + length name)%nat))])) as answer.
  unfold quotedFlag. rewrite <- !app_assoc.
  set (t := name ++ str "=" ++ [quoteByte] ++ text ++ [quoteByte] ++ post) in *.
  unfold matchHere, flagsRegex, flagIntroducer.
  cbn [run str list_ascii_of_string app].
  rewrite stepRune_ascii by reflexivity.
  change (lit "-" =? byteval "-") with true. cbv iota.
  rewrite stepRune_ascii by reflexivity.
  change (lit "-" =? byteval "-") with true. cbv iota.
  cbn [Nat.add]. rewrite Hbody. by subst answer.
Qed.

Lemma search_here fuel re s n cap :
  matchHere re s = Some (n, cap) -> search fuel re s = Some (s, n, cap).
Proof. intros H. destruct fuel; cbn [search]; by rewrite H. Qed.

Lemma flagOf_quoted name text :
  isFlagName name = true -> forallb valueByte text = true ->
  flagOf (quotedFlag name text) = (name, if isEmpty text then name else text).
Proof.
  intros Hname Htext. unfold flagOf, FindStringSubmatch.
  pose proof (flagsRegex_quoted name text [] Hname Htext) as Hm.
  rewrite app_nil_r in Hm. rewrite (search_here _ _ _ _ _ Hm).
  unfold submatches, flagsRegexGroups. cbn [seq map].
  unfold group. cbn [capLookup Nat.eqb].
  assert (substr (quotedFlag name text) 2 (2 + length name) = name) as ->.
  { apply (substr_app_inner (str "--") name
                            (str "=" ++ [quoteByte] ++ text ++ [quoteByte])); done. }
  assert (substr (quotedFlag name text) (2 + length name + 2)
                 (2 + length name + 2 + length text) = text) as ->.
  { unfold quotedFlag.
    replace (str "--" ++ name ++ str "=" ++ [quoteByte] ++ text ++ [quoteByte])
      with ((str "--" ++ name ++ str "=" ++ [quoteByte]) ++ text ++ [quoteByte])
      by (by rewrite <- !app_assoc).
    apply substr_app_inner; rewrite !length_app; cbn [length str list_ascii_of_string]; lia. }
  cbn [firstNonEmpty find]. by destruct text.
Qed.

Lemma stripFlags_quoted pre name text post :
  plain pre = true -> isFlagName name = true ->
  forallb valueByte text = true -> plain post = true ->
  stripFlags (pre ++ quotedFlag name text ++ post)
  = (pre ++ post, Ok {[name := if isEmpty text then name else text]}).
Proof.
  intros Hpre Hname Htext Hpost. rewrite stripFlags_tokens.
  pose proof (flagsRegex_quoted name text post Hname Htext) as Hm.
  destruct (pieces_one_token pre (quotedFlag name text) post _ _
                             Hpre Hpost eq_refl eq_refl Hm) as [-> ->].
  cbn [foldl]. unfold putFlag. by rewrite flagOf_quoted.
Qed.

(** ** Flags with a value, with an empty value and with none after [=] *)

(** X23.  A flag with a bare value, [--name=value] with a value of
    bytes of the name class, among text without hyphens and em dashes:
    the whole token is cut out and the name is mapped to the value. *)
Theorem flag_with_bare_value pre name value post :
  plain pre = true -> isFlagName name = true ->
  value <> [] -> forallb nameByte value = true ->
  plain post = true -> endsToken post = true ->
  stripFlags (pre ++ (str "--" ++ name ++ str "=" ++ value) ++ post)
  = (pre ++ post, Ok {[name := value]})
  /\ flagOf (str "--" ++ name ++ str "=" ++ value) = (name, value).
Proof.
  intros Hpre Hname Hne Hvalue Hpost Hend.
  split; [by apply stripFlags_valued | by apply flagOf_valued].
Qed.

Lemma flag_with_bare_value_witness :
  stripFlags (str "!play " ++ (str "--" ++ str "volume" ++ str "=" ++ str "11")
                  ++ str " now")
  = (str "!play " ++ str " now", Ok {[str "volume" := str "11"]})
  /\ flagOf (str "--" ++ str "volume" ++ str "=" ++ str "11")
     = (str "volume", str "11").
Proof. by apply flag_with_bare_value. Defined.

(** X24.  A flag with a value in straight double quotes, where the
    value holds neither a double quote nor a backslash and is otherwise
    of any bytes, spaces and hyphens included: the whole token with its
    quotes is cut out and the name is mapped to the text between the
    quotes.  For the empty pair of quotes the name is mapped to itself,
    as for a flag without a value. *)
Theorem flag_with_quoted_value pre name text post :
  plain pre = true -> isFlagName name = true ->
  forallb valueByte text = true -> plain post = true ->
  stripFlags (pre ++ quotedFlag name text ++ post)
  = (pre ++ post, Ok {[name := if isEmpty text then name else text]})
  /\ flagOf (quotedFlag name text) = (name, if isEmpty text then name else text).
Proof.
  intros Hpre Hname Htext Hpost.
  split; [by apply stripFlags_quoted | by apply flagOf_quoted].
Qed.

Lemma flag_with_quoted_value_witness :
  stripFlags (str "!say " ++ quotedFlag (str "msg") (str "well - done") ++ str " now")
  = (str "!say " ++ str " now", Ok {[str "msg" := str "well - done"]})
  /\ flagOf (quotedFlag (str "msg") []) = (str "msg", str "msg").
Proof.
  split.
  - by apply (flag_with_quoted_value (str "!say ") (str "msg") (str "well - done")
                                     (str " now")).
  - by apply (flag_with_quoted_value [] (str "msg") [] []).
Defined.

(** X25.  A flag followed by [=] and no value, the text being over or
    going on with an ASCII byte that starts none: the token is cut out
    up to the [=], which stays in the text, and the name is mapped to
    itself. *)
Theorem flag_with_missing_value pre name post :
  plain pre = true -> isFlagName name = true ->
  plain post = true -> endsDangling post = true ->
  stripFlags (pre ++ (str "--" ++ name) ++ str "=" ++ post)
  = (pre ++ str "=" ++ post, Ok {[name := name]}).
Proof. apply stripFlags_dangling. Qed.

Lemma flag_with_missing_value_witness :
  stripFlags (str "!play " ++ (str "--" ++ str "volume") ++ str "=" ++ str " now")
  = (str "!play " ++ str "=" ++ str " now", Ok {[str "volume" := str "volume"]}).
Proof. by apply flag_with_missing_value. Defined.
